(** * QMD search modal: a shallow embedding of [src/main.ts]

    The development follows the layout of the source file:
    - JavaScript strings and the string built-ins the plugin calls;
    - [sanitizeJson], the repair pass run before [JSON.parse];
    - a model of [JSON.parse] (ECMA-404 grammar);
    - the helpers [cleanFilePath], [normalizeForMatch] and the reconciler
      [resolveVaultFile];
    - the search session: [runSearch], the child-process handlers,
      [renderResults], [moveSelection] and the keyboard handlers. *)

From Stdlib Require Import String Ascii.
From Stdlib Require Import List Bool Arith NArith ZArith Lia.
From Stdlib Require DecimalString HexadecimalString DecimalPos.
Import ListNotations.

Set Implicit Arguments.
Open Scope N_scope.

(* ------------------------------------------------------------------ *)
(** * JavaScript strings *)
(* ------------------------------------------------------------------ *)

(** A JavaScript string is a sequence of UTF-16 code units;
    [s.charCodeAt(i)] is the [i]-th element. *)
Abbreviation cu := N (only parsing).
Abbreviation jsstring := (list N) (only parsing).

(** [js "..."] is the JavaScript string with the same (8-bit) characters. *)
Fixpoint js (s : string) : jsstring :=
  match s with
  | EmptyString => []
  | String a r => N_of_ascii a :: js r
  end.

Definition dquote : cu := 34.     (* U+0022 *)
Definition backslash : cu := 92.  (* U+005C *)
Definition LF : cu := 10.
Definition CR : cu := 13.
Definition TAB : cu := 9.

(** [jsq] is [js] with every backquote standing for U+0022, so that JSON
    texts can be written down as literals. *)
Definition jsq (s : string) : jsstring :=
  map (fun c => if c =? 96 then dquote else c) (js s).

Definition jsstring_eqb (a b : jsstring) : bool :=
  if list_eq_dec N.eq_dec a b then true else false.

(* ------------------------------------------------------------------ *)
(** * sanitizeJson (main.ts, lines 451-494) *)
(* ------------------------------------------------------------------ *)

Module Sanitize.

(** [n.toString(16)]: lower-case hexadecimal digits, most significant
    first. *)
Definition toString16 (n : N) : jsstring :=
  js (HexadecimalString.NilZero.string_of_uint (N.to_hex_uint n)).

(** [s.padStart(len, fill)] for a one-character [fill]. *)
Definition padStart (len : nat) (fill : cu) (s : jsstring) : jsstring :=
  repeat fill (len - length s) ++ s.

(** The text pushed for a control character met inside a string
    (the [switch] of lines 472-478). *)
Definition escapeControl (ch : cu) : jsstring :=
  if ch =? LF then js "\n"
  else if ch =? CR then js "\r"
  else if ch =? TAB then js "\t"
  else js "\u" ++ padStart 4 48 (toString16 ch).

(** The [while (i < raw.length)] loop.  [out] is the array of pieces,
    [out.push(x)] appends at its end.  One unit of [fuel] is spent per
    iteration; every iteration advances [i], so [raw.length] iterations are
    always enough. *)
Fixpoint sanitizeLoop (fuel : nat) (raw : jsstring) (i : nat)
         (inString : bool) (out : list jsstring) : list jsstring :=
  match fuel with
  | O => out
  | S fuel' =>
      match nth_error raw i with
      | None => out
      | Some ch =>
          if inString then
            if ch =? backslash then
              let out1 := out ++ [[ch]] in
              let i1 := S i in
              let out2 :=
                match nth_error raw i1 with
                | Some nxt => out1 ++ [[nxt]]
                | None => out1
                end in
              sanitizeLoop fuel' raw (S i1) true out2
            else if ch =? dquote then
              sanitizeLoop fuel' raw (S i) false (out ++ [[ch]])
            else if ch <? 32 then
              sanitizeLoop fuel' raw (S i) true (out ++ [escapeControl ch])
            else
              sanitizeLoop fuel' raw (S i) true (out ++ [[ch]])
          else
            sanitizeLoop fuel' raw (S i) (ch =? dquote) (out ++ [[ch]])
      end
  end.

(** [sanitizeJson(raw)]: run the loop from index 0 and join the pieces. *)
Definition sanitizeJson (raw : jsstring) : jsstring :=
  concat (sanitizeLoop (length raw) raw 0 false []).

(** ** The scan, one character at a time

    The position of the scan is [Outside] a string, [Inside] one, or
    [Escaped]: inside a string, on the character that follows a backslash. *)
Inductive scan := Outside | Inside | Escaped.

Definition scanStep (m : scan) (ch : cu) : jsstring * scan :=
  match m with
  | Outside => ([ch], if ch =? dquote then Inside else Outside)
  | Escaped => ([ch], Inside)
  | Inside =>
      if ch =? backslash then ([ch], Escaped)
      else if ch =? dquote then ([ch], Outside)
      else if ch <? 32 then (escapeControl ch, Inside)
      else ([ch], Inside)
  end.

Fixpoint scanFrom (m : scan) (s : jsstring) : jsstring :=
  match s with
  | [] => []
  | ch :: r => fst (scanStep m ch) ++ scanFrom (snd (scanStep m ch)) r
  end.

(** The scan position reached after reading [s]. *)
Fixpoint scanAfter (m : scan) (s : jsstring) : scan :=
  match s with
  | [] => m
  | ch :: r => scanAfter (snd (scanStep m ch)) r
  end.

Definition isHexDigit (c : cu) : bool :=
  ((48 <=? c) && (c <=? 57)) || ((97 <=? c) && (c <=? 102))
  || ((65 <=? c) && (c <=? 70)).

Definition hexValue (c : cu) : N :=
  if (48 <=? c) && (c <=? 57) then c - 48
  else if (97 <=? c) && (c <=? 102) then c - 87
  else c - 55.

(** The sanitizer as the specification words it: one rule per sentence. *)
Inductive Sanitizes : scan -> jsstring -> jsstring -> Prop :=
| San_done m :
    Sanitizes m [] []
| San_open r o :
    Sanitizes Inside r o ->
    Sanitizes Outside (dquote :: r) (dquote :: o)
| San_outside ch r o :
    ch <> dquote ->
    Sanitizes Outside r o ->
    Sanitizes Outside (ch :: r) (ch :: o)
| San_newline r o :
    Sanitizes Inside r o ->
    Sanitizes Inside (LF :: r) (backslash :: 110 :: o)
| San_return r o :
    Sanitizes Inside r o ->
    Sanitizes Inside (CR :: r) (backslash :: 114 :: o)
| San_tab r o :
    Sanitizes Inside r o ->
    Sanitizes Inside (TAB :: r) (backslash :: 116 :: o)
| San_control ch d1 d2 d3 d4 r o :
    ch < 32 -> ch <> LF -> ch <> CR -> ch <> TAB ->
    forallb isHexDigit [d1; d2; d3; d4] = true ->
    ((hexValue d1 * 16 + hexValue d2) * 16 + hexValue d3) * 16 + hexValue d4
      = ch ->
    Sanitizes Inside r o ->
    Sanitizes Inside (ch :: r) (backslash :: 117 :: d1 :: d2 :: d3 :: d4 :: o)
| San_backslash r o :
    Sanitizes Escaped r o ->
    Sanitizes Inside (backslash :: r) (backslash :: o)
| San_escaped ch r o :
    Sanitizes Inside r o ->
    Sanitizes Escaped (ch :: r) (ch :: o)
| San_close r o :
    Sanitizes Outside r o ->
    Sanitizes Inside (dquote :: r) (dquote :: o)
| San_plain ch r o :
    32 <= ch -> ch <> dquote -> ch <> backslash ->
    Sanitizes Inside r o ->
    Sanitizes Inside (ch :: r) (ch :: o).

(** No raw control character stands at a position of [s] that the scan
    inspects inside a string. *)
Fixpoint controlFree (m : scan) (s : jsstring) : bool :=
  match s with
  | [] => true
  | ch :: r =>
      match m with
      | Inside =>
          if (ch <? 32) then false else controlFree (snd (scanStep m ch)) r
      | _ => controlFree (snd (scanStep m ch)) r
      end
  end.

(** No raw control character anywhere between the quotes of a string of
    [s], the character after a backslash included. *)
Fixpoint controlFreeStrict (m : scan) (s : jsstring) : bool :=
  match s with
  | [] => true
  | ch :: r =>
      match m with
      | Outside => controlFreeStrict (snd (scanStep m ch)) r
      | _ => if (ch <? 32) then false
             else controlFreeStrict (snd (scanStep m ch)) r
      end
  end.

Definition scanOf (inString : bool) : scan :=
  if inString then Inside else Outside.

(** The generic escape of a control character: backslash, [u], and exactly
    four hexadecimal digits that spell its code. *)
Definition genericEscapeOk (ch : cu) : bool :=
  match js "\u" ++ padStart 4 48 (toString16 ch) with
  | [b; u; d1; d2; d3; d4] =>
      (b =? backslash) && (u =? 117) && forallb isHexDigit [d1; d2; d3; d4]
      && (((hexValue d1 * 16 + hexValue d2) * 16 + hexValue d3) * 16
          + hexValue d4 =? ch)
  | _ => false
  end.

Definition plainChar (c : cu) : bool :=
  negb (c <? 32) && negb (c =? dquote) && negb (c =? backslash).

(** Every escape the sanitizer writes is a backslash, one character, and
    then only plain characters. *)
Definition escapeShapeOk (ch : cu) : bool :=
  match escapeControl ch with
  | b :: _ :: l => (b =? backslash) && forallb plainChar l
  | _ => false
  end.

End Sanitize.

(* ------------------------------------------------------------------ *)
(** * String built-ins used by the plugin *)
(* ------------------------------------------------------------------ *)

Module JSString.

(** [s.indexOf(c)] for a one-character [c]: the index of its first
    occurrence, or -1. *)
Fixpoint indexOfFrom (c : cu) (s : jsstring) (i : Z) : Z :=
  match s with
  | [] => (-1)%Z
  | x :: r => if x =? c then i else indexOfFrom c r (i + 1)%Z
  end.

Definition indexOf (s : jsstring) (c : cu) : Z := indexOfFrom c s 0%Z.

(** [s.lastIndexOf(c)]: the index of the last occurrence, or -1. *)
Fixpoint lastIndexOfFrom (c : cu) (s : jsstring) (i found : Z) : Z :=
  match s with
  | [] => found
  | x :: r => lastIndexOfFrom c r (i + 1)%Z (if x =? c then i else found)
  end.

Definition lastIndexOf (s : jsstring) (c : cu) : Z :=
  lastIndexOfFrom c s 0%Z (-1)%Z.

(** [s.slice(start, end)]: negative indices count from the end, both are
    clamped to the string, and an empty range gives the empty string. *)
Definition clampIndex (len k : Z) : Z :=
  if (k <? 0)%Z then Z.max (len + k) 0 else Z.min k len.

Definition slice (s : jsstring) (a b : Z) : jsstring :=
  let len := Z.of_nat (length s) in
  let from := clampIndex len a in
  let to := clampIndex len b in
  firstn (Z.to_nat (to - from)) (skipn (Z.to_nat from) s).

(** [s.slice(start)]. *)
Definition sliceFrom (s : jsstring) (a : Z) : jsstring :=
  slice s a (Z.of_nat (length s)).

(** [s.startsWith(p)]. *)
Fixpoint startsWith (s p : jsstring) : bool :=
  match p, s with
  | [], _ => true
  | c :: p', x :: s' => (x =? c) && startsWith s' p'
  | _ :: _, [] => false
  end.

(** White space and line terminators: what [\s] matches and what [trim]
    removes. *)
Definition isWhiteSpace (c : cu) : bool :=
  ((9 <=? c) && (c <=? 13)) || (c =? 32) || (c =? 160) || (c =? 5760)
  || ((8192 <=? c) && (c <=? 8202)) || (c =? 8232) || (c =? 8233)
  || (c =? 8239) || (c =? 8287) || (c =? 12288) || (c =? 65279).

Fixpoint trimStart (s : jsstring) : jsstring :=
  match s with
  | [] => []
  | c :: r => if isWhiteSpace c then trimStart r else s
  end.

Definition trimEnd (s : jsstring) : jsstring := rev (trimStart (rev s)).

Definition trim (s : jsstring) : jsstring := trimEnd (trimStart s).

(** [s.replace(/\s+/g, "-")]: every maximal run of white space becomes one
    hyphen.  [inRun] tells that the previous character was white space. *)
Fixpoint replaceSpaceRuns (inRun : bool) (s : jsstring) : jsstring :=
  match s with
  | [] => []
  | c :: r =>
      if isWhiteSpace c
      then (if inRun then replaceSpaceRuns true r
            else 45 :: replaceSpaceRuns true r)
      else c :: replaceSpaceRuns false r
  end.

(** [s.replace(/\.md$/, empty)]: drop a final [.md]. *)
Definition stripMd (s : jsstring) : jsstring :=
  let n := length s in
  if (3 <=? n)%nat && jsstring_eqb (skipn (n - 3) s) (js ".md")
  then firstn (n - 3) s
  else s.

(** [s.split(sep)] for a one-character separator. *)
Fixpoint split (sep : cu) (s : jsstring) : list jsstring :=
  match s with
  | [] => [[]]
  | c :: r =>
      if c =? sep then [] :: split sep r
      else match split sep r with
           | seg :: segs => (c :: seg) :: segs
           | [] => [[c]]
           end
  end.

(** [a.pop()]: the last element, [undefined] on an empty array. *)
Definition pop (A : Type) (l : list A) : option A :=
  last (map Some l) None.

(** The decimal text of an integer, as a template literal prints it. *)
Definition numberToString (z : Z) : jsstring :=
  js (DecimalString.NilZero.string_of_int (Z.to_int z)).

(** [toLowerCase] restricted to Basic Latin; on strings of code units below
    128 it is [String.prototype.toLowerCase]. *)
Definition asciiLower (c : cu) : cu :=
  if (65 <=? c) && (c <=? 90) then c + 32 else c.

Definition asciiToLowerCase (s : jsstring) : jsstring := map asciiLower s.

End JSString.

(* ------------------------------------------------------------------ *)
(** * JSON.parse *)
(* ------------------------------------------------------------------ *)

(** The built-in [JSON.parse], after the JSON grammar (ECMA-404): a lexer
    that reads one code unit at a time, and a parser with an explicit stack
    over its tokens.  Both recurse on their input only, so parsing is
    total: [None] always stands for the [SyntaxError] that [JSON.parse]
    throws.

    The lexer takes a flag [lenient].  With [lenient = false] it is the
    JSON grammar; with [lenient = true] a string may also hold raw control
    characters (code units below 0x20), which then stand for themselves:
    this is the language of texts that are valid JSON except for literal
    control characters inside string values. *)

Module JSON.

(** A number is kept as the exact decimal it is written as:
    (-1)^negative * mantissa * 10^exponent. *)
Record number := { negative : bool; mantissa : N; exponent : Z }.

#[warnings="-register-all"]
Inductive json :=
| JNull
| JBool (b : bool)
| JNumber (n : number)
| JString (s : jsstring)
| JArray (elems : list json)
| JObject (members : list (jsstring * json)).

Inductive token :=
| TLBracket | TRBracket | TLBrace | TRBrace | TComma | TColon
| TStr (s : jsstring)
| TNum (n : number)
| TTrue | TFalse | TNull.

(** ** Lexer *)

Inductive numPhase :=
| NMinus      (* after the sign *)
| NZero       (* after a leading 0 *)
| NInt        (* in the integer digits *)
| NDot        (* after the point *)
| NFrac       (* in the fraction digits *)
| NExp        (* after e or E *)
| NExpSign    (* after the sign of the exponent *)
| NExpDigits. (* in the exponent digits *)

Record numAcc := {
  accNeg : bool; accMant : N; accFrac : N; accExpNeg : bool; accExp : N }.

Definition numAcc0 (neg : bool) (d : N) : numAcc :=
  {| accNeg := neg; accMant := d; accFrac := 0;
     accExpNeg := false; accExp := 0 |}.

Definition isDigit (c : cu) : bool := (48 <=? c) && (c <=? 57).
Definition digitVal (c : cu) : N := c - 48.
Definition isE (c : cu) : bool := (c =? 101) || (c =? 69).

Definition pushInt (a : numAcc) (c : cu) : numAcc :=
  {| accNeg := accNeg a; accMant := accMant a * 10 + digitVal c;
     accFrac := accFrac a; accExpNeg := accExpNeg a; accExp := accExp a |}.

Definition pushFrac (a : numAcc) (c : cu) : numAcc :=
  {| accNeg := accNeg a; accMant := accMant a * 10 + digitVal c;
     accFrac := accFrac a + 1; accExpNeg := accExpNeg a;
     accExp := accExp a |}.

Definition pushExp (a : numAcc) (c : cu) : numAcc :=
  {| accNeg := accNeg a; accMant := accMant a; accFrac := accFrac a;
     accExpNeg := accExpNeg a; accExp := accExp a * 10 + digitVal c |}.

Definition setExpNeg (a : numAcc) : numAcc :=
  {| accNeg := accNeg a; accMant := accMant a; accFrac := accFrac a;
     accExpNeg := true; accExp := accExp a |}.

Definition numAccepting (ph : numPhase) : bool :=
  match ph with
  | NZero | NInt | NFrac | NExpDigits => true
  | _ => false
  end.

Definition numValue (a : numAcc) : number :=
  {| negative := accNeg a;
     mantissa := accMant a;
     exponent := ((if accExpNeg a then - Z.of_N (accExp a)
                   else Z.of_N (accExp a)) - Z.of_N (accFrac a))%Z |}.

(** One more character of a number, or [None] when [c] does not continue
    it. *)
Definition numStep (ph : numPhase) (a : numAcc) (c : cu)
  : option (numPhase * numAcc) :=
  match ph with
  | NMinus =>
      if c =? 48 then Some (NZero, a)
      else if isDigit c then Some (NInt, pushInt a c)
      else None
  | NZero =>
      if c =? 46 then Some (NDot, a)
      else if isE c then Some (NExp, a)
      else None
  | NInt =>
      if isDigit c then Some (NInt, pushInt a c)
      else if c =? 46 then Some (NDot, a)
      else if isE c then Some (NExp, a)
      else None
  | NDot =>
      if isDigit c then Some (NFrac, pushFrac a c) else None
  | NFrac =>
      if isDigit c then Some (NFrac, pushFrac a c)
      else if isE c then Some (NExp, a)
      else None
  | NExp =>
      if c =? 43 then Some (NExpSign, a)
      else if c =? 45 then Some (NExpSign, setExpNeg a)
      else if isDigit c then Some (NExpDigits, pushExp a c)
      else None
  | NExpSign =>
      if isDigit c then Some (NExpDigits, pushExp a c) else None
  | NExpDigits =>
      if isDigit c then Some (NExpDigits, pushExp a c) else None
  end.

Inductive lexState :=
| LStart
| LString (acc : jsstring)                      (* content so far, reversed *)
| LEscape (acc : jsstring)                      (* after a backslash *)
| LUnicode (acc : jsstring) (count : nat) (val : N)  (* in the digits of \u *)
| LNumber (ph : numPhase) (a : numAcc)
| LLiteral (rest : jsstring) (t : token).       (* in true, false or null *)

Definition isJsonSpace (c : cu) : bool :=
  (c =? 32) || (c =? 9) || (c =? 10) || (c =? 13).

(** The first character of a token. *)
Definition startStep (c : cu) : option (list token * lexState) :=
  if isJsonSpace c then Some ([], LStart)
  else if c =? 91 then Some ([TLBracket], LStart)
  else if c =? 93 then Some ([TRBracket], LStart)
  else if c =? 123 then Some ([TLBrace], LStart)
  else if c =? 125 then Some ([TRBrace], LStart)
  else if c =? 44 then Some ([TComma], LStart)
  else if c =? 58 then Some ([TColon], LStart)
  else if c =? dquote then Some ([], LString [])
  else if c =? 45 then Some ([], LNumber NMinus (numAcc0 true 0))
  else if c =? 48 then Some ([], LNumber NZero (numAcc0 false 0))
  else if isDigit c then Some ([], LNumber NInt (numAcc0 false (digitVal c)))
  else if c =? 116 then Some ([], LLiteral (js "rue") TTrue)
  else if c =? 102 then Some ([], LLiteral (js "alse") TFalse)
  else if c =? 110 then Some ([], LLiteral (js "ull") TNull)
  else None.

(** The character an escape letter stands for. *)
Definition escapeChar (c : cu) : option cu :=
  if c =? 34 then Some 34
  else if c =? 92 then Some 92
  else if c =? 47 then Some 47
  else if c =? 98 then Some 8
  else if c =? 102 then Some 12
  else if c =? 110 then Some 10
  else if c =? 114 then Some 13
  else if c =? 116 then Some 9
  else None.

Definition lexStep (lenient : bool) (st : lexState) (c : cu)
  : option (list token * lexState) :=
  match st with
  | LStart => startStep c
  | LString acc =>
      if c =? dquote then Some ([TStr (rev acc)], LStart)
      else if c =? backslash then Some ([], LEscape acc)
      else if (c <? 32) && negb lenient then None
      else Some ([], LString (c :: acc))
  | LEscape acc =>
      if c =? 117 then Some ([], LUnicode acc 0 0)
      else match escapeChar c with
           | Some x => Some ([], LString (x :: acc))
           | None => None
           end
  | LUnicode acc count val =>
      if Sanitize.isHexDigit c then
        let v := val * 16 + Sanitize.hexValue c in
        if (count =? 3)%nat then Some ([], LString (v :: acc))
        else Some ([], LUnicode acc (S count) v)
      else None
  | LNumber ph a =>
      match numStep ph a c with
      | Some (ph', a') => Some ([], LNumber ph' a')
      | None =>
          if numAccepting ph then
            match startStep c with
            | Some (ts, st') => Some (TNum (numValue a) :: ts, st')
            | None => None
            end
          else None
      end
  | LLiteral rest t =>
      match rest with
      | [] => None
      | e :: rest' =>
          if c =? e then
            match rest' with
            | [] => Some ([t], LStart)
            | _ :: _ => Some ([], LLiteral rest' t)
            end
          else None
      end
  end.

(** At the end of the text only a complete token may be pending. *)
Definition lexEnd (st : lexState) : option (list token) :=
  match st with
  | LStart => Some []
  | LNumber ph a => if numAccepting ph then Some [TNum (numValue a)] else None
  | _ => None
  end.

Fixpoint lexFrom (lenient : bool) (st : lexState) (s : jsstring)
  : option (list token) :=
  match s with
  | [] => lexEnd st
  | c :: r =>
      match lexStep lenient st c with
      | None => None
      | Some (ts, st') =>
          match lexFrom lenient st' r with
          | None => None
          | Some ts' => Some (ts ++ ts')
          end
      end
  end.

(** ** Parser *)

(** An enclosing structure whose next value is being read. *)
Inductive frame :=
| FArr (elems : list json)                        (* elements, last first *)
| FObj (members : list (jsstring * json)) (key : jsstring).

Inductive pstate :=
| EValue                                          (* a value comes next *)
| EArrFirst                                       (* after [ *)
| EArrNext (elems : list json)                    (* after an element *)
| EObjFirst                                       (* after { *)
| EObjKey (members : list (jsstring * json))      (* after , in an object *)
| EColon (members : list (jsstring * json)) (key : jsstring)
| EObjNext (members : list (jsstring * json))     (* after a member *)
| EDone (v : json).                               (* the text is complete *)

(** A value is complete: hand it to the enclosing structure. *)
Definition complete (stack : list frame) (v : json) : list frame * pstate :=
  match stack with
  | [] => ([], EDone v)
  | FArr elems :: stack' => (stack', EArrNext (v :: elems))
  | FObj members key :: stack' => (stack', EObjNext ((key, v) :: members))
  end.

(** A token where a value is expected. *)
Definition valueStep (stack : list frame) (t : token)
  : option (list frame * pstate) :=
  match t with
  | TNull => Some (complete stack JNull)
  | TTrue => Some (complete stack (JBool true))
  | TFalse => Some (complete stack (JBool false))
  | TNum n => Some (complete stack (JNumber n))
  | TStr s => Some (complete stack (JString s))
  | TLBracket => Some (stack, EArrFirst)
  | TLBrace => Some (stack, EObjFirst)
  | _ => None
  end.

Definition parseStep (stack : list frame) (st : pstate) (t : token)
  : option (list frame * pstate) :=
  match st with
  | EValue => valueStep stack t
  | EArrFirst =>
      match t with
      | TRBracket => Some (complete stack (JArray []))
      | _ => valueStep (FArr [] :: stack) t
      end
  | EArrNext elems =>
      match t with
      | TComma => Some (FArr elems :: stack, EValue)
      | TRBracket => Some (complete stack (JArray (rev elems)))
      | _ => None
      end
  | EObjFirst =>
      match t with
      | TRBrace => Some (complete stack (JObject []))
      | TStr k => Some (stack, EColon [] k)
      | _ => None
      end
  | EObjKey members =>
      match t with
      | TStr k => Some (stack, EColon members k)
      | _ => None
      end
  | EColon members key =>
      match t with
      | TColon => Some (FObj members key :: stack, EValue)
      | _ => None
      end
  | EObjNext members =>
      match t with
      | TComma => Some (stack, EObjKey members)
      | TRBrace => Some (complete stack (JObject (rev members)))
      | _ => None
      end
  | EDone _ => None
  end.

Fixpoint parseTokens (stack : list frame) (st : pstate) (ts : list token)
  : option json :=
  match ts with
  | [] => match st, stack with
          | EDone v, [] => Some v
          | _, _ => None
          end
  | t :: r =>
      match parseStep stack st t with
      | None => None
      | Some (stack', st') => parseTokens stack' st' r
      end
  end.

Definition parseWith (lenient : bool) (text : jsstring) : option json :=
  match lexFrom lenient LStart text with
  | None => None
  | Some ts => parseTokens [] EValue ts
  end.

(** [JSON.parse(text)]; [None] when it throws. *)
Definition parse (text : jsstring) : option json := parseWith false text.

(** The reading of a text that is valid JSON except for literal control
    characters inside its strings. *)
Definition parseLenient (text : jsstring) : option json :=
  parseWith true text.

(** ** Values at run time *)

(** [Array.isArray(v)]. *)
Definition isArray (v : json) : bool :=
  match v with JArray _ => true | _ => false end.

Definition isString (v : option json) : bool :=
  match v with Some (JString _) => true | _ => false end.

(** Own property [k] of an object made by [JSON.parse]: the last member
    with that key wins.  [None] is [undefined]. *)
Fixpoint lookup (k : jsstring) (members : list (jsstring * json))
  : option json :=
  match members with
  | [] => None
  | (k', v) :: r =>
      match lookup k r with
      | Some w => Some w
      | None => if jsstring_eqb k' k then Some v else None
      end
  end.

(** [v.k] for a value [v] that is not [null]: only objects carry the
    properties read by the plugin. *)
Definition getProp (v : json) (k : jsstring) : option json :=
  match v with
  | JObject members => lookup k members
  | _ => None
  end.

(** The double nearest to a number is zero: the number is zero, or its
    magnitude is at most 2^-1075, half of the least positive double. *)
Definition roundsToZero (n : number) : bool :=
  (mantissa n =? 0)
  || ((exponent n <? 0)%Z
      && (mantissa n * 2 ^ 1075 <=? 10 ^ Z.to_N (- exponent n))).

(** Truthiness ([None] is [undefined]). *)
Definition truthy (v : option json) : bool :=
  match v with
  | None => false
  | Some JNull => false
  | Some (JBool b) => b
  | Some (JNumber n) => negb (roundsToZero n)
  | Some (JString s) => negb (jsstring_eqb s [])
  | Some (JArray _) => true
  | Some (JObject _) => true
  end.

(** [a || b]. *)
Definition orElse (a b : option json) : option json :=
  if truthy a then a else b.

End JSON.

(* ------------------------------------------------------------------ *)
(** * Escaping by hand *)
(* ------------------------------------------------------------------ *)

Module Escaping.
Import Sanitize JSON.

(** [esc] is a correct JSON escape of the code unit [c]: a two-character
    escape, or [\u] and four hexadecimal digits of either case. *)
Inductive EscapeOf (c : cu) : jsstring -> Prop :=
| Esc_short x :
    escapeChar x = Some c -> EscapeOf c [backslash; x]
| Esc_unicode d1 d2 d3 d4 :
    forallb isHexDigit [d1; d2; d3; d4] = true ->
    ((hexValue d1 * 16 + hexValue d2) * 16 + hexValue d3) * 16 + hexValue d4
      = c ->
    EscapeOf c [backslash; 117; d1; d2; d3; d4].

(** [ManuallyEscaped m raw escaped]: [escaped] is [raw] in which every
    control character that stands raw inside a string is replaced by a
    correct escape of it, and nothing else is changed. *)
Inductive ManuallyEscaped : scan -> jsstring -> jsstring -> Prop :=
| ME_done m :
    ManuallyEscaped m [] []
| ME_control c esc r o :
    c < 32 -> EscapeOf c esc ->
    ManuallyEscaped Inside r o ->
    ManuallyEscaped Inside (c :: r) (esc ++ o)
| ME_copy m c r o :
    (m = Inside -> 32 <= c) ->
    ManuallyEscaped (snd (scanStep m c)) r o ->
    ManuallyEscaped m (c :: r) (c :: o).

(** Every character of [w] is one that escaping by hand copies: none is
    a control character standing raw inside a string. *)
Fixpoint copied (m : scan) (w : jsstring) : bool :=
  match w with
  | [] => true
  | c :: r =>
      match m with
      | Inside => negb (c <? 32) && copied (snd (scanStep m c)) r
      | _ => copied (snd (scanStep m c)) r
      end
  end.

(** Where the sanitizer's scan stands when the lexer is in a state. *)
Definition modeOf (st : lexState) : scan :=
  match st with
  | LString _ | LUnicode _ _ _ => Inside
  | LEscape _ => Escaped
  | LStart | LNumber _ _ | LLiteral _ _ => Outside
  end.

(** The rest of a literal never holds a quote. *)
Definition wfState (st : lexState) : Prop :=
  match st with
  | LLiteral rest _ => ~ In dquote rest
  | _ => True
  end.

(** The outermost structure being parsed is an array. *)
Definition bottomFrame (stack : list frame) : option frame :=
  last (map Some stack) None.

Definition bottomIsArr (stack : list frame) : bool :=
  match bottomFrame stack with
  | Some (FArr _) => true
  | _ => false
  end.

Definition outerArray (stack : list frame) (st : pstate) : bool :=
  match bottomFrame stack with
  | Some (FArr _) => true
  | Some (FObj _ _) => false
  | None =>
      match st with
      | EArrFirst | EArrNext _ | EDone (JArray _) => true
      | _ => false
      end
  end.

End Escaping.

(* ------------------------------------------------------------------ *)
(** * Path helpers and the reconciler (main.ts, lines 391-442) *)
(* ------------------------------------------------------------------ *)

Module Paths.
Import JSString.

(** [cleanFilePath(rawPath)], with the configured collection name. *)
Definition cleanFilePath (collection rawPath : jsstring) : jsstring :=
  let qmdPrefix := js "qmd://" ++ collection ++ js "/" in
  if startsWith rawPath qmdPrefix then
    sliceFrom rawPath (Z.of_nat (length qmdPrefix))
  else
    let colPrefix := collection ++ js "/" in
    if startsWith rawPath colPrefix then
      sliceFrom rawPath (Z.of_nat (length colPrefix))
    else rawPath.

(** The bare name: the last segment of [cleanPath.split("/")] without a
    final [.md]; the empty string when that is empty. *)
Definition bareName (cleanPath : jsstring) : jsstring :=
  match pop (split 47 cleanPath) with
  | Some seg => stripMd seg
  | None => []
  end.

(** An entry of [app.vault.getMarkdownFiles()]. *)
Record TFile := { path : jsstring; basename : jsstring }.

(** [for (const file of allFiles) if (test(file)) return { path: file.path }]:
    the path of the first file passing the test, [None] when the loop runs
    out. *)
Fixpoint firstFile (test : TFile -> bool) (allFiles : list TFile)
  : option jsstring :=
  match allFiles with
  | [] => None
  | file :: rest => if test file then Some (path file) else firstFile test rest
  end.

Section Reconciler.

(** [String.prototype.toLowerCase]: its Unicode case table is not part of
    the program, so the reconciler is stated for any such function. *)
Variable toLowerCase : jsstring -> jsstring.

(** [normalizeForMatch(s)]. *)
Definition normalizeForMatch (s : jsstring) : jsstring :=
  replaceSpaceRuns false (toLowerCase s).

Definition baseNameMatches (qmdFilename : jsstring) (file : TFile) : bool :=
  jsstring_eqb (normalizeForMatch (basename file)) qmdFilename.

Definition fullPathMatches (qmdFullNorm : jsstring) (file : TFile) : bool :=
  jsstring_eqb (normalizeForMatch (stripMd (path file))) qmdFullNorm.

(** [resolveVaultFile(qmdPath)]; [None] is [null]. *)
Definition resolveVaultFile (collection : jsstring) (allFiles : list TFile)
           (qmdPath : jsstring) : option jsstring :=
  let cleanPath := cleanFilePath collection qmdPath in
  let qmdFilename := normalizeForMatch (bareName cleanPath) in
  if jsstring_eqb qmdFilename [] then None
  else
    match firstFile (baseNameMatches qmdFilename) allFiles with
    | Some p => Some p
    | None =>
        let qmdFullNorm := normalizeForMatch (stripMd cleanPath) in
        firstFile (fullPathMatches qmdFullNorm) allFiles
    end.

(** The normalized bare name and the normalized cleaned reference of a
    raw reference. *)
Definition qmdFilenameOf (collection raw : jsstring) : jsstring :=
  normalizeForMatch (bareName (cleanFilePath collection raw)).

Definition qmdFullNormOf (collection raw : jsstring) : jsstring :=
  normalizeForMatch (stripMd (cleanFilePath collection raw)).

(** The entry's normalized base name equals the normalized bare name. *)
Definition BaseNameEq (collection raw : jsstring) (f : TFile) : Prop :=
  normalizeForMatch (basename f) = qmdFilenameOf collection raw.

(** The entry's normalized full path, minus [.md], equals the normalized
    cleaned reference, minus [.md]. *)
Definition FullPathEq (collection raw : jsstring) (f : TFile) : Prop :=
  normalizeForMatch (stripMd (path f)) = qmdFullNormOf collection raw.

End Reconciler.

(** The first entry of [files] that satisfies [P]. *)
Definition FirstWith (P : TFile -> Prop) (files : list TFile) (f : TFile)
  : Prop :=
  exists before after,
    files = before ++ f :: after /\ P f /\ Forall (fun g => ~ P g) before.

End Paths.

(* ------------------------------------------------------------------ *)
(** * The search modal (main.ts, lines 86-360) *)
(* ------------------------------------------------------------------ *)

Module Session.
Import JSString JSON Paths.

Record QmdSearchSettings := {
  qmdPath : jsstring;
  collection : jsstring;
  resultCount : Z;
  extraPath : jsstring;
  debugLogging : bool }.

Definition DEFAULT_SETTINGS : QmdSearchSettings :=
  {| qmdPath := js "qmd"; collection := js "obsidian"; resultCount := 16;
     extraPath := []; debugLogging := false |}.

(** What the status region shows. [StatusHidden] is
    [statusEl.style.display = "none"]. *)
Inductive Status :=
| StatusHidden
| StatusSearching
| StatusEmpty
| StatusError (text : jsstring).

(** A row of the results region.  A complete row carries its two listeners:
    a click opens [item], the mouse entering selects index [i].  A partial
    row is what an exception in the middle of [renderResults] leaves
    behind; it has no listeners.  The texts written into a row are not
    part of the model, only the exceptions their computation can raise. *)
Inductive RowEl :=
| RowComplete (i : nat) (item : json)
| RowPartial.

(** The [AbortController] made by the [k]-th call of [runSearch] together
    with the child process spawned by that call.  The controller's only
    [abort] listener kills that child. *)
Record Invocation := {
  invQuery : jsstring;
  signalAborted : bool;   (* controller.signal.aborted *)
  childKilled : bool;     (* child.kill() was called *)
  childClosed : bool }.   (* the child's [close] event was delivered *)

Record Modal := {
  results : list json;
  selectedIndex : Z;
  statusEl : Status;
  resultsEl : list RowEl;
  abortController : option nat;     (* [null], or a reference into the heap *)
  invocations : list Invocation;    (* the heap of controllers and children *)
  isOpen : bool }.

(** The modal just after [onOpen]. *)
Definition opened : Modal :=
  {| results := []; selectedIndex := -1; statusEl := StatusHidden;
     resultsEl := []; abortController := None; invocations := [];
     isOpen := true |}.

Definition setResults (v : list json) (m : Modal) : Modal :=
  {| results := v; selectedIndex := selectedIndex m; statusEl := statusEl m;
     resultsEl := resultsEl m; abortController := abortController m;
     invocations := invocations m; isOpen := isOpen m |}.

Definition setSelectedIndex (v : Z) (m : Modal) : Modal :=
  {| results := results m; selectedIndex := v; statusEl := statusEl m;
     resultsEl := resultsEl m; abortController := abortController m;
     invocations := invocations m; isOpen := isOpen m |}.

Definition setStatusEl (v : Status) (m : Modal) : Modal :=
  {| results := results m; selectedIndex := selectedIndex m; statusEl := v;
     resultsEl := resultsEl m; abortController := abortController m;
     invocations := invocations m; isOpen := isOpen m |}.

Definition setResultsEl (v : list RowEl) (m : Modal) : Modal :=
  {| results := results m; selectedIndex := selectedIndex m;
     statusEl := statusEl m; resultsEl := v;
     abortController := abortController m;
     invocations := invocations m; isOpen := isOpen m |}.

Definition setAbortController (v : option nat) (m : Modal) : Modal :=
  {| results := results m; selectedIndex := selectedIndex m;
     statusEl := statusEl m; resultsEl := resultsEl m; abortController := v;
     invocations := invocations m; isOpen := isOpen m |}.

Definition setInvocations (v : list Invocation) (m : Modal) : Modal :=
  {| results := results m; selectedIndex := selectedIndex m;
     statusEl := statusEl m; resultsEl := resultsEl m;
     abortController := abortController m; invocations := v;
     isOpen := isOpen m |}.

Definition setIsOpen (v : bool) (m : Modal) : Modal :=
  {| results := results m; selectedIndex := selectedIndex m;
     statusEl := statusEl m; resultsEl := resultsEl m;
     abortController := abortController m; invocations := invocations m;
     isOpen := v |}.

(** Update of the heap at one reference. *)
Fixpoint updateAt (k : nat) (f : Invocation -> Invocation)
         (l : list Invocation) : list Invocation :=
  match l, k with
  | [], _ => []
  | x :: r, O => f x :: r
  | x :: r, S k' => x :: updateAt k' f r
  end.

(** [controller.abort()]: the signal becomes aborted and its listener
    kills the child. *)
Definition abortInvocation (i : Invocation) : Invocation :=
  {| invQuery := invQuery i; signalAborted := true; childKilled := true;
     childClosed := childClosed i |}.

Definition markClosed (i : Invocation) : Invocation :=
  {| invQuery := invQuery i; signalAborted := signalAborted i;
     childKilled := childKilled i; childClosed := true |}.

(** [this.abortController?.abort()]. *)
Definition abortCurrent (m : Modal) : Modal :=
  match abortController m with
  | None => m
  | Some k => setInvocations (updateAt k abortInvocation (invocations m)) m
  end.

(** [this.abortController?.signal.aborted]: read through the field of the
    modal at the time of the call; [undefined], which is falsy, when the
    field is [null]. *)
Definition currentSignalAborted (m : Modal) : bool :=
  match abortController m with
  | None => false
  | Some k =>
      match nth_error (invocations m) k with
      | Some i => signalAborted i
      | None => false
      end
  end.

(** [showStatus(state, errorMsg)]. *)
Definition showSearching (m : Modal) : Modal := setStatusEl StatusSearching m.
Definition showEmpty (m : Modal) : Modal := setStatusEl StatusEmpty m.
Definition showError (errorMsg : jsstring) (m : Modal) : Modal :=
  setStatusEl
    (StatusError (if jsstring_eqb errorMsg [] then js "An error occurred."
                  else errorMsg)) m.

(** ** renderResults *)

(** [ToPrimitive] throws on an object made by [JSON.parse] exactly when
    the object has an own (hence not callable) [toString]; an array
    converts through [join], which converts its elements. *)
Fixpoint toPrimitiveThrows (v : json) : bool :=
  match v with
  | JObject members =>
      match lookup (js "toString") members with
      | Some _ => true
      | None => false
      end
  | JArray elems =>
      (fix any (l : list json) : bool :=
         match l with
         | [] => false
         | x :: r => toPrimitiveThrows x || any r
         end) elems
  | _ => false
  end.

(** Exceptions: [None] is a thrown [TypeError]. *)
Definition andThen (A B : Type) (x : option A) (k : A -> option B)
  : option B :=
  match x with
  | Some a => k a
  | None => None
  end.

Notation "x <- e ;; k" := (andThen e (fun x => k))
  (at level 61, e at next level, right associativity).

(** A method of [String.prototype] called on a value that came out of
    [JSON.parse]: a [TypeError] unless the value is a string. *)
Definition asString (v : option json) : option jsstring :=
  match v with
  | Some (JString s) => Some s
  | _ => None
  end.

(** [this.cleanFilePath(item.file)]: [rawPath.startsWith] throws unless
    [item.file] is a string. *)
Definition callCleanFilePath (collection : jsstring) (file : option json)
  : option jsstring :=
  rawPath <- asString file ;;
  Some (cleanFilePath collection rawPath).

(** [this.fileDisplayName(item.file)]. *)
Definition callFileDisplayName (collection : jsstring) (file : option json)
  : option jsstring :=
  clean <- callCleanFilePath collection file ;;
  let filename :=
    match pop (split 47 clean) with
    | Some [] | None => clean
    | Some seg => seg
    end in
  Some (stripMd filename).

(** [(item.score * 100).toFixed(0)]: the product throws only when the
    conversion of [item.score] to a primitive does.  The digits are
    floating point and left out. *)
Definition callScore (score : option json) : option unit :=
  match score with
  | Some v => if toPrimitiveThrows v then None else Some tt
  | None => Some tt
  end.

(** [this.cleanSnippet(raw)]: [raw.replace] throws unless [raw] is a
    string.  The cleaned text is left out. *)
Definition callCleanSnippet (raw : option json) : option unit :=
  _ <- asString raw ;; Some tt.

(** The body of the [for] loop for one item, up to the two
    [addEventListener] calls. *)
Definition renderRow (collection : jsstring) (i : nat) (item : json)
  : option RowEl :=
  match item with
  | JNull => None                                      (* item.title *)
  | _ =>
      _ <- (if truthy (getProp item (js "title")) then Some []
            else callFileDisplayName collection (getProp item (js "file"))) ;;
      _ <- callScore (getProp item (js "score")) ;;
      _ <- callCleanFilePath collection (getProp item (js "file")) ;;
      _ <- callCleanSnippet
             (orElse (orElse (getProp item (js "snippet"))
                             (getProp item (js "context")))
                     (Some (JString []))) ;;
      Some (RowComplete i item)
  end.

(** The [for] loop of [renderResults] from index [i] on: the rows in the
    region afterwards, and whether the loop was left by an exception. *)
Fixpoint renderLoop (collection : jsstring) (i : nat) (items : list json)
         (rows : list RowEl) : list RowEl * bool :=
  match items with
  | [] => (rows, false)
  | item :: rest =>
      match renderRow collection i item with
      | None => (rows ++ [RowPartial], true)
      | Some row => renderLoop collection (S i) rest (rows ++ [row])
      end
  end.

(** [renderResults(items)]: empty the region, then run the loop. *)
Definition renderResults (collection : jsstring) (items : list json)
           (m : Modal) : Modal * bool :=
  let (rows, threw) := renderLoop collection 0 items [] in
  (setResultsEl rows m, threw).

(** ** runSearch and the handlers of the child process *)

(** What [runSearch(query)] does before it returns: cancel, reset, spawn.
    The new controller and child take the next free reference. *)
Definition runSearch (query : jsstring) (m : Modal) : Modal :=
  if jsstring_eqb query [] then m
  else
    let m1 := abortCurrent m in
    let k := length (invocations m1) in
    let m2 := setAbortController (Some k) m1 in
    let m3 := setResults [] m2 in
    let m4 := setSelectedIndex (-1) m3 in
    let m5 := setResultsEl [] m4 in
    let m6 := showSearching m5 in
    setInvocations
      (invocations m6 ++
         [{| invQuery := query; signalAborted := false;
             childKilled := false; childClosed := false |}]) m6.

(** [child.on("error", ...)]. *)
Definition childError (message : jsstring) (m : Modal) : Modal :=
  if currentSignalAborted m then m
  else showError message m.

(** Lines 246-255: the text from the first [[] to the last []], [None]
    when either is missing. *)
Definition locateArray (stdout : jsstring) : option jsstring :=
  let jsonStart := indexOf stdout 91 in
  let jsonEnd := lastIndexOf stdout 93 in
  if (jsonStart =? -1)%Z || (jsonEnd =? -1)%Z then None
  else Some (slice stdout jsonStart (jsonEnd + 1)%Z).

Definition parseFailureMessage (settings : QmdSearchSettings) : jsstring :=
  js "Failed to parse QMD output." ++
  (if debugLogging settings then js " Check console for details."
   else js " Enable debug logging in settings for details.").

(** [Array.isArray(parsed) ? parsed : []]. *)
Definition itemsOf (parsed : json) : list json :=
  match parsed with
  | JArray elems => elems
  | _ => []
  end.

(** Lines 261-269, inside the [try]: store the items and show them.  The
    boolean tells that an exception left the block. *)
Definition showParsed (settings : QmdSearchSettings) (parsed : json)
           (m : Modal) : Modal * bool :=
  let items := itemsOf parsed in
  let m1 := setResults items m in
  if (length items =? 0)%nat then (showEmpty m1, false)
  else renderResults (collection settings) items (setStatusEl StatusHidden m1).

(** The [try] block of the [close] handler with its [catch]. *)
Definition recover (settings : QmdSearchSettings) (stdout : jsstring)
           (m : Modal) : Modal :=
  match locateArray stdout with
  | None => showEmpty m
  | Some jsonStr =>
      match JSON.parse (Sanitize.sanitizeJson jsonStr) with
      | None => showError (parseFailureMessage settings) m
      | Some parsed =>
          let (m1, threw) := showParsed settings parsed m in
          if threw then showError (parseFailureMessage settings) m1 else m1
      end
  end.

(** [child.on("close", ...)]; [code] is [None] for [null]. *)
Definition childClose (settings : QmdSearchSettings) (code : option Z)
           (stdout stderr : jsstring) (m : Modal) : Modal :=
  if currentSignalAborted m then m
  else
    match code with
    | Some c =>
        if negb (c =? 0)%Z then
          let trimmed := trim stderr in
          let msg := if jsstring_eqb trimmed []
                     then js "QMD exited with code " ++ numberToString c
                     else trimmed in
          showError msg m
        else recover settings stdout m
    | None => recover settings stdout m
    end.

(** ** Navigation and the input handlers *)

(** [moveSelection(delta)]. *)
Definition moveSelection (delta : Z) (m : Modal) : Modal :=
  let len := Z.of_nat (length (results m)) in
  if (len =? 0)%Z then m
  else if (selectedIndex m <? 0)%Z then
    setSelectedIndex (if (delta >? 0)%Z then 0 else len - 1)%Z m
  else
    let s1 := (selectedIndex m + delta)%Z in
    let s2 := if (s1 <? 0)%Z then (len - 1)%Z else s1 in
    let s3 := if (s2 >=? len)%Z then 0%Z else s2 in
    setSelectedIndex s3 m.

(** The [mouseenter] listener of the row rendered for index [i]. *)
Definition rowMouseEnter (i : nat) (m : Modal) : Modal :=
  setSelectedIndex (Z.of_nat i) m.

(** The [focus] and [input] listeners of the input field. *)
Definition inputFocused (m : Modal) : Modal := setSelectedIndex (-1) m.

(** [onClose()]. *)
Definition onClose (m : Modal) : Modal :=
  let m1 := abortCurrent m in
  setIsOpen false (setResultsEl [] (setStatusEl StatusHidden m1)).

(** [this.results[this.selectedIndex]]; [None] is [undefined]. *)
Definition resultAt (m : Modal) : option json :=
  if (selectedIndex m <? 0)%Z then None
  else nth_error (results m) (Z.to_nat (selectedIndex m)).

(** [openResult(item)] seen from the modal: unless reading [item.file] or
    cleaning it throws, the result is opened by the host and the modal
    closes.  An exception leaves the modal as it is. *)
Definition openResult (settings : QmdSearchSettings) (item : option json)
           (m : Modal) : Modal :=
  match item with
  | None | Some JNull => m
  | Some v =>
      match callCleanFilePath (collection settings) (getProp v (js "file")) with
      | None => m
      | Some _ => onClose m
      end
  end.

Inductive Key := Enter | ArrowDown | ArrowUp | Escape.

(** The [keydown] listener; [isComposing] is [e.isComposing], [value] is
    the text of the input field.  An Enter sent during composition fails
    the first test and, being none of the other three keys, falls through
    the chain. *)
Definition keydown (settings : QmdSearchSettings) (key : Key)
           (isComposing : bool) (value : jsstring) (m : Modal) : Modal :=
  match key with
  | Enter =>
      if negb isComposing then
        if (selectedIndex m >=? 0)%Z && (0 <? length (results m))%nat
        then openResult settings (resultAt m) m
        else runSearch (trim value) m
      else m
  | ArrowDown => moveSelection 1 m
  | ArrowUp => moveSelection (-1) m
  | Escape =>
      if (selectedIndex m >=? 0)%Z then setSelectedIndex (-1) m else m
  end.

(** ** Events *)

(** What can happen to an open modal.  [KeyDown] is a key pressed outside
    an input-method composition and [KeyDownComposing] one sent during it
    ([e.isComposing]).  A mouse event names the position of the row in the
    results region; a child event names the invocation that spawned the
    child. *)
Inductive Event :=
| KeyDown (key : Key) (value : jsstring)
| KeyDownComposing (key : Key) (value : jsstring)
| InputFocus
| InputChanged
| MouseEnter (position : nat)
| ChildError (k : nat) (message : jsstring)
| ChildClose (k : nat) (code : option Z) (stdout stderr : jsstring)
| ModalClosed.

(** An event can be delivered: the interface is only alive while the modal
    is open, a row only answers when it carries listeners, and a child that
    was spawned reports [close] once. *)
Definition enabled (e : Event) (m : Modal) : bool :=
  match e with
  | KeyDown _ _ | KeyDownComposing _ _
  | InputFocus | InputChanged | ModalClosed => isOpen m
  | MouseEnter p =>
      isOpen m &&
      match nth_error (resultsEl m) p with
      | Some (RowComplete _ _) => true
      | _ => false
      end
  | ChildError k _ =>
      match nth_error (invocations m) k with
      | Some i => negb (childClosed i)
      | None => false
      end
  | ChildClose k _ _ _ =>
      match nth_error (invocations m) k with
      | Some i => negb (childClosed i)
      | None => false
      end
  end.

Definition handle (settings : QmdSearchSettings) (e : Event) (m : Modal)
  : Modal :=
  match e with
  | KeyDown key value => keydown settings key false value m
  | KeyDownComposing key value => keydown settings key true value m
  | InputFocus | InputChanged => inputFocused m
  | MouseEnter p =>
      match nth_error (resultsEl m) p with
      | Some (RowComplete i _) => rowMouseEnter i m
      | _ => m
      end
  | ChildError _ message => childError message m
  | ChildClose k code stdout stderr =>
      let m1 := childClose settings code stdout stderr m in
      setInvocations (updateAt k markClosed (invocations m1)) m1
  | ModalClosed => onClose m
  end.

(** Run a list of events, skipping none: [None] when one of them cannot
    be delivered. *)
Fixpoint run (settings : QmdSearchSettings) (es : list Event) (m : Modal)
  : option Modal :=
  match es with
  | [] => Some m
  | e :: rest =>
      if enabled e m then run settings rest (handle settings e m) else None
  end.

(** The states a modal can be in. *)
Inductive Reachable (settings : QmdSearchSettings) : Modal -> Prop :=
| ReachOpened : Reachable settings opened
| ReachStep e m :
    Reachable settings m -> enabled e m = true ->
    Reachable settings (handle settings e m).

(** [selectedIndex] is -1 or an index into [results]. *)
Definition selectionValid (m : Modal) : Prop :=
  selectedIndex m = (-1)%Z
  \/ (0 <= selectedIndex m < Z.of_nat (length (results m)))%Z.

(** The child of invocation [k] is the one answering the current
    controller. *)
Definition isCurrent (k : nat) (m : Modal) : bool :=
  match abortController m with
  | Some c => (c =? k)%nat
  | None => false
  end.

(** A child event is stale when its child does not answer the current
    controller: the search that spawned it has been superseded. *)
Definition stale (e : Event) (m : Modal) : bool :=
  match e with
  | ChildError k _ | ChildClose k _ _ _ => negb (isCurrent k m)
  | _ => false
  end.

(** The states reached when no stale child event is ever delivered. *)
Inductive ReachableFresh (settings : QmdSearchSettings) : Modal -> Prop :=
| FreshOpened : ReachableFresh settings opened
| FreshStep e m :
    ReachableFresh settings m -> enabled e m = true -> stale e m = false ->
    ReachableFresh settings (handle settings e m).

(** Every row with listeners selects an index into [results]. *)
Definition rowsBounded (m : Modal) : Prop :=
  forall p i item,
    nth_error (resultsEl m) p = Some (RowComplete i item) ->
    (i < length (results m))%nat.

(** While the child of the current controller has not reported [close],
    nothing is shown and nothing is selected. *)
Definition clearedWhilePending (m : Modal) : Prop :=
  forall k inv,
    abortController m = Some k ->
    nth_error (invocations m) k = Some inv ->
    childClosed inv = false ->
    results m = [] /\ resultsEl m = [] /\ selectedIndex m = (-1)%Z.

(** The current controller is in the heap. *)
Definition controllerAllocated (m : Modal) : Prop :=
  forall k, abortController m = Some k -> (k < length (invocations m))%nat.

Definition Inv (m : Modal) : Prop :=
  selectionValid m /\ rowsBounded m /\ clearedWhilePending m
  /\ controllerAllocated m.

(** The shape the interface [QmdResult] declares: an object with a string
    [docid], a number [score], a string [file], and strings, if present,
    for [title], [collection], [context] and [snippet]. *)
Definition isNumber (v : option json) : bool :=
  match v with Some (JNumber _) => true | _ => false end.

Definition optionalString (v : option json) : bool :=
  match v with
  | None | Some (JString _) => true
  | _ => false
  end.

Definition isQmdResult (item : json) : bool :=
  match item with
  | JObject _ =>
      isString (getProp item (js "docid"))
      && isNumber (getProp item (js "score"))
      && isString (getProp item (js "file"))
      && optionalString (getProp item (js "title"))
      && optionalString (getProp item (js "collection"))
      && optionalString (getProp item (js "context"))
      && optionalString (getProp item (js "snippet"))
  | _ => false
  end.


(** Sample outputs of the external tool, used in the examples. *)
Definition stdoutTwo : jsstring := jsq "[{`file`:`a.md`},{`file`:`b.md`}]".
Definition stdoutOne : jsstring := jsq "[{`file`:`c.md`}]".

(** Progress text, then one well-formed result. *)
Definition stdoutPlan : jsstring :=
  js "Searching..." ++ [LF] ++
  jsq "[{`docid`:`1`,`score`:0.87,`file`:`obsidian/Projects/Q3 Plan.md`,`title`:`Q3 Plan`}]"
  ++ [LF].

(** A snippet with a raw line feed and a raw tab inside the string. *)
Definition stdoutRawControl : jsstring :=
  jsq "[{`file`:`n.md`,`snippet`:`one" ++ [LF] ++ js "two" ++ [TAB]
  ++ jsq "three`}]".

(** The same array with the two characters escaped by hand. *)
Definition arrayEscapedByHand : jsstring :=
  jsq "[{`file`:`n.md`,`snippet`:`one\u000Atwo\tthree`}]".

Definition itemFile (name : string) : json :=
  JObject [(js "file", JString (js name))].

(** Two searches submitted one after the other, the first still running. *)
Definition supersede : list Event :=
  [KeyDown Enter (js "alpha"); KeyDown Enter (js "beta")].

(** The first search is superseded, its child still delivers its output,
    the user moves the selection, and then the second child completes. *)
Definition staleThenFresh : list Event :=
  supersede ++
  [ChildClose 0 None stdoutTwo [];
   KeyDown ArrowUp [];
   ChildClose 1 (Some 0%Z) stdoutOne []].

End Session.

(* ------------------------------------------------------------------ *)
(** * Sample vaults *)
(* ------------------------------------------------------------------ *)

Module Samples.
Import Paths.

Definition mdFile (dir name : string) : TFile :=
  {| path := js dir ++ js name ++ js ".md"; basename := js name |}.

(** Two notes with the same name in two folders. *)
Definition twoDocs : list TFile := [mdFile "A/" "Doc"; mdFile "B/" "Doc"].


Definition resolveAscii : list TFile -> jsstring -> option jsstring :=
  resolveVaultFile JSString.asciiToLowerCase (js "obsidian").


End Samples.

(* ------------------------------------------------------------------ *)
(** * What the sanitizer leaves after a backslash *)
(* ------------------------------------------------------------------ *)

Module Strictness.
Import Sanitize.

(** No raw control character stands directly after a backslash inside a
    string of [s]: the one place the scan copies without looking. *)
Fixpoint escapesControlFree (m : scan) (s : jsstring) : bool :=
  match s with
  | [] => true
  | ch :: r =>
      match m with
      | Escaped =>
          if (ch <? 32) then false
          else escapesControlFree (snd (scanStep m ch)) r
      | _ => escapesControlFree (snd (scanStep m ch)) r
      end
  end.

(** Every escape the sanitizer writes is a backslash, one character that
    is no control character, and then only plain characters. *)
Definition escapeStrictOk (ch : cu) : bool :=
  match escapeControl ch with
  | b :: x :: l => (b =? backslash) && negb (x <? 32) && forallb plainChar l
  | _ => false
  end.

End Strictness.

(* ------------------------------------------------------------------ *)
(** * More of the modal: snippets, display names, what is opened *)
(* ------------------------------------------------------------------ *)

Module Display.
Import JSString JSON Paths Session.

Fixpoint dropWhile (p : cu -> bool) (s : jsstring) : jsstring :=
  match s with
  | [] => []
  | c :: r => if p c then dropWhile p r else s
  end.

(** One given character at the head of [s]; the rest of [s] after it. *)
Definition expect (c : cu) (s : jsstring) : option jsstring :=
  match s with
  | x :: r => if x =? c then Some r else None
  | [] => None
  end.

Definition notAt (c : cu) : bool := negb (c =? 64).
Definition notClose (c : cu) : bool := negb (c =? 41).

(** The regular expression [/@@[^@]*@@\s*\([^)]*\)\s*/] tried at the head
    of [s]: the text after the match, [None] when there is no match there.
    Every starred class is followed by a character outside the class (or
    by the end of the expression), so the greedy match is the only
    candidate and nothing is gained by backtracking. *)
Definition matchMarker (s : jsstring) : option jsstring :=
  r1 <- expect 64 s ;;
  r2 <- expect 64 r1 ;;
  r3 <- expect 64 (dropWhile notAt r2) ;;
  r4 <- expect 64 r3 ;;
  r5 <- expect 40 (dropWhile isWhiteSpace r4) ;;
  r6 <- expect 41 (dropWhile notClose r5) ;;
  Some (dropWhile isWhiteSpace r6).

(** [raw.replace(/@@[^@]*@@\s*\([^)]*\)\s*/g, empty)]: scan from the left;
    where the expression matches, drop the match and go on after it;
    elsewhere keep the character.  [skip] counts the characters of a match
    still to be dropped. *)
Fixpoint removeMarkers (skip : nat) (s : jsstring) : jsstring :=
  match s with
  | [] => []
  | c :: r =>
      match skip with
      | S k => removeMarkers k r
      | O =>
          match matchMarker s with
          | Some rest => removeMarkers (length r - length rest) r
          | None => c :: removeMarkers 0 r
          end
      end
  end.

(** [s.replace(/\n+/g, " ")]: every run of line feeds becomes one space. *)
Fixpoint replaceNewlineRuns (inRun : bool) (s : jsstring) : jsstring :=
  match s with
  | [] => []
  | c :: r =>
      if c =? LF
      then (if inRun then replaceNewlineRuns true r
            else 32 :: replaceNewlineRuns true r)
      else c :: replaceNewlineRuns false r
  end.

(** [cleanSnippet(raw)]. *)
Definition cleanSnippet (raw : jsstring) : jsstring :=
  trim (replaceNewlineRuns false (removeMarkers 0 raw)).

(** The text of the snippet element of a row, [None] when the element is
    not created (lines 327-335). *)
Definition snippetElement (raw : jsstring) : option jsstring :=
  let snippetText := cleanSnippet raw in
  if jsstring_eqb snippetText [] then None
  else if (200 <? length snippetText)%nat
       then Some (slice snippetText 0 200 ++ js "...")
       else Some snippetText.

(** [fileDisplayName(rawPath)]. *)
Definition fileDisplayName (collection rawPath : jsstring) : jsstring :=
  let clean := cleanFilePath collection rawPath in
  let filename :=
    match pop (split 47 clean) with
    | Some [] | None => clean
    | Some seg => seg
    end in
  stripMd filename.

(** What [openResult(item)] hands to [openLinkText], for an item whose
    [file] is the string [file]: the link, and whether the notice about a
    direct open is shown. *)
Section Opening.
Variable toLowerCase : jsstring -> jsstring.


End Opening.

(** The item of the sample output [stdoutPlan]. *)
Definition planItem : json :=
  JObject
    [(js "docid", JString (js "1"));
     (js "score",
      JNumber {| negative := false; mantissa := 87; exponent := -2 |});
     (js "file", JString (js "obsidian/Projects/Q3 Plan.md"));
     (js "title", JString (js "Q3 Plan"))].

(** The rows [renderResults] makes when no item throws: row [i] carries
    item [i]. *)
Fixpoint rowsFrom (i : nat) (items : list json) : list RowEl :=
  match items with
  | [] => []
  | item :: rest => RowComplete i item :: rowsFrom (S i) rest
  end.

(** A string has no white space at either end. *)
Definition headIsSpace (s : jsstring) : bool :=
  match s with
  | c :: _ => isWhiteSpace c
  | [] => false
  end.

Definition isTrimmed (s : jsstring) : bool :=
  negb (headIsSpace s) && negb (headIsSpace (rev s)).

(** Every invocation but the current one has been cancelled: its signal is
    aborted and its child was sent [kill]. *)
Definition othersCancelled (m : Modal) : Prop :=
  forall j inv,
    nth_error (invocations m) j = Some inv ->
    abortController m <> Some j ->
    signalAborted inv = true /\ childKilled inv = true.

(** Every invocation has been cancelled. *)
Definition allCancelled (m : Modal) : Prop :=
  forall j inv,
    nth_error (invocations m) j = Some inv ->
    signalAborted inv = true /\ childKilled inv = true.

(** No controller yet means no child yet. *)
Definition heapStarted (m : Modal) : Prop :=
  abortController m = None -> invocations m = [].

(** What holds of the controllers and children in every state. *)
Definition Cancellation (m : Modal) : Prop :=
  othersCancelled m /\ controllerAllocated m /\ heapStarted m
  /\ (isOpen m = false -> allCancelled m).

(** [n] presses of the same arrow key. *)
Fixpoint press (n : nat) (delta : Z) (m : Modal) : Modal :=
  match n with
  | O => m
  | S k => press k delta (moveSelection delta m)
  end.

(** What the user sees of a modal. *)
Definition visible (m : Modal) : list json * Z * Status * list RowEl :=
  (results m, selectedIndex m, statusEl m, resultsEl m).

End Display.

(* ------------------------------------------------------------------ *)
(** * The environment and arguments of the child (main.ts, 181-204) *)
(* ------------------------------------------------------------------ *)

Module Spawn.
Import JSString Session.

(** [parts.join(sep)]. *)
Fixpoint join (sep : jsstring) (parts : list jsstring) : jsstring :=
  match parts with
  | [] => []
  | [p] => p
  | p :: rest => p ++ sep ++ join sep rest
  end.

(** The well-known installation directories, in the order of line 190. *)
Definition wellKnown (home : jsstring) : list jsstring :=
  [home ++ js "/.bun/bin"; home ++ js "/.local/bin";
   js "/usr/local/bin"; js "/opt/homebrew/bin"].

(** [pathParts] after lines 184-195. *)
Definition pathParts (home extraPath : jsstring) : list jsstring :=
  (if jsstring_eqb (trim extraPath) [] then [] else [trim extraPath])
  ++ wellKnown home.

(** [process.env.PATH || ""]; [None] is an unset variable. *)
Definition inherited (envPath : option jsstring) : jsstring :=
  match envPath with
  | Some p => p
  | None => []
  end.

(** The [PATH] of the child's environment. *)
Definition childPath (home extraPath : jsstring) (envPath : option jsstring)
  : jsstring :=
  join (js ":") (pathParts home extraPath) ++ js ":" ++ inherited envPath.

(** [Number.isSafeInteger]: the integers up to 2^53 - 1 in size.  A Number
    holds each of them exactly and [String] prints it in plain decimal
    digits, which is what [numberToString] gives. *)
Definition isSafeInteger (z : Z) : bool :=
  (Z.abs z <=? 9007199254740991)%Z.

(** The argument vector of the child.  The count is [String(resultCount)];
    the model follows it for a safe integer only and gives no vector
    ([None]) for another count, where the code prints the digits of a
    rounded Number, an exponent form or [Infinity]. *)
Definition childArgs (mode query : jsstring) (settings : QmdSearchSettings)
  : option (list jsstring) :=
  if isSafeInteger (resultCount settings)
  then Some [mode; query; js "--json"; js "-c"; collection settings;
             js "-n"; numberToString (resultCount settings)]
  else None.

End Spawn.

(* ------------------------------------------------------------------ *)
(** * The settings tab (main.ts, lines 505-592) *)
(* ------------------------------------------------------------------ *)

Module SettingsTab.
Import JSString Session.

Definition setQmdPath (v : jsstring) (s : QmdSearchSettings)
  : QmdSearchSettings :=
  {| qmdPath := v; collection := collection s; resultCount := resultCount s;
     extraPath := extraPath s; debugLogging := debugLogging s |}.

Definition setCollection (v : jsstring) (s : QmdSearchSettings)
  : QmdSearchSettings :=
  {| qmdPath := qmdPath s; collection := v; resultCount := resultCount s;
     extraPath := extraPath s; debugLogging := debugLogging s |}.

Definition setResultCount (v : Z) (s : QmdSearchSettings)
  : QmdSearchSettings :=
  {| qmdPath := qmdPath s; collection := collection s; resultCount := v;
     extraPath := extraPath s; debugLogging := debugLogging s |}.

Definition setExtraPath (v : jsstring) (s : QmdSearchSettings)
  : QmdSearchSettings :=
  {| qmdPath := qmdPath s; collection := collection s;
     resultCount := resultCount s; extraPath := v;
     debugLogging := debugLogging s |}.

Definition setDebugLogging (v : bool) (s : QmdSearchSettings)
  : QmdSearchSettings :=
  {| qmdPath := qmdPath s; collection := collection s;
     resultCount := resultCount s; extraPath := extraPath s;
     debugLogging := v |}.

(** [a || b] on strings: the empty string is falsy. *)
Definition orDefault (a b : jsstring) : jsstring :=
  if jsstring_eqb a [] then b else a.

Fixpoint takeWhile (p : cu -> bool) (s : jsstring) : jsstring :=
  match s with
  | [] => []
  | c :: r => if p c then c :: takeWhile p r else []
  end.

(** The number written by a run of decimal digits. *)
Definition digitsValue (digits : jsstring) : Z :=
  fold_left (fun acc c => (acc * 10 + Z.of_N (JSON.digitVal c))%Z) digits 0%Z.

(** The sign and the digits [parseInt(value, 10)] reads: leading white
    space is skipped, one sign is accepted, and the digits run up to the
    first character that is none. *)
Definition signAndDigits (value : jsstring) : bool * jsstring :=
  match trimStart value with
  | c :: r =>
      if c =? 45 then (true, takeWhile JSON.isDigit r)
      else if c =? 43 then (false, takeWhile JSON.isDigit r)
      else (false, takeWhile JSON.isDigit (c :: r))
  | [] => (false, [])
  end.

(** The integer that [parseInt(value, 10)] reads before it is made a
    Number: [None] when there is no digit to read. *)
Definition mathInt (value : jsstring) : option Z :=
  let (neg, digits) := signAndDigits value in
  match digits with
  | [] => None
  | _ => Some (if neg then - digitsValue digits else digitsValue digits)%Z
  end.

(** The result of [parseInt(value, 10)]: [NaN], or the Number of the
    integer read.  For a safe integer that Number is the integer itself;
    beyond, it is a rounded value or [Infinity], which the model does not
    compute ([Unrepresented]). *)
Inductive ParsedInt :=
| NotANumber
| Integer (n : Z)
| Unrepresented.

Definition parseInt10 (value : jsstring) : ParsedInt :=
  match mathInt value with
  | None => NotANumber
  | Some z => if Spawn.isSafeInteger z then Integer z else Unrepresented
  end.

(** The [onChange] handlers of the five settings.  The handler of the
    count gives no settings ([None]) where [parseInt10] gives no
    Number. *)
Definition changeQmdPath (value : jsstring) (s : QmdSearchSettings)
  : QmdSearchSettings :=
  setQmdPath (orDefault (trim value) (js "qmd")) s.

Definition changeCollection (value : jsstring) (s : QmdSearchSettings)
  : QmdSearchSettings :=
  setCollection (orDefault (trim value) (js "obsidian")) s.

Definition changeExtraPath (value : jsstring) (s : QmdSearchSettings)
  : QmdSearchSettings :=
  setExtraPath value s.

Definition changeResultCount (value : jsstring) (s : QmdSearchSettings)
  : option QmdSearchSettings :=
  match parseInt10 value with
  | NotANumber => Some (setResultCount 16 s)          (* isNaN(n) *)
  | Integer n => Some (setResultCount (if (n <? 1)%Z then 16 else n)%Z s)
  | Unrepresented => None
  end.

Definition changeDebugLogging (value : bool) (s : QmdSearchSettings)
  : QmdSearchSettings :=
  setDebugLogging value s.

(** A change made through the settings tab. *)
Inductive Change :=
| QmdPathChanged (value : jsstring)
| CollectionChanged (value : jsstring)
| ExtraPathChanged (value : jsstring)
| ResultCountChanged (value : jsstring)
| DebugLoggingChanged (value : bool).

Definition apply (c : Change) (s : QmdSearchSettings)
  : option QmdSearchSettings :=
  match c with
  | QmdPathChanged v => Some (changeQmdPath v s)
  | CollectionChanged v => Some (changeCollection v s)
  | ExtraPathChanged v => Some (changeExtraPath v s)
  | ResultCountChanged v => changeResultCount v s
  | DebugLoggingChanged v => Some (changeDebugLogging v s)
  end.


(** What the handlers keep true of the settings. *)
Definition valid (s : QmdSearchSettings) : Prop :=
  qmdPath s <> [] /\ Display.isTrimmed (qmdPath s) = true
  /\ collection s <> [] /\ Display.isTrimmed (collection s) = true
  /\ (1 <= resultCount s)%Z /\ Spawn.isSafeInteger (resultCount s) = true.

End SettingsTab.

(* ------------------------------------------------------------------ *)
(** * shellQuote (main.ts, lines 496-498) *)
(* ------------------------------------------------------------------ *)

Module Shell.

Definition quote : cu := 39.   (* U+0027 *)

(** [s.replace(/'/g, "'\\''")]: every single quote becomes the four
    characters quote, backslash, quote, quote. *)
Fixpoint escapeQuotes (s : jsstring) : jsstring :=
  match s with
  | [] => []
  | c :: r =>
      if c =? quote then quote :: backslash :: quote :: quote :: escapeQuotes r
      else c :: escapeQuotes r
  end.

(** [shellQuote(s)]. *)
Definition shellQuote (s : jsstring) : jsstring :=
  quote :: escapeQuotes s ++ [quote].

(** How a POSIX shell reads one word made of single-quoted parts and
    backslash escapes (Shell Command Language, 2.2): outside quotes a
    quote opens a quoted part and a backslash makes the next character
    literal; inside quotes everything up to the next quote is literal.
    [None]: the word ends inside quotes or after a backslash, or holds
    another unquoted character. *)
Fixpoint readWord (inQuotes : bool) (s : jsstring) : option jsstring :=
  match s with
  | [] => if inQuotes then None else Some []
  | c :: r =>
      if inQuotes then
        if c =? quote then readWord false r
        else option_map (cons c) (readWord true r)
      else
        if c =? quote then readWord true r
        else if c =? backslash then
          match r with
          | x :: r' => option_map (cons x) (readWord false r')
          | [] => None
          end
        else None
  end.

End Shell.
(* ================================================================== *)
(** * Properties *)
(* ================================================================== *)

Lemma jsstring_eqb_eq a b : jsstring_eqb a b = true <-> a = b.
Proof.
  unfold jsstring_eqb. destruct (list_eq_dec N.eq_dec a b); split; congruence.
Qed.


Lemma jsstring_eqb_neq a b : jsstring_eqb a b = false <-> a <> b.
Proof.
  unfold jsstring_eqb. destruct (list_eq_dec N.eq_dec a b); split; congruence.
Qed.

(** A boolean property checked on the 32 control characters holds of each. *)
Lemma below32 (p : N -> bool) :
  forallb p (map N.of_nat (seq 0 32)) = true ->
  forall ch, ch < 32 -> p ch = true.
Proof.
  intros H ch Hlt. rewrite forallb_forall in H. apply H.
  rewrite <- (N2Nat.id ch). apply in_map. apply in_seq. lia.
Qed.

Module SanitizeFacts.
Import Sanitize.

Lemma nth_error_skipn_cons (raw : jsstring) i ch :
  nth_error raw i = Some ch -> skipn i raw = ch :: skipn (S i) raw.
Proof.
  revert i. induction raw as [|a raw IH]; intros [|i] H; simpl in *;
    try discriminate.
  - now inversion H.
  - now apply IH.
Qed.

Lemma nth_error_skipn_nil (raw : jsstring) i :
  nth_error raw i = None -> skipn i raw = [].
Proof.
  intros H. apply nth_error_None in H. now apply skipn_all2.
Qed.

(** The loop computes the one-character-at-a-time scan of what is left of
    [raw], provided the fuel covers it. *)
Lemma sanitizeLoop_scan fuel :
  forall raw i inString out,
    (length raw <= i + fuel)%nat ->
    concat (sanitizeLoop fuel raw i inString out)
    = concat out ++ scanFrom (scanOf inString) (skipn i raw).
Proof.
  induction fuel as [|fuel IH]; intros raw i inString out Hlen;
    cbn [sanitizeLoop].
  - rewrite skipn_all2 by lia. cbn. now rewrite app_nil_r.
  - destruct (nth_error raw i) as [ch|] eqn:Hi.
    2:{ rewrite (nth_error_skipn_nil _ _ Hi). cbn. now rewrite app_nil_r. }
    rewrite (nth_error_skipn_cons _ _ Hi).
    destruct inString; cbn [scanOf scanFrom scanStep fst snd].
    + destruct (ch =? backslash) eqn:Hb; cbn [fst snd].
      * destruct (nth_error raw (S i)) as [nxt|] eqn:Hn; rewrite IH by lia.
        -- rewrite (nth_error_skipn_cons _ _ Hn).
           cbn [scanOf scanFrom scanStep fst snd].
           rewrite !concat_app. cbn. now rewrite <- !app_assoc.
        -- rewrite (nth_error_skipn_nil _ _ Hn).
           rewrite (skipn_all2 (n := S (S i)))
             by (apply nth_error_None in Hn; lia).
           cbn. rewrite concat_app. cbn. now rewrite <- !app_assoc.
      * destruct (ch =? dquote) eqn:Hq; cbn [fst snd].
        -- rewrite IH by lia. rewrite concat_app. cbn.
           now rewrite <- !app_assoc.
        -- destruct (ch <? 32) eqn:Hc; cbn [fst snd]; rewrite IH by lia;
             rewrite concat_app; cbn [concat scanOf]; rewrite app_nil_r;
             now rewrite <- !app_assoc.
    + rewrite IH by lia. rewrite concat_app. cbn [concat].
      destruct (ch =? dquote); cbn; now rewrite <- !app_assoc.
Qed.

(** [sanitizeJson] is the scan started outside any string: the index loop
    always runs to the end of its input. *)
Lemma sanitizeJson_scan raw : sanitizeJson raw = scanFrom Outside raw.
Proof.
  unfold sanitizeJson. rewrite sanitizeLoop_scan by (simpl; lia). reflexivity.
Qed.

Lemma scanFrom_app m s t :
  scanFrom m (s ++ t) = scanFrom m s ++ scanFrom (scanAfter m s) t.
Proof.
  revert m. induction s as [|ch s IH]; intros m; simpl; [reflexivity|].
  now rewrite IH, app_assoc.
Qed.

Lemma scanAfter_app m s t :
  scanAfter m (s ++ t) = scanAfter (scanAfter m s) t.
Proof.
  revert m. induction s as [|ch s IH]; intros m; simpl; auto.
Qed.

Lemma genericEscape_shape ch :
  ch < 32 ->
  exists d1 d2 d3 d4,
    js "\u" ++ padStart 4 48 (toString16 ch)
    = [backslash; 117; d1; d2; d3; d4]
    /\ forallb isHexDigit [d1; d2; d3; d4] = true
    /\ ((hexValue d1 * 16 + hexValue d2) * 16 + hexValue d3) * 16
       + hexValue d4 = ch.
Proof.
  intros Hlt.
  assert (H : genericEscapeOk ch = true)
    by (apply below32; [vm_compute; reflexivity | exact Hlt]).
  unfold genericEscapeOk in H.
  destruct (js "\u" ++ padStart 4 48 (toString16 ch))
    as [|b [|u [|d1 [|d2 [|d3 [|d4 [|x l]]]]]]]; try discriminate.
  rewrite !andb_true_iff in H. destruct H as [[[Hb Hu] Hh] Hv].
  apply N.eqb_eq in Hb, Hu, Hv. subst b u.
  exists d1, d2, d3, d4. repeat split; auto.
Qed.

Lemma scan_Sanitizes s : forall m, Sanitizes m s (scanFrom m s).
Proof.
  induction s as [|ch s IH]; intros m; simpl; [constructor|].
  destruct m; simpl.
  - destruct (ch =? dquote) eqn:Hq.
    + apply N.eqb_eq in Hq. subst. apply San_open, IH.
    + apply N.eqb_neq in Hq. apply San_outside; auto.
  - destruct (ch =? backslash) eqn:Hb; simpl.
    { apply N.eqb_eq in Hb. subst. apply San_backslash, IH. }
    destruct (ch =? dquote) eqn:Hq; simpl.
    { apply N.eqb_eq in Hq. subst. apply San_close, IH. }
    apply N.eqb_neq in Hb, Hq.
    destruct (ch <? 32) eqn:Hc; simpl.
    + apply N.ltb_lt in Hc. unfold escapeControl.
      destruct (ch =? LF) eqn:H1.
      { apply N.eqb_eq in H1. subst. apply San_newline, IH. }
      destruct (ch =? CR) eqn:H2.
      { apply N.eqb_eq in H2. subst. apply San_return, IH. }
      destruct (ch =? TAB) eqn:H3.
      { apply N.eqb_eq in H3. subst. apply San_tab, IH. }
      apply N.eqb_neq in H1, H2, H3.
      destruct (genericEscape_shape Hc) as (d1 & d2 & d3 & d4 & E & Hh & Hv).
      rewrite E. simpl. apply San_control; auto.
    + apply N.ltb_ge in Hc. apply San_plain; auto.
  - apply San_escaped, IH.
Qed.

(** Claim C3.  [sanitizeJson] scans its input one character at a time and
    keeps track of whether it is inside a quoted string.  Inside a string a
    raw line feed becomes [\n], a raw carriage return [\r], a raw tab
    [\t], any other character below 0x20 a [\u] escape of exactly four
    hexadecimal digits spelling its code, the character after a backslash
    is copied without being looked at, and every other character is copied
    unchanged; outside a string every character is copied unchanged.  These
    are the rules of [Sanitizes], and the output of the function obeys them
    on every input. *)
Theorem sanitizeJson_char_by_char :
  forall raw, Sanitizes Outside raw (sanitizeJson raw).
Proof.
  intros raw. rewrite sanitizeJson_scan. apply scan_Sanitizes.
Qed.

(** ** Inputs the sanitizer leaves alone, and idempotence *)

Lemma controlFree_scan s :
  forall m, controlFree m s = true -> scanFrom m s = s.
Proof.
  induction s as [|ch s IH]; intros m H; cbn in *; [reflexivity|].
  destruct m; cbn in *.
  - f_equal. now apply IH.
  - destruct (ch <? 32) eqn:Hc; [discriminate|].
    destruct (ch =? backslash); cbn in *; [f_equal; now apply IH|].
    destruct (ch =? dquote); cbn in *; f_equal; now apply IH.
  - f_equal. now apply IH.
Qed.

Lemma controlFreeStrict_controlFree s :
  forall m, controlFreeStrict m s = true -> controlFree m s = true.
Proof.
  induction s as [|ch s IH]; intros m H; cbn in *; [reflexivity|].
  destruct m; cbn in *; auto.
  - destruct (ch <? 32); [discriminate|]. auto.
  - destruct (ch <? 32); [discriminate|]. auto.
Qed.

Lemma controlFree_plain l t :
  forallb plainChar l = true ->
  controlFree Inside (l ++ t) = controlFree Inside t.
Proof.
  induction l as [|c l IH]; intros H; cbn in *; [reflexivity|].
  apply andb_true_iff in H. destruct H as [Hc Hl].
  unfold plainChar in Hc. rewrite !andb_true_iff, !negb_true_iff in Hc.
  destruct Hc as [[H1 H2] H3]. rewrite H1, H3, H2. cbn. auto.
Qed.

Lemma escapeControl_shape ch :
  ch < 32 ->
  exists x l, escapeControl ch = backslash :: x :: l
              /\ forallb plainChar l = true.
Proof.
  intros Hlt.
  assert (H : escapeShapeOk ch = true)
    by (apply below32; [vm_compute; reflexivity | exact Hlt]).
  unfold escapeShapeOk in H.
  destruct (escapeControl ch) as [|b [|x l]]; try discriminate.
  apply andb_true_iff in H. destruct H as [Hb Hl].
  apply N.eqb_eq in Hb. subst. eauto.
Qed.

Lemma controlFree_step m ch t :
  controlFree m (fst (scanStep m ch) ++ t)
  = controlFree (snd (scanStep m ch)) t.
Proof.
  destruct m; cbn; try reflexivity.
  destruct (ch =? backslash) eqn:Hb; cbn.
  { apply N.eqb_eq in Hb. subst. reflexivity. }
  destruct (ch =? dquote) eqn:Hq; cbn.
  { apply N.eqb_eq in Hq. subst. reflexivity. }
  destruct (ch <? 32) eqn:Hc; cbn.
  - apply N.ltb_lt in Hc.
    destruct (escapeControl_shape Hc) as (x & l & E & Hl). rewrite E.
    cbn. now apply controlFree_plain.
  - now rewrite Hc, Hb, Hq.
Qed.

Lemma controlFree_scanFrom s : forall m, controlFree m (scanFrom m s) = true.
Proof.
  induction s as [|ch s IH]; intros m; cbn [scanFrom]; [reflexivity|].
  rewrite controlFree_step. apply IH.
Qed.

(** Claim C10.  An input with no raw control character (code below 0x20)
    inside its quoted strings comes back unchanged, whether or not the
    character after a backslash counts as part of the string; hence the
    sanitizer is idempotent on every input, its output being such an
    input. *)
Theorem sanitizeJson_fixed_and_idempotent :
  (forall s, controlFree Outside s = true -> sanitizeJson s = s)
  /\ (forall s, controlFreeStrict Outside s = true -> sanitizeJson s = s)
  /\ (forall s, sanitizeJson (sanitizeJson s) = sanitizeJson s).
Proof.
  repeat split; intros s.
  - intros H. rewrite sanitizeJson_scan. now apply controlFree_scan.
  - intros H. rewrite sanitizeJson_scan.
    now apply controlFree_scan, controlFreeStrict_controlFree.
  - rewrite !sanitizeJson_scan. apply controlFree_scan, controlFree_scanFrom.
Qed.

Lemma sanitizeJson_fixed_and_idempotent_witness :
  sanitizeJson Session.stdoutOne = Session.stdoutOne
  /\ sanitizeJson (sanitizeJson Session.stdoutRawControl)
     = sanitizeJson Session.stdoutRawControl.
Proof.
  destruct sanitizeJson_fixed_and_idempotent as (Hfree & _ & Hidem).
  split.
  - apply Hfree. reflexivity.
  - apply Hidem.
Defined.

End SanitizeFacts.

Module NavigationFacts.
Import JSON Session.

Lemma moveSelection_results delta m :
  results (moveSelection delta m) = results m.
Proof.
  unfold moveSelection.
  destruct (Z.of_nat (length (results m)) =? 0)%Z; [reflexivity|].
  destruct (selectedIndex m <? 0)%Z; reflexivity.
Qed.

Lemma moveSelection_empty delta m :
  results m = [] -> moveSelection delta m = m.
Proof.
  intros H. unfold moveSelection. now rewrite H.
Qed.

(** Claim C7.  [moveSelection] wraps around: with [n > 0] results, moving
    by -1 from index 0 lands on [n - 1] and moving by +1 from [n - 1]
    lands on 0; with no results it changes nothing, so a selection of -1
    stays -1. *)
Theorem moveSelection_circular :
  forall m : Modal,
    let n := Z.of_nat (length (results m)) in
    (results m <> [] -> selectedIndex m = 0%Z ->
     selectedIndex (moveSelection (-1) m) = (n - 1)%Z)
    /\ (results m <> [] -> selectedIndex m = (n - 1)%Z ->
        selectedIndex (moveSelection 1 m) = 0%Z)
    /\ (results m = [] ->
        forall delta, moveSelection delta m = m)
    /\ (results m = [] -> selectedIndex m = (-1)%Z ->
        forall delta, selectedIndex (moveSelection delta m) = (-1)%Z).
Proof.
  intros m n.
  assert (Hn : results m <> [] -> (0 < n)%Z).
  { subst n. destruct (results m); [congruence|]. cbn [length]. lia. }
  repeat split.
  - intros Hne H0. specialize (Hn Hne). unfold moveSelection. fold n.
    destruct (n =? 0)%Z eqn:E; [lia|]. rewrite H0. cbn.
    destruct (n - 1 >=? n)%Z eqn:E2; [lia|]. reflexivity.
  - intros Hne Hl. specialize (Hn Hne). unfold moveSelection. fold n.
    destruct (n =? 0)%Z eqn:E; [lia|]. rewrite Hl.
    destruct (n - 1 <? 0)%Z eqn:E1; [lia|].
    destruct (n - 1 + 1 <? 0)%Z eqn:E2; [lia|].
    destruct (n - 1 + 1 >=? n)%Z eqn:E3; [reflexivity|lia].
  - intros He delta. now apply moveSelection_empty.
  - intros He Hs delta. now rewrite moveSelection_empty.
Qed.

Lemma moveSelection_circular_witness :
  let m := setSelectedIndex 0
             (setResults [JNull; JBool true; JBool false] opened) in
  selectedIndex (moveSelection (-1) m) = 2%Z
  /\ selectedIndex (moveSelection 1 (moveSelection (-1) m)) = 0%Z
  /\ moveSelection 1 opened = opened.
Proof.
  intros m.
  destruct (moveSelection_circular m) as (Hback & _).
  destruct (moveSelection_circular (moveSelection (-1) m)) as (_ & Hfwd & _).
  destruct (moveSelection_circular opened) as (_ & _ & Hnop & _).
  split; [|split].
  - apply Hback; [discriminate | reflexivity].
  - apply Hfwd; [discriminate | reflexivity].
  - apply Hnop. reflexivity.
Defined.

End NavigationFacts.

Module InvocationFacts.
Import JSString JSON Session.

Lemma showError_nonempty msg m :
  msg <> [] -> showError msg m = setStatusEl (StatusError msg) m.
Proof.
  intros H. unfold showError.
  apply jsstring_eqb_neq in H. now rewrite H.
Qed.

Lemma exitMessage_nonempty stderr c :
  (if jsstring_eqb (trim stderr) []
   then js "QMD exited with code " ++ numberToString c
   else trim stderr) <> [].
Proof.
  destruct (jsstring_eqb (trim stderr) []) eqn:E.
  - discriminate.
  - now apply jsstring_eqb_neq.
Qed.

(** Claim C9, as amended.  Take the completion of the child of the current
    invocation, the one the controller of the modal belongs to.  While
    that invocation is not aborted, a non-zero, non-null exit code is
    reported as an error whose text is stderr trimmed, or
    [QMD exited with code N] when that is empty, and nothing else changes.
    A null exit code never gives that error: it is handled exactly as exit
    code 0, stdout going to the recovery parser.  Once that invocation is
    aborted, no exit code has any effect.  In each case the child is
    recorded as closed. *)
Theorem exit_code_handling :
  forall settings k inv stdout stderr m,
    isCurrent k m = true ->
    nth_error (invocations m) k = Some inv ->
    let closed m' :=
      setInvocations (updateAt k markClosed (invocations m')) m' in
    (signalAborted inv = false ->
     forall c, c <> 0%Z ->
       handle settings (ChildClose k (Some c) stdout stderr) m
       = closed
           (setStatusEl
              (StatusError
                 (if jsstring_eqb (trim stderr) []
                  then js "QMD exited with code " ++ numberToString c
                  else trim stderr)) m))
    /\ handle settings (ChildClose k None stdout stderr) m
       = handle settings (ChildClose k (Some 0%Z) stdout stderr) m
    /\ (signalAborted inv = false ->
        handle settings (ChildClose k None stdout stderr) m
        = closed (recover settings stdout m))
    /\ (signalAborted inv = true ->
        forall code,
          handle settings (ChildClose k code stdout stderr) m = closed m).
Proof.
  intros settings k inv stdout stderr m Hk Hn closed.
  assert (Ha : currentSignalAborted m = signalAborted inv).
  { unfold isCurrent in Hk. unfold currentSignalAborted.
    destruct (abortController m) as [c|]; [|discriminate].
    apply Nat.eqb_eq in Hk. subst c. now rewrite Hn. }
  cbn [handle]. unfold childClose. rewrite Ha.
  split; [|split; [|split]].
  - intros Hf c Hc. rewrite Hf.
    destruct (c =? 0)%Z eqn:E; [lia|]. cbn [negb].
    rewrite showError_nonempty by apply exitMessage_nonempty. reflexivity.
  - reflexivity.
  - intros Hf. now rewrite Hf.
  - intros Ht code. now rewrite Ht.
Qed.

Lemma exit_code_handling_witness :
  let m := runSearch (js "alpha") opened in
  statusEl (handle DEFAULT_SETTINGS
              (ChildClose 0 (Some 1%Z) [] (js " collection not found ")) m)
  = StatusError (js "collection not found")
  /\ statusEl (handle DEFAULT_SETTINGS
                 (ChildClose 0 (Some 3%Z) [] (js "  ")) m)
     = StatusError (js "QMD exited with code 3")
  /\ Display.visible
       (handle DEFAULT_SETTINGS (ChildClose 0 None stdoutOne []) m)
     = Display.visible (recover DEFAULT_SETTINGS stdoutOne m)
  /\ Display.visible
       (handle DEFAULT_SETTINGS
          (ChildClose 0 (Some 1%Z) [] (js "late")) (onClose m))
     = Display.visible (onClose m).
Proof.
  intros m.
  destruct (@exit_code_handling DEFAULT_SETTINGS 0
              {| invQuery := js "alpha"; signalAborted := false;
                 childKilled := false; childClosed := false |}
              [] (js " collection not found ") m eq_refl eq_refl)
    as (H1 & _).
  destruct (@exit_code_handling DEFAULT_SETTINGS 0
              {| invQuery := js "alpha"; signalAborted := false;
                 childKilled := false; childClosed := false |}
              [] (js "  ") m eq_refl eq_refl) as (H2 & _).
  destruct (@exit_code_handling DEFAULT_SETTINGS 0
              {| invQuery := js "alpha"; signalAborted := false;
                 childKilled := false; childClosed := false |}
              stdoutOne [] m eq_refl eq_refl) as (_ & _ & H3 & _).
  destruct (@exit_code_handling DEFAULT_SETTINGS 0
              {| invQuery := js "alpha"; signalAborted := true;
                 childKilled := true; childClosed := false |}
              [] (js "late") (onClose m) eq_refl eq_refl)
    as (_ & _ & _ & H4).
  split; [|split; [|split]].
  - rewrite H1; [reflexivity | reflexivity | discriminate].
  - rewrite H2; [reflexivity | reflexivity | discriminate].
  - rewrite H3; reflexivity.
  - rewrite H4; reflexivity.
Defined.

(** Claim C9 as stated fails: a search is running and not superseded, its
    child reports a null exit code with nothing on stdout, and the status
    region goes from the busy indicator to the text for no results. *)
Lemma null_exit_code_shows_empty_status :
  let m := runSearch (js "alpha") opened in
  isCurrent 0 m = true
  /\ currentSignalAborted m = false
  /\ statusEl m = StatusSearching
  /\ statusEl (handle DEFAULT_SETTINGS (ChildClose 0 None [] []) m)
     = StatusEmpty.
Proof. repeat split. Qed.

Lemma run_Reachable settings es :
  forall m m', Reachable settings m -> run settings es m = Some m' ->
               Reachable settings m'.
Proof.
  induction es as [|e es IH]; intros m m' Hr Hrun; cbn [run] in Hrun.
  - inversion Hrun. now subst.
  - destruct (enabled e m) eqn:En; [|discriminate].
    eapply IH; [|exact Hrun]. now apply ReachStep.
Qed.

(** A new search cancels the one before it: the controller that was
    current is aborted and its child killed. *)
Lemma runSearch_cancels_previous query m k inv :
  query <> [] ->
  abortController m = Some k ->
  nth_error (invocations m) k = Some inv ->
  exists inv',
    nth_error (invocations (runSearch query m)) k = Some inv'
    /\ signalAborted inv' = true /\ childKilled inv' = true
    /\ abortController (runSearch query m) = Some (length (invocations m)).
Proof.
  intros Hq Hc Hk. unfold runSearch.
  apply jsstring_eqb_neq in Hq. rewrite Hq.
  unfold abortCurrent. rewrite Hc. cbn.
  assert (Hlen : (k < length (invocations m))%nat)
    by (apply nth_error_Some; congruence).
  exists (abortInvocation inv).
  assert (Hu : forall l j x,
             nth_error l j = Some x ->
             nth_error (updateAt j abortInvocation l) j
             = Some (abortInvocation x)).
  { induction l as [|y l IH]; intros [|j] x H; cbn in *;
      try discriminate; [now inversion H | now apply IH]. }
  assert (Hl : forall l j, length (updateAt j abortInvocation l) = length l).
  { induction l as [|y l IH]; intros [|j]; cbn; auto. }
  rewrite nth_error_app1 by (now rewrite Hl).
  rewrite (Hu _ _ _ Hk), Hl. auto.
Qed.

(** Claim C1, on the code.  A second search is submitted while the first
    is running.  The first controller is aborted and its child killed, as
    the claim says.  But the handlers of the first child read
    [this.abortController], which by then is the second controller, so
    what the first child still delivers is acted upon: its stdout fills
    [results] and hides the busy indicator, an empty stdout shows the text
    for no results, a failing exit code and a spawn error show an error,
    all while the second search is still running. *)
Theorem superseded_invocation_is_acted_upon :
  exists m,
    run DEFAULT_SETTINGS supersede opened = Some m
    /\ abortController m = Some 1%nat
    /\ option_map childKilled (nth_error (invocations m) 0) = Some true
    /\ option_map signalAborted (nth_error (invocations m) 0) = Some true
    /\ option_map childClosed (nth_error (invocations m) 1) = Some false
    /\ results m = [] /\ statusEl m = StatusSearching
    /\ enabled (ChildClose 0 None stdoutTwo []) m = true
    /\ results (handle DEFAULT_SETTINGS (ChildClose 0 None stdoutTwo []) m)
       = [itemFile "a.md"; itemFile "b.md"]
    /\ statusEl (handle DEFAULT_SETTINGS (ChildClose 0 None stdoutTwo []) m)
       = StatusHidden
    /\ statusEl (handle DEFAULT_SETTINGS (ChildClose 0 None [] []) m)
       = StatusEmpty
    /\ statusEl (handle DEFAULT_SETTINGS
                        (ChildClose 0 (Some 1%Z) [] (js "boom")) m)
       = StatusError (js "boom")
    /\ statusEl (handle DEFAULT_SETTINGS
                        (ChildError 0 (js "spawn qmd ENOENT")) m)
       = StatusError (js "spawn qmd ENOENT").
Proof.
  eexists. split; [vm_compute; reflexivity|].
  repeat split.
Qed.

(** Claim C8, on the code.  The first of two searches is superseded, its
    child still delivers two results, the user moves the selection to the
    last of them, and then the second child delivers one result: the
    handler replaces [results] and leaves [selectedIndex] at 1, which is
    no index into a list of length 1. *)
Theorem selection_out_of_range_is_reachable :
  exists m,
    run DEFAULT_SETTINGS staleThenFresh opened = Some m
    /\ Reachable DEFAULT_SETTINGS m
    /\ results m = [itemFile "c.md"]
    /\ selectedIndex m = 1%Z
    /\ ~ selectionValid m.
Proof.
  destruct (run DEFAULT_SETTINGS staleThenFresh opened) as [m|] eqn:E;
    [|vm_compute in E; discriminate].
  exists m. split; [reflexivity|].
  split; [eapply run_Reachable; [apply ReachOpened | exact E]|].
  vm_compute in E. inversion E; subst m; clear E.
  split; [reflexivity|]. split; [reflexivity|].
  unfold selectionValid. cbn. lia.
Qed.

End InvocationFacts.

Module StringFacts.
Import JSString.

Lemma startsWith_app p rest : startsWith (p ++ rest) p = true.
Proof.
  induction p as [|c p IH]; cbn; [now destruct rest|].
  now rewrite N.eqb_refl, IH.
Qed.

Lemma startsWith_prefix s p :
  startsWith s p = true -> exists rest, s = p ++ rest.
Proof.
  revert s. induction p as [|c p IH]; intros s H; cbn in *.
  - now exists s.
  - destruct s as [|x s]; [discriminate|].
    apply andb_true_iff in H. destruct H as [Hx Hp].
    apply N.eqb_eq in Hx. subst x.
    destruct (IH _ Hp) as [rest ->]. now exists rest.
Qed.

Lemma clampIndex_inside len k :
  (0 <= k <= len)%Z -> clampIndex len k = k.
Proof.
  intros H. unfold clampIndex.
  destruct (k <? 0)%Z eqn:E; [apply Z.ltb_lt in E; lia | lia].
Qed.

Lemma slice_inside s a b :
  (0 <= a <= b)%Z -> (b <= Z.of_nat (length s))%Z ->
  slice s a b = firstn (Z.to_nat (b - a)) (skipn (Z.to_nat a) s).
Proof.
  intros H1 H2. unfold slice. now rewrite !clampIndex_inside by lia.
Qed.

Lemma sliceFrom_app p rest :
  sliceFrom (p ++ rest) (Z.of_nat (length p)) = rest.
Proof.
  unfold sliceFrom. rewrite slice_inside by (rewrite ?length_app; lia).
  rewrite length_app, Nat2Z.id.
  replace (Z.to_nat (Z.of_nat (length p + length rest) - Z.of_nat (length p)))
    with (length rest) by lia.
  rewrite skipn_app, skipn_all, Nat.sub_diag. cbn.
  apply firstn_all.
Qed.



Lemma split_nonempty sep s : split sep s <> [].
Proof.
  destruct s as [|c s]; cbn; [discriminate|].
  destruct (c =? sep); [discriminate|].
  destruct (split sep s); discriminate.
Qed.

Lemma pop_split_no_sep sep s :
  ~ In sep s -> pop (split sep s) = Some s.
Proof.
  induction s as [|c s IH]; intros H; cbn; [reflexivity|].
  destruct (c =? sep) eqn:E.
  { apply N.eqb_eq in E. subst. exfalso. apply H. now left. }
  assert (Hs : ~ In sep s) by (intros X; apply H; now right).
  specialize (IH Hs).
  destruct (split sep s) as [|seg segs] eqn:Es.
  { now destruct (split_nonempty _ _ Es). }
  destruct segs as [|seg2 segs].
  - cbn in IH. inversion IH. subst. reflexivity.
  - (* impossible: no separator gives one segment *)
    exfalso. clear H E.
    assert (Hone : forall t, ~ In sep t -> length (split sep t) = 1%nat).
    { clear. induction t as [|x t IHt]; intros Ht; cbn; [reflexivity|].
      destruct (x =? sep) eqn:E.
      { apply N.eqb_eq in E. subst. exfalso. apply Ht. now left. }
      assert (Ht' : ~ In sep t) by (intros X; apply Ht; now right).
      specialize (IHt Ht').
      destruct (split sep t) as [|a [|b l]]; cbn in *; try lia. }
    specialize (Hone s Hs). rewrite Es in Hone. cbn in Hone. lia.
Qed.

Lemma pop_cons (A : Type) (x y : A) l : pop (x :: y :: l) = pop (y :: l).
Proof. reflexivity. Qed.

Lemma pop_split_app sep dir seg :
  pop (split sep (dir ++ sep :: seg)) = pop (split sep seg).
Proof.
  induction dir as [|c dir IH]; cbn [app split].
  - rewrite N.eqb_refl.
    destruct (split sep seg) as [|a l] eqn:E.
    { now destruct (split_nonempty _ _ E). }
    reflexivity.
  - destruct (c =? sep).
    + destruct (split sep (dir ++ sep :: seg)) as [|a l] eqn:E.
      { now destruct (split_nonempty _ _ E). }
      rewrite pop_cons. exact IH.
    + destruct (split sep (dir ++ sep :: seg)) as [|a l] eqn:E.
      { now destruct (split_nonempty _ _ E). }
      destruct l as [|b l].
      * (* one segment only: impossible, there is a separator *)
        exfalso.
        assert (Htwo : forall d, (2 <= length (split sep (d ++ sep :: seg)))%nat).
        { clear. induction d as [|x d IHd]; cbn [app split].
          - rewrite N.eqb_refl. cbn.
            destruct (split sep seg) eqn:E;
              [now destruct (split_nonempty _ _ E)|]. cbn. lia.
          - destruct (x =? sep); [cbn; lia|].
            destruct (split sep (d ++ sep :: seg)) as [|a [|b l]];
              cbn in *; lia. }
        specialize (Htwo dir). rewrite E in Htwo. cbn in Htwo. lia.
      * rewrite !pop_cons. rewrite <- IH. now rewrite pop_cons.
Qed.

(** ["/"]-separated paths: the last segment. *)
Lemma pop_split_last dir seg :
  ~ In 47 seg -> pop (split 47 (dir ++ 47 :: seg)) = Some seg.
Proof.
  intros H. rewrite pop_split_app. now apply pop_split_no_sep.
Qed.


Lemma replaceSpaceRuns_inside sp r :
  forallb isWhiteSpace sp = true ->
  replaceSpaceRuns true (sp ++ r) = replaceSpaceRuns true r.
Proof.
  induction sp as [|c sp IH]; intros H; cbn in *; [reflexivity|].
  apply andb_true_iff in H. destruct H as [Hc Hs]. rewrite Hc. now apply IH.
Qed.


End StringFacts.

Module ReconcilerFacts.
Import JSString Paths StringFacts.

Lemma cleanFilePath_scheme collection rest :
  cleanFilePath collection (js "qmd://" ++ collection ++ js "/" ++ rest)
  = rest.
Proof.
  unfold cleanFilePath.
  replace (js "qmd://" ++ collection ++ js "/" ++ rest)
    with ((js "qmd://" ++ collection ++ js "/") ++ rest)
    by (now rewrite <- !app_assoc).
  rewrite startsWith_app. apply sliceFrom_app.
Qed.

Lemma cleanFilePath_collection collection rest :
  startsWith (collection ++ js "/" ++ rest)
             (js "qmd://" ++ collection ++ js "/") = false ->
  cleanFilePath collection (collection ++ js "/" ++ rest) = rest.
Proof.
  intros H. unfold cleanFilePath. rewrite H.
  replace (collection ++ js "/" ++ rest)
    with ((collection ++ js "/") ++ rest) by (now rewrite <- !app_assoc).
  rewrite startsWith_app. apply sliceFrom_app.
Qed.

Lemma cleanFilePath_plain collection raw :
  startsWith raw (js "qmd://" ++ collection ++ js "/") = false ->
  startsWith raw (collection ++ js "/") = false ->
  cleanFilePath collection raw = raw.
Proof.
  intros H1 H2. unfold cleanFilePath. now rewrite H1, H2.
Qed.


Lemma bareName_flat s : ~ In 47 s -> bareName s = stripMd s.
Proof.
  intros H. unfold bareName. now rewrite pop_split_no_sep.
Qed.

Section Loops.
Variable test : TFile -> bool.
Variable P : TFile -> Prop.
Hypothesis test_spec : forall f, test f = true <-> P f.

Lemma firstFile_first files f :
  FirstWith P files f -> firstFile test files = Some (path f).
Proof.
  intros (before & after & -> & Hf & Hb).
  induction before as [|g before IH]; cbn.
  - apply test_spec in Hf. now rewrite Hf.
  - inversion Hb as [|? ? Hg Hb']; subst.
    destruct (test g) eqn:E; [apply test_spec in E; contradiction|].
    now apply IH.
Qed.


Lemma firstFile_some files p :
  firstFile test files = Some p ->
  exists f, FirstWith P files f /\ p = path f.
Proof.
  induction files as [|g files IH]; cbn; [discriminate|].
  destruct (test g) eqn:E.
  - intros H. inversion H; subst. exists g. split; [|reflexivity].
    exists [], files. repeat split; [now apply test_spec | constructor].
  - intros H. destruct (IH H) as (f & (before & after & -> & Hf & Hb) & ->).
    exists f. split; [|reflexivity].
    exists (g :: before), after. repeat split; auto.
    constructor; [|exact Hb]. intros Hg. apply test_spec in Hg. congruence.
Qed.

End Loops.

Section Reconciler.
Variable toLowerCase : jsstring -> jsstring.
Variable collection : jsstring.
Variable files : list TFile.
Variable raw : jsstring.

Let bare := qmdFilenameOf toLowerCase collection raw.
Let full := qmdFullNormOf toLowerCase collection raw.
Let BaseEq := BaseNameEq toLowerCase collection raw.

Lemma baseNameMatches_spec f :
  baseNameMatches toLowerCase bare f = true <-> BaseEq f.
Proof. apply jsstring_eqb_eq. Qed.


Lemma resolve_unfold :
  resolveVaultFile toLowerCase collection files raw
  = if jsstring_eqb bare [] then None
    else match firstFile (baseNameMatches toLowerCase bare) files with
         | Some p => Some p
         | None => firstFile (fullPathMatches toLowerCase full) files
         end.
Proof. reflexivity. Qed.


(** Claim C5, as amended.  When two or more entries share the normalized
    base name of the reference, and that name is not empty, the reconciler
    answers the first of them in the order of the collection.  No full
    path is compared, and the answer is never [null]. *)
Theorem resolveVaultFile_duplicate_base_names :
  forall before f between g after,
    files = before ++ f :: between ++ g :: after ->
    qmdFilenameOf toLowerCase collection raw <> [] ->
    BaseNameEq toLowerCase collection raw f ->
    BaseNameEq toLowerCase collection raw g ->
    Forall (fun h => ~ BaseNameEq toLowerCase collection raw h) before ->
    resolveVaultFile toLowerCase collection files raw = Some (path f).
Proof.
  intros before f between g after Hfiles Hne Hf Hg Hb.
  rewrite resolve_unfold. fold bare in Hne.
  apply jsstring_eqb_neq in Hne. rewrite Hne.
  rewrite (@firstFile_first _ _ baseNameMatches_spec _ f); [reflexivity|].
  exists before, (between ++ g :: after). auto.
Qed.

End Reconciler.

Import Samples.



Lemma resolveVaultFile_duplicate_base_names_witness :
  resolveAscii twoDocs (js "Doc.md") = Some (js "A/Doc.md").
Proof.
  apply (@resolveVaultFile_duplicate_base_names asciiToLowerCase
           (js "obsidian") twoDocs (js "Doc.md")
           [] (mdFile "A/" "Doc") [] (mdFile "B/" "Doc") []).
  - reflexivity.
  - vm_compute. discriminate.
  - reflexivity.
  - reflexivity.
  - constructor.
Defined.

(** Claim C5 as stated fails: two entries share the base name of a
    reference that has no path component, no full path matches, and the
    answer is the first entry, not [null]. *)
Lemma resolveVaultFile_ambiguous_not_null :
  BaseNameEq asciiToLowerCase (js "obsidian") (js "Doc.md") (mdFile "A/" "Doc")
  /\ BaseNameEq asciiToLowerCase (js "obsidian") (js "Doc.md")
                (mdFile "B/" "Doc")
  /\ ~ In 47 (js "Doc.md")
  /\ Forall (fun f => ~ FullPathEq asciiToLowerCase (js "obsidian")
                                   (js "Doc.md") f) twoDocs
  /\ resolveAscii twoDocs (js "Doc.md") = Some (js "A/Doc.md")
  /\ resolveAscii twoDocs (js "Doc.md") <> None.
Proof.
  repeat split; try (vm_compute; discriminate).
  - cbn. intuition discriminate.
  - repeat constructor; vm_compute; discriminate.
Qed.

End ReconcilerFacts.

Module EscapingFacts.
Import Sanitize JSON Escaping SanitizeFacts.

Lemma prepend_nil (o : option (list token)) :
  match o with None => None | Some ts => Some ([] ++ ts) end = o.
Proof. now destruct o. Qed.

Lemma prepend_id (o : option (list token)) :
  match o with Some ts => Some ts | None => None end = o.
Proof. now destruct o. Qed.

Lemma escapeChar_not_u x c : escapeChar x = Some c -> (x =? 117) = false.
Proof.
  intros H. destruct (x =? 117) eqn:E; [|reflexivity].
  apply N.eqb_eq in E. subst. discriminate.
Qed.

Lemma isHexDigit_plain d :
  isHexDigit d = true -> plainChar d = true.
Proof.
  unfold isHexDigit, plainChar, dquote, backslash. intros H.
  rewrite !orb_true_iff, !andb_true_iff, !N.leb_le in H.
  rewrite !andb_true_iff, !negb_true_iff, N.ltb_ge, !N.eqb_neq. lia.
Qed.

(** In a string, the strict lexer reads a correct escape of [c] as [c]. *)
Lemma lex_escape c esc :
  EscapeOf c esc ->
  forall acc o,
    lexFrom false (LString acc) (esc ++ o)
    = lexFrom false (LString (c :: acc)) o.
Proof.
  intros [x Hx | d1 d2 d3 d4 Hh Hv] acc o.
  - cbn [app lexFrom lexStep]. cbn.
    rewrite (escapeChar_not_u _ Hx), Hx.
    rewrite ?prepend_nil, ?prepend_id. reflexivity.
  - cbn in Hh. rewrite !andb_true_iff in Hh.
    destruct Hh as (H1 & H2 & H3 & H4 & _).
    cbn [app lexFrom lexStep]. cbn.
    rewrite H1; cbn. rewrite H2; cbn. rewrite H3; cbn. rewrite H4; cbn.
    rewrite Hv, !prepend_id. reflexivity.
Qed.

Lemma startStep_mode c ts st :
  startStep c = Some (ts, st) ->
  modeOf st = (if c =? dquote then Inside else Outside) /\ wfState st.
Proof.
  unfold startStep.
  destruct (c =? dquote) eqn:Hq.
  { apply N.eqb_eq in Hq. subst. cbn. intros H. inversion H. now subst. }
  repeat match goal with
         | |- context [if ?b then _ else _] => destruct b
         end;
    intros H; inversion H; subst; cbn; split; auto;
    unfold dquote; intuition discriminate.
Qed.

Lemma numStep_not_quote ph a : numStep ph a dquote = None.
Proof. destruct ph; reflexivity. Qed.

(** On a character that the sanitizer copies, the strict lexer moves as
    the lenient one, and the scan follows. *)
Lemma lexStep_copy st c ts st' :
  wfState st ->
  (modeOf st = Inside -> 32 <= c) ->
  lexStep true st c = Some (ts, st') ->
  lexStep false st c = Some (ts, st')
  /\ modeOf st' = snd (scanStep (modeOf st) c)
  /\ wfState st'.
Proof.
  intros Hwf Hc H. destruct st as [|acc|acc|acc n v|ph a|rest t]; cbn in *.
  - split; [exact H|]. apply startStep_mode in H. exact H.
  - specialize (Hc eq_refl). apply N.ltb_ge in Hc. rewrite Hc in *. cbn in *.
    destruct (c =? dquote) eqn:Hq.
    { apply N.eqb_eq in Hq. subst c. inversion H; subst. cbn. auto. }
    destruct (c =? backslash); inversion H; subst; cbn; auto.
  - split; [exact H|].
    destruct (c =? 117); [inversion H; subst; cbn; auto|].
    destruct (escapeChar c); inversion H; subst; cbn; auto.
  - split; [exact H|].
    destruct (isHexDigit c) eqn:Hh; [|discriminate].
    apply isHexDigit_plain in Hh. unfold plainChar in Hh.
    rewrite !andb_true_iff, !negb_true_iff in Hh.
    destruct Hh as [[H1 H2] H3]. rewrite H3, H2, H1. cbn.
    destruct (n =? 3)%nat; inversion H; subst; cbn; auto.
  - split; [exact H|].
    destruct (numStep ph a c) as [[ph' a']|] eqn:Hn.
    + inversion H; subst. cbn.
      destruct (c =? dquote) eqn:Hq; [|auto].
      apply N.eqb_eq in Hq. subst. now rewrite numStep_not_quote in Hn.
    + destruct (numAccepting ph); [|discriminate].
      destruct (startStep c) as [[ts0 st0]|] eqn:Hs; [|discriminate].
      inversion H; subst. apply startStep_mode in Hs. exact Hs.
  - split; [exact H|].
    destruct rest as [|e rest']; [discriminate|].
    destruct (c =? e) eqn:He; [|discriminate].
    apply N.eqb_eq in He. subst e.
    assert (Hq : (c =? dquote) = false).
    { apply N.eqb_neq. intros ->. apply Hwf. now left. }
    rewrite Hq.
    destruct rest'; inversion H; subst; cbn; auto.
    split; [reflexivity|]. intros X. apply Hwf. now right.
Qed.

(** The strict lexer reads the escaped text as the lenient lexer reads
    the raw one. *)
Lemma lex_manually_escaped m raw escaped :
  ManuallyEscaped m raw escaped ->
  forall st ts,
    modeOf st = m -> wfState st ->
    lexFrom true st raw = Some ts ->
    lexFrom false st escaped = Some ts.
Proof.
  induction 1 as [m | c esc r o Hc He _ IH | m c r o Hc _ IH];
    intros st ts Hm Hwf Hlex.
  - exact Hlex.
  - cbn [lexFrom] in Hlex.
    destruct st as [|acc|acc|acc n v|ph a|rest t]; try discriminate.
    + cbn [lexStep] in Hlex.
      assert (Hq : (c =? dquote) = false)
        by (apply N.eqb_neq; unfold dquote; lia).
      assert (Hb : (c =? backslash) = false)
        by (apply N.eqb_neq; unfold backslash; lia).
      rewrite Hq, Hb, andb_false_r in Hlex. cbn [app] in Hlex.
      rewrite ?prepend_nil, ?prepend_id in Hlex.
      rewrite (lex_escape He). now apply IH.
    + cbn [lexStep] in Hlex.
      destruct (isHexDigit c) eqn:Hh; [|discriminate].
      apply isHexDigit_plain in Hh. unfold plainChar in Hh.
      rewrite !andb_true_iff, !negb_true_iff in Hh.
      destruct Hh as [[H1 _] _]. apply N.ltb_ge in H1. lia.
  - cbn [lexFrom] in *.
    destruct (lexStep true st c) as [[tk st']|] eqn:Hs; [|discriminate].
    subst m. destruct (@lexStep_copy _ _ _ _ Hwf Hc Hs) as (Hs' & Hm' & Hwf').
    rewrite Hs'.
    destruct (lexFrom true st' r) as [ts'|] eqn:Hr; [|discriminate].
    rewrite (IH st' ts' Hm' Hwf' Hr). exact Hlex.
Qed.

(** What the sanitizer writes is one way of escaping by hand. *)
Lemma Sanitizes_ManuallyEscaped m raw out :
  Sanitizes m raw out -> ManuallyEscaped m raw out.
Proof.
  induction 1.
  - constructor.
  - apply ME_copy; [discriminate | exact IHSanitizes].
  - apply ME_copy; [discriminate|]. cbn.
    apply N.eqb_neq in H. now rewrite H.
  - apply (ME_control (esc := [backslash; 110]));
      [reflexivity | now apply Esc_short | assumption].
  - apply (ME_control (esc := [backslash; 114]));
      [reflexivity | now apply Esc_short | assumption].
  - apply (ME_control (esc := [backslash; 116]));
      [reflexivity | now apply Esc_short | assumption].
  - apply (ME_control (esc := [backslash; 117; d1; d2; d3; d4]));
      [assumption | now apply Esc_unicode | assumption].
  - apply ME_copy; [intros _; unfold backslash; lia | exact IHSanitizes].
  - apply ME_copy; [discriminate | exact IHSanitizes].
  - apply ME_copy; [intros _; unfold dquote; lia | exact IHSanitizes].
  - apply ME_copy; [auto|]. cbn.
    apply N.eqb_neq in H0, H1. rewrite H0, H1.
    apply N.ltb_ge in H. now rewrite H.
Qed.

Lemma ManuallyEscaped_copied w :
  forall m r o,
    copied m w = true ->
    ManuallyEscaped (scanAfter m w) r o ->
    ManuallyEscaped m (w ++ r) (w ++ o).
Proof.
  induction w as [|c w IH]; intros m r o Hc H; cbn in *; [exact H|].
  apply ME_copy.
  - intros ->. apply andb_true_iff in Hc. destruct Hc as [Hc _].
    apply negb_true_iff, N.ltb_ge in Hc. exact Hc.
  - apply IH; [|exact H].
    destruct m; auto. apply andb_true_iff in Hc. tauto.
Qed.

Lemma parse_manually_escaped raw escaped v :
  ManuallyEscaped Outside raw escaped ->
  parseLenient raw = Some v -> parse escaped = Some v.
Proof.
  unfold parseLenient, parse, parseWith. intros Hme Hp.
  destruct (lexFrom true LStart raw) as [ts|] eqn:Hl; [|discriminate].
  now rewrite (lex_manually_escaped Hme LStart eq_refl I Hl).
Qed.

Lemma parse_sanitized raw v :
  parseLenient raw = Some v -> parse (sanitizeJson raw) = Some v.
Proof.
  rewrite sanitizeJson_scan.
  apply parse_manually_escaped, Sanitizes_ManuallyEscaped, scan_Sanitizes.
Qed.

End EscapingFacts.

Module LocateFacts.
Import JSString Session StringFacts.

Lemma indexOfFrom_spec c s :
  forall i,
    (~ In c s /\ indexOfFrom c s i = (-1)%Z)
    \/ (exists pre post,
          s = pre ++ c :: post /\ ~ In c pre
          /\ indexOfFrom c s i = (i + Z.of_nat (length pre))%Z).
Proof.
  induction s as [|x s IH]; intros i; cbn.
  - left. auto.
  - destruct (x =? c) eqn:E.
    + apply N.eqb_eq in E. subst x. right. exists [], s. cbn.
      repeat split; auto. lia.
    + apply N.eqb_neq in E.
      destruct (IH (i + 1)%Z) as [[Hn Hi] | (pre & post & -> & Hn & Hi)].
      * left. split; [|exact Hi]. intros [H|H]; auto.
      * right. exists (x :: pre), post. cbn [app length].
        repeat split; [|rewrite Hi; lia]. intros [H|H]; auto.
Qed.

Lemma lastIndexOfFrom_spec c s :
  forall i found,
    (~ In c s /\ lastIndexOfFrom c s i found = found)
    \/ (exists pre post,
          s = pre ++ c :: post /\ ~ In c post
          /\ lastIndexOfFrom c s i found = (i + Z.of_nat (length pre))%Z).
Proof.
  induction s as [|x s IH]; intros i found; cbn.
  - left. auto.
  - destruct (IH (i + 1)%Z (if x =? c then i else found))
      as [[Hn Hi] | (pre & post & -> & Hn & Hi)].
    + destruct (x =? c) eqn:E.
      * apply N.eqb_eq in E. subst x. right. exists [], s. cbn.
        repeat split; auto. rewrite Hi. lia.
      * apply N.eqb_neq in E. left. split; [|exact Hi].
        intros [H|H]; auto.
    + right. exists (x :: pre), post. cbn [app length].
      repeat split; auto. rewrite Hi. lia.
Qed.

Lemma app_cons_split (A : Type) (a b : A) :
  forall pre rest pre' post,
    pre ++ a :: rest = pre' ++ b :: post ->
    (length pre < length pre')%nat ->
    exists body, pre' = pre ++ a :: body /\ rest = body ++ b :: post.
Proof.
  induction pre as [|x pre IH]; intros rest pre' post H Hlen.
  - destruct pre' as [|y pre']; [cbn in Hlen; lia|].
    cbn in H. inversion H; subst. now exists pre'.
  - destruct pre' as [|y pre']; [cbn in Hlen; lia|].
    cbn in H. inversion H; subst.
    destruct (IH rest pre' post H2) as (body & -> & ->);
      [cbn in Hlen; lia|].
    now exists body.
Qed.

(** The text found by the handler: nothing when a bracket is missing;
    else the text from the first [[] to the last []], which is empty when
    the last []] comes before the first [[]. *)
Lemma locateArray_spec stdout :
  ((~ In 91 stdout \/ ~ In 93 stdout) /\ locateArray stdout = None)
  \/ (In 91 stdout /\ In 93 stdout
      /\ (locateArray stdout = Some []
          \/ exists pre body post,
               stdout = pre ++ 91 :: body ++ 93 :: post
               /\ ~ In 91 pre /\ ~ In 93 post
               /\ locateArray stdout = Some (91 :: body ++ [93]))).
Proof.
  unfold locateArray, indexOf, lastIndexOf.
  destruct (indexOfFrom_spec 91 stdout 0)
    as [[Hn Hi] | (pre & rest & E & Hn & Hi)].
  { left. rewrite Hi. cbn. auto. }
  destruct (lastIndexOfFrom_spec 93 stdout 0 (-1))
    as [[Hn' Hj] | (pre' & post & E' & Hn' & Hj)].
  { left. rewrite Hj. rewrite Z.eqb_refl, orb_true_r. auto. }
  right.
  split; [rewrite E; apply in_or_app; right; now left|].
  split; [rewrite E'; apply in_or_app; right; now left|].
  rewrite Hi, Hj.
  replace ((0 + Z.of_nat (length pre) =? -1)%Z) with false
    by (symmetry; apply Z.eqb_neq; lia).
  replace ((0 + Z.of_nat (length pre') =? -1)%Z) with false
    by (symmetry; apply Z.eqb_neq; lia).
  cbn [orb].
  assert (Hlen : length stdout = (length pre + S (length rest))%nat)
    by (rewrite E, length_app; reflexivity).
  assert (Hlen' : length stdout = (length pre' + S (length post))%nat)
    by (rewrite E', length_app; reflexivity).
  destruct (Nat.lt_ge_cases (length pre) (length pre')) as [Hlt | Hge].
  - right.
    assert (E2 : pre ++ 91 :: rest = pre' ++ 93 :: post)
      by (transitivity stdout; [symmetry; exact E | exact E']).
    destruct (@app_cons_split _ _ _ _ _ _ _ E2 Hlt) as (body & -> & ->).
    exists pre, body, post. repeat split; auto.
    clear E2. rewrite !length_app in *. cbn [length] in *.
    rewrite slice_inside by lia.
    rewrite E. f_equal.
    replace (Z.to_nat (0 + Z.of_nat (length pre))) with (length pre) by lia.
    rewrite skipn_app, skipn_all, Nat.sub_diag. cbn [skipn app].
    replace (Z.to_nat
               (0 + Z.of_nat (length pre + S (length body)) + 1
                - (0 + Z.of_nat (length pre))))
      with (S (length (body ++ [93]))) by (rewrite length_app; cbn; lia).
    cbn [firstn]. f_equal.
    replace (body ++ 93 :: post) with ((body ++ [93]) ++ post)
      by (now rewrite <- app_assoc).
    rewrite firstn_app, firstn_all, Nat.sub_diag. cbn. apply app_nil_r.
  - left. f_equal. unfold slice.
    rewrite !clampIndex_inside by lia.
    replace (Z.to_nat
               (0 + Z.of_nat (length pre') + 1 - (0 + Z.of_nat (length pre))))
      with O; [reflexivity|].
    assert (length pre <> length pre').
    { intros Heq.
      assert (X : nth_error stdout (length pre) = Some 91)
        by (rewrite E, nth_error_app2, Nat.sub_diag by lia; reflexivity).
      rewrite E', Heq, nth_error_app2, Nat.sub_diag in X by lia.
      discriminate. }
    lia.
Qed.


End LocateFacts.

Module ParserFacts.
Import Sanitize JSON Escaping SanitizeFacts.

#[local] Arguments complete : simpl never.

Lemma bottomFrame_cons f g l : bottomFrame (f :: g :: l) = bottomFrame (g :: l).
Proof. reflexivity. Qed.

Lemma bottomFrame_some f l : exists b, bottomFrame (f :: l) = Some b.
Proof.
  revert f. induction l as [|g l IH]; intros f.
  - now exists f.
  - rewrite bottomFrame_cons. apply IH.
Qed.

Lemma outerArray_nonempty f l st :
  outerArray (f :: l) st = bottomIsArr (f :: l).
Proof.
  unfold outerArray, bottomIsArr.
  destruct (bottomFrame_some f l) as [b ->]. now destruct b.
Qed.

Lemma bottomIsArr_push f g l :
  bottomIsArr (f :: g :: l) = bottomIsArr (g :: l).
Proof. reflexivity. Qed.

Lemma complete_outer f l v :
  bottomIsArr (f :: l) = true ->
  outerArray (fst (complete (f :: l) v)) (snd (complete (f :: l) v)) = true.
Proof.
  intros H. unfold complete. destruct l as [|g l].
  - destruct f; [reflexivity | discriminate].
  - destruct f; cbn [fst snd]; now rewrite outerArray_nonempty.
Qed.

Lemma valueStep_cases stack t r :
  valueStep stack t = Some r ->
  (exists v, r = complete stack v)
  \/ r = (stack, EArrFirst) \/ r = (stack, EObjFirst).
Proof.
  destruct t; cbn; intros E; inversion E; eauto.
Qed.

Lemma valueStep_outer f l t stack' st' :
  bottomIsArr (f :: l) = true ->
  valueStep (f :: l) t = Some (stack', st') ->
  outerArray stack' st' = true.
Proof.
  intros H E.
  destruct (@valueStep_cases _ _ _ E) as [[v Ev] | [Ev | Ev]].
  - pose proof (@complete_outer _ _ v H) as X. now rewrite <- Ev in X.
  - inversion Ev; subst. now rewrite outerArray_nonempty.
  - inversion Ev; subst. now rewrite outerArray_nonempty.
Qed.

Lemma parseStep_outer stack st t stack' st' :
  outerArray stack st = true ->
  parseStep stack st t = Some (stack', st') ->
  outerArray stack' st' = true.
Proof.
  intros H E. destruct stack as [|f l].
  - destruct st; try discriminate; cbn [parseStep] in E.
    + destruct t; try (apply (@valueStep_outer (FArr []) [] _ _ _ eq_refl E)).
      inversion E. reflexivity.
    + destruct t; try discriminate; inversion E; reflexivity.
  - rewrite outerArray_nonempty in H.
    destruct st; cbn [parseStep] in E.
    + apply (@valueStep_outer _ _ _ _ _ H E).
    + destruct t;
        try (apply (@valueStep_outer (FArr []) (f :: l) _ _ _ H E)).
      pose proof (@complete_outer _ _ (JArray []) H) as X.
      inversion E as [E1]. now rewrite E1 in X.
    + destruct t; try discriminate.
      * pose proof (@complete_outer _ _ (JArray (rev elems)) H) as X.
        inversion E as [E1]. now rewrite E1 in X.
      * inversion E; subst. now rewrite outerArray_nonempty.
    + destruct t; try discriminate.
      * pose proof (@complete_outer _ _ (JObject []) H) as X.
        inversion E as [E1]. now rewrite E1 in X.
      * inversion E; subst. now rewrite outerArray_nonempty.
    + destruct t; try discriminate.
      inversion E; subst. now rewrite outerArray_nonempty.
    + destruct t; try discriminate.
      inversion E; subst. now rewrite outerArray_nonempty.
    + destruct t; try discriminate.
      * pose proof (@complete_outer _ _ (JObject (rev members)) H) as X.
        inversion E as [E1]. now rewrite E1 in X.
      * inversion E; subst. now rewrite outerArray_nonempty.
    + discriminate.
Qed.

Lemma parseTokens_outer ts :
  forall stack st v,
    outerArray stack st = true ->
    parseTokens stack st ts = Some v -> isArray v = true.
Proof.
  induction ts as [|t ts IH]; intros stack st v H E; cbn in E.
  - destruct st; try discriminate. destruct stack; [|discriminate].
    inversion E; subst. cbn in H. now destruct v.
  - destruct (parseStep stack st t) as [[stack' st']|] eqn:Es; [|discriminate].
    eapply IH; [|exact E]. eapply parseStep_outer; eauto.
Qed.

(** A text whose first character is [[] parses, if at all, to an array. *)
Lemma parseWith_bracket lenient r v :
  parseWith lenient (91 :: r) = Some v -> isArray v = true.
Proof.
  unfold parseWith. cbn [lexFrom lexStep]. cbn.
  destruct (lexFrom lenient LStart r) as [ts|]; [|discriminate].
  cbn. apply parseTokens_outer. reflexivity.
Qed.

Lemma parseWith_empty lenient : parseWith lenient [] = None.
Proof. reflexivity. Qed.

End ParserFacts.

Module RecoveryFacts.
Import JSString Sanitize JSON Escaping Session.
Import SanitizeFacts EscapingFacts ParserFacts LocateFacts.

Lemma sanitizeJson_nil : sanitizeJson [] = [].
Proof. reflexivity. Qed.

Lemma sanitizeJson_bracket r :
  sanitizeJson (91 :: r) = 91 :: scanFrom Outside r.
Proof. now rewrite sanitizeJson_scan. Qed.

(** What the handler hands to [JSON.parse] is empty or starts with [[];
    so whatever it parses to is an array. *)
Lemma located_parse_array stdout sub parsed :
  locateArray stdout = Some sub ->
  JSON.parse (sanitizeJson sub) = Some parsed ->
  isArray parsed = true.
Proof.
  intros Hl Hp.
  destruct (locateArray_spec stdout) as [[_ E] | (_ & _ & [E | E])].
  - congruence.
  - rewrite E in Hl. inversion Hl; subst. discriminate.
  - destruct E as (pre & body & post & _ & _ & _ & E).
    rewrite E in Hl. inversion Hl; subst.
    rewrite sanitizeJson_bracket in Hp.
    now apply parseWith_bracket in Hp.
Qed.

Lemma truthy_optionalString v :
  optionalString v = true -> isString (if truthy v then v else None) = truthy v.
Proof.
  destruct v as [[]|]; cbn; try discriminate; try reflexivity.
  intros _. now destruct (jsstring_eqb s []).
Qed.

Lemma snippet_source_string a b :
  optionalString a = true -> optionalString b = true ->
  exists s, orElse (orElse a b) (Some (JString [])) = Some (JString s).
Proof.
  unfold orElse.
  destruct a as [[]|]; try discriminate; destruct b as [[]|];
    try discriminate; intros _ _; cbn;
    repeat (match goal with
            | |- context [jsstring_eqb ?x []] =>
                destruct (jsstring_eqb x []) eqn:?
            end; cbn);
    rewrite ?Heqb, ?Heqb0; cbn; eauto.
Qed.

(** An item of the declared shape is rendered without an exception. *)
Lemma renderRow_shaped collection i item :
  isQmdResult item = true ->
  renderRow collection i item = Some (RowComplete i item).
Proof.
  intros H. destruct item; try discriminate.
  unfold isQmdResult in H. rewrite !andb_true_iff in H.
  destruct H as ((((((_ & Hs) & Hf) & Ht) & _) & Hc) & Hn).
  unfold renderRow.
  destruct (getProp (JObject members) (js "file")) as [[]|] eqn:Ef;
    try discriminate.
  destruct (getProp (JObject members) (js "score")) as [[]|] eqn:Es;
    try discriminate.
  destruct (snippet_source_string _ _ Hn Hc) as [sn Esn]. rewrite Esn.
  destruct (truthy (getProp (JObject members) (js "title"))); reflexivity.
Qed.





Lemma parseFailureMessage_nonempty settings :
  parseFailureMessage settings <> [].
Proof. discriminate. Qed.

Lemma showError_parseFailure settings m :
  showError (parseFailureMessage settings) m
  = setStatusEl (StatusError (parseFailureMessage settings)) m.
Proof. reflexivity. Qed.





(** Claim C4.  Let the text between the first [[] and the last []] of the
    raw output be a JSON array that is valid except for raw control
    characters inside its strings: the lenient reading of it succeeds,
    with value [v].  Let [escaped] be that text with every such character
    replaced by a correct JSON escape of it.  Then parsing the sanitized
    text gives what parsing [escaped] gives, namely the array [v]. *)
Theorem sanitize_then_parse_equivalent :
  forall stdout sub escaped v,
    locateArray stdout = Some sub ->
    parseLenient sub = Some v ->
    ManuallyEscaped Outside sub escaped ->
    JSON.parse (sanitizeJson sub) = JSON.parse escaped
    /\ JSON.parse escaped = Some v
    /\ isArray v = true.
Proof.
  intros stdout sub escaped v Hl Hv He.
  pose proof (@parse_sanitized _ _ Hv) as Hs.
  pose proof (@parse_manually_escaped _ _ _ He Hv) as Hm.
  split; [congruence|]. split; [exact Hm|].
  exact (@located_parse_array _ _ _ Hl Hs).
Qed.

Lemma sanitize_then_parse_equivalent_witness :
  JSON.parse (sanitizeJson stdoutRawControl) = JSON.parse arrayEscapedByHand
  /\ JSON.parse arrayEscapedByHand
     = Some (JArray
               [JObject
                  [(js "file", JString (js "n.md"));
                   (js "snippet",
                    JString (js "one" ++ [LF] ++ js "two" ++ [TAB]
                             ++ js "three"))]])
  /\ isArray (JArray
                [JObject
                   [(js "file", JString (js "n.md"));
                    (js "snippet",
                     JString (js "one" ++ [LF] ++ js "two" ++ [TAB]
                              ++ js "three"))]]) = true.
Proof.
  apply (@sanitize_then_parse_equivalent
           (js "Searching..." ++ [LF] ++ stdoutRawControl ++ [LF])
           stdoutRawControl arrayEscapedByHand).
  - reflexivity.
  - reflexivity.
  - unfold stdoutRawControl.
    change arrayEscapedByHand
      with (jsq "[{`file`:`n.md`,`snippet`:`one"
            ++ js "\u000A"
            ++ js "two" ++ js "\t" ++ jsq "three`}]").
    apply ManuallyEscaped_copied; [reflexivity|].
    apply (@ME_control LF (js "\u000A"));
      [reflexivity | now apply Esc_unicode |].
    apply ManuallyEscaped_copied; [reflexivity|].
    apply (@ME_control TAB (js "\t"));
      [reflexivity | now apply Esc_short |].
    rewrite <- (app_nil_r (jsq "three`}]")).
    apply ManuallyEscaped_copied; [reflexivity | constructor].
Defined.

End RecoveryFacts.

Module InvariantFacts.
Import JSString JSON Session.

Lemma updateAt_length k f l : length (updateAt k f l) = length l.
Proof.
  revert k. induction l as [|x l IH]; intros [|k]; cbn; auto.
Qed.

Lemma updateAt_nth k f l j :
  nth_error (updateAt k f l) j
  = if (j =? k)%nat then option_map f (nth_error l j) else nth_error l j.
Proof.
  revert k j. induction l as [|x l IH]; intros k j.
  - destruct k, j; cbn; try reflexivity; now destruct (j =? k)%nat.
  - destruct k, j; cbn; try reflexivity. apply IH.
Qed.

Lemma abortCurrent_fields m :
  results (abortCurrent m) = results m
  /\ selectedIndex (abortCurrent m) = selectedIndex m
  /\ resultsEl (abortCurrent m) = resultsEl m
  /\ abortController (abortCurrent m) = abortController m
  /\ length (invocations (abortCurrent m)) = length (invocations m)
  /\ (forall j inv',
        nth_error (invocations (abortCurrent m)) j = Some inv' ->
        exists inv, nth_error (invocations m) j = Some inv
                    /\ childClosed inv' = childClosed inv).
Proof.
  unfold abortCurrent. destruct (abortController m) as [k|] eqn:E; cbn.
  - rewrite E, updateAt_length. repeat split; auto.
    intros j inv'. rewrite updateAt_nth.
    destruct (j =? k)%nat; [|eauto].
    destruct (nth_error (invocations m) j) as [inv|]; [|discriminate].
    cbn. intros H. inversion H; subst. eauto.
  - repeat split; eauto.
Qed.

Lemma Inv_onClose m : Inv m -> Inv (onClose m).
Proof.
  intros (Hs & Hr & Hp & Ha).
  destruct (abortCurrent_fields m) as (R & S & _ & C & L & N).
  unfold onClose. split; [|split; [|split]].
  - unfold selectionValid in *. cbn. rewrite R, S. exact Hs.
  - intros p i item H. cbn in H. now destruct p.
  - intros k inv' H H0 H1. cbn in *.
    destruct (N _ _ H0) as (inv0 & Hn & Hc).
    rewrite C in H. rewrite Hc in H1.
    destruct (Hp _ _ H Hn H1) as (X & _ & Z). rewrite R, S. auto.
  - intros k H. cbn in *. rewrite L. apply Ha. now rewrite <- C.
Qed.

Lemma Inv_runSearch query m : Inv m -> Inv (runSearch query m).
Proof.
  intros HI. unfold runSearch.
  destruct (jsstring_eqb query []); [exact HI|].
  destruct HI as (Hs & Hr & Hp & Ha).
  split; [|split; [|split]].
  - now left.
  - intros p i item H. cbn in H. now destruct p.
  - intros k inv H H0 H1. cbn. auto.
  - intros k H. cbn in *. inversion H; subst.
    rewrite length_app. cbn. lia.
Qed.

Lemma Inv_moveSelection delta m : Inv m -> Inv (moveSelection delta m).
Proof.
  intros (Hs & Hr & Hp & Ha). unfold moveSelection.
  destruct (Z.of_nat (length (results m)) =? 0)%Z eqn:E0;
    [exact (conj Hs (conj Hr (conj Hp Ha)))|].
  apply Z.eqb_neq in E0.
  assert (Hpend : forall v, clearedWhilePending (setSelectedIndex v m)).
  { intros v k inv H1 H2 H3. cbn in *.
    destruct (Hp _ _ H1 H2 H3) as (X & _). rewrite X in E0. cbn in E0. lia. }
  destruct (selectedIndex m <? 0)%Z.
  - split; [|split; [exact Hr | split; [apply Hpend | exact Ha]]].
    right. cbn. destruct (delta >? 0)%Z; lia.
  - split; [|split; [exact Hr | split; [apply Hpend | exact Ha]]].
    right. cbn.
    destruct (selectedIndex m + delta <? 0)%Z eqn:E1.
    + destruct (Z.of_nat (length (results m)) - 1
                >=? Z.of_nat (length (results m)))%Z eqn:E2; lia.
    + apply Z.ltb_ge in E1.
      destruct (selectedIndex m + delta
                >=? Z.of_nat (length (results m)))%Z eqn:E2; [lia|].
      rewrite Z.geb_leb in E2. apply Z.leb_gt in E2. lia.
Qed.

Lemma Inv_deselect m : Inv m -> Inv (setSelectedIndex (-1) m).
Proof.
  intros (Hs & Hr & Hp & Ha).
  split; [now left|]. split; [exact Hr|]. split; [|exact Ha].
  intros k inv H1 H2 H3. cbn in *.
  destruct (Hp _ _ H1 H2 H3) as (X & Y & _). auto.
Qed.

Lemma Inv_setStatusEl s m : Inv m -> Inv (setStatusEl s m).
Proof. intros H. exact H. Qed.

Lemma Inv_openResult settings item m : Inv m -> Inv (openResult settings item m).
Proof.
  intros H. unfold openResult.
  destruct item as [[]|]; try exact H;
    destruct (callCleanFilePath _ _); try exact H; now apply Inv_onClose.
Qed.

Lemma Inv_keydown settings key isComposing value m :
  Inv m -> Inv (keydown settings key isComposing value m).
Proof.
  intros H. destruct key; cbn [keydown].
  - destruct isComposing; cbn [negb]; [exact H|].
    destruct ((selectedIndex m >=? 0)%Z && (0 <? length (results m))%nat).
    + now apply Inv_openResult.
    + now apply Inv_runSearch.
  - now apply Inv_moveSelection.
  - now apply Inv_moveSelection.
  - destruct (selectedIndex m >=? 0)%Z; [now apply Inv_deselect | exact H].
Qed.

(** The rows made by the loop select indices from [i] up to the end of
    the items. *)
Lemma renderLoop_bounded collection items :
  forall i rows bound,
    (i + length items <= bound)%nat ->
    (forall p j item, nth_error rows p = Some (RowComplete j item) ->
                      (j < bound)%nat) ->
    forall p j item,
      nth_error (fst (renderLoop collection i items rows)) p
      = Some (RowComplete j item) ->
      (j < bound)%nat.
Proof.
  induction items as [|it items IH]; intros i rows bound Hb Hrows p j item;
    cbn [renderLoop].
  - apply Hrows.
  - destruct (renderRow collection i it) as [row|] eqn:Er.
    + apply IH; [cbn in Hb; lia|].
      intros p' j' item' H.
      destruct (Nat.lt_ge_cases p' (length rows)) as [Hlt|Hge].
      * rewrite nth_error_app1 in H by exact Hlt. eapply Hrows; eauto.
      * rewrite nth_error_app2 in H by exact Hge.
        destruct (p' - length rows)%nat as [|[|q]]; cbn in H;
          try discriminate.
        inversion H; subst.
        unfold renderRow in Er. destruct it; try discriminate;
          unfold andThen in Er;
          repeat match type of Er with
                 | match ?x with _ => _ end = _ =>
                     destruct x; try discriminate
                 end;
          inversion Er; subst; cbn in Hb; lia.
    + cbn [fst]. intros H.
      destruct (Nat.lt_ge_cases p (length rows)) as [Hlt|Hge].
      * rewrite nth_error_app1 in H by exact Hlt. eapply Hrows; eauto.
      * rewrite nth_error_app2 in H by exact Hge.
        destruct (p - length rows)%nat as [|[|q]]; cbn in H; discriminate.
Qed.

(** What the [try] block does to a modal that shows nothing and selects
    nothing. *)
Lemma recover_cleared settings stdout m :
  results m = [] -> resultsEl m = [] -> selectedIndex m = (-1)%Z ->
  let m' := recover settings stdout m in
  selectedIndex m' = (-1)%Z /\ rowsBounded m'
  /\ abortController m' = abortController m
  /\ invocations m' = invocations m.
Proof.
  intros R E S. unfold recover.
  destruct (locateArray stdout) as [sub|]; cbn.
  2:{ repeat split; auto. intros p i item H. cbn in H. rewrite E in H.
      now destruct p. }
  destruct (JSON.parse (Sanitize.sanitizeJson sub)) as [parsed|]; cbn.
  2:{ repeat split; auto. intros p i item H. cbn in H. rewrite E in H.
      now destruct p. }
  unfold showParsed.
  destruct (length (itemsOf parsed) =? 0)%nat eqn:E0; cbn.
  { repeat split; auto. intros p i item H. cbn in H. rewrite E in H.
    now destruct p. }
  unfold renderResults.
  pose proof (@renderLoop_bounded (collection settings) (itemsOf parsed)
                0%nat [] (length (itemsOf parsed)) (le_n _)) as B.
  destruct (renderLoop (collection settings) 0 (itemsOf parsed) [])
    as [rows threw].
  cbn [fst] in B.
  assert (B' : forall p j item, nth_error rows p = Some (RowComplete j item) ->
                                (j < length (itemsOf parsed))%nat).
  { apply B. intros p j item H. now destruct p. }
  destruct threw; cbn; repeat split; auto.
Qed.

Lemma Inv_childClose settings k code stdout stderr m :
  Inv m ->
  enabled (ChildClose k code stdout stderr) m = true ->
  isCurrent k m = true ->
  Inv (handle settings (ChildClose k code stdout stderr) m).
Proof.
  intros (Hs & Hr & Hp & Ha) En Cur.
  cbn [enabled] in En. unfold isCurrent in Cur.
  destruct (abortController m) as [c|] eqn:Ec; [|discriminate].
  apply Nat.eqb_eq in Cur. subst c.
  destruct (nth_error (invocations m) k) as [inv|] eqn:Ek; [|discriminate].
  apply negb_true_iff in En.
  destruct (Hp _ _ Ec Ek En) as (R & E & S).
  cbn [handle].
  assert (H : let m1 := childClose settings code stdout stderr m in
              selectedIndex m1 = (-1)%Z /\ rowsBounded m1
              /\ abortController m1 = abortController m
              /\ invocations m1 = invocations m).
  { unfold childClose.
    destruct (currentSignalAborted m).
    { cbn. repeat split; auto. }
    assert (X : forall s, let m1 := showError s m in
                selectedIndex m1 = (-1)%Z /\ rowsBounded m1
                /\ abortController m1 = abortController m
                /\ invocations m1 = invocations m).
    { intros s. cbn. repeat split; auto. }
    destruct code as [c|]; [destruct (negb (c =? 0)%Z)|];
      first [apply X | apply recover_cleared; assumption]. }
  cbn zeta in H. destruct H as (S1 & B1 & C1 & I1).
  set (m1 := childClose settings code stdout stderr m) in *.
  repeat split.
  - left. exact S1.
  - exact B1.
  - cbn in *. rewrite C1, Ec in H. inversion H; subst k0.
    rewrite I1, updateAt_nth, Nat.eqb_refl, Ek in H0. cbn in H0.
    inversion H0; subst. discriminate.
  - cbn in *. rewrite C1, Ec in H. inversion H; subst k0.
    rewrite I1, updateAt_nth, Nat.eqb_refl, Ek in H0. cbn in H0.
    inversion H0; subst. discriminate.
  - cbn in *. rewrite C1, Ec in H. inversion H; subst k0.
    rewrite I1, updateAt_nth, Nat.eqb_refl, Ek in H0. cbn in H0.
    inversion H0; subst. discriminate.
  - intros j Hj. cbn in *. rewrite updateAt_length, I1.
    apply Ha. now rewrite <- C1.
Qed.

Lemma Inv_step settings e m :
  Inv m -> enabled e m = true -> stale e m = false ->
  Inv (handle settings e m).
Proof.
  intros HI En St. destruct e; cbn [handle].
  - now apply Inv_keydown.
  - now apply Inv_keydown.
  - now apply Inv_deselect.
  - now apply Inv_deselect.
  - cbn [enabled] in En. apply andb_true_iff in En. destruct En as [_ En].
    destruct (nth_error (resultsEl m) position) as [[i item|]|] eqn:Ep;
      try discriminate.
    destruct HI as (Hs & Hr & Hp & Ha).
    split; [|split; [exact Hr | split; [|exact Ha]]].
    + right. cbn. specialize (Hr _ _ _ Ep). lia.
    + intros k inv H1 H2 H3. cbn in *.
      destruct (Hp _ _ H1 H2 H3) as (_ & X & _). rewrite X in Ep.
      now destruct position.
  - unfold childError. destruct (currentSignalAborted m); exact HI.
  - apply Inv_childClose; auto.
    cbn in St. now apply negb_false_iff in St.
  - now apply Inv_onClose.
Qed.

Lemma Inv_opened : Inv opened.
Proof.
  repeat split; try discriminate.
  - now left.
  - intros p i item H. now destruct p.
Qed.

(** With no stale child event the selection is always -1 or an index
    into the results: only a stale event can break the invariant. *)
Theorem selection_valid_without_stale_events :
  forall settings m, ReachableFresh settings m -> selectionValid m.
Proof.
  intros settings m H.
  assert (HI : Inv m).
  { induction H; [apply Inv_opened | now apply Inv_step]. }
  apply HI.
Qed.

End InvariantFacts.

(* ================================================================== *)
(** * Further properties of the code *)
(* ================================================================== *)

Module RecoveryMore.
Import JSString Sanitize Strictness JSON Escaping Session Display.
Import SanitizeFacts EscapingFacts ParserFacts LocateFacts StringFacts.

Lemma lexStep_strict_lenient st c x :
  lexStep false st c = Some x -> lexStep true st c = Some x.
Proof.
  destruct st; cbn; auto.
  destruct (c =? dquote); auto. destruct (c =? backslash); auto.
  destruct (c <? 32); cbn; [discriminate | auto].
Qed.

Lemma lexStep_strict_plain st c x :
  lexStep false st c = Some x -> modeOf st = Inside -> 32 <= c.
Proof.
  destruct st; cbn; try discriminate; intros H _.
  - destruct (c <? 32) eqn:E; [|now apply N.ltb_ge in E].
    assert (Hq : (c =? dquote) = false).
    { apply N.eqb_neq. apply N.ltb_lt in E. unfold dquote. lia. }
    assert (Hb : (c =? backslash) = false).
    { apply N.eqb_neq. apply N.ltb_lt in E. unfold backslash. lia. }
    rewrite Hq, Hb in H. discriminate.
  - destruct (isHexDigit c) eqn:Hh; [|discriminate].
    apply isHexDigit_plain in Hh. unfold plainChar in Hh.
    rewrite !andb_true_iff, !negb_true_iff in Hh.
    destruct Hh as [[H1 _] _]. now apply N.ltb_ge in H1.
Qed.

Lemma escapeControl_EscapeOf c : c < 32 -> EscapeOf c (escapeControl c).
Proof.
  intros Hc. unfold escapeControl.
  destruct (c =? LF) eqn:E1.
  { apply N.eqb_eq in E1. subst. now apply (Esc_short (c := LF) 110). }
  destruct (c =? CR) eqn:E2.
  { apply N.eqb_eq in E2. subst. now apply (Esc_short (c := CR) 114). }
  destruct (c =? TAB) eqn:E3.
  { apply N.eqb_eq in E3. subst. now apply (Esc_short (c := TAB) 116). }
  destruct (genericEscape_shape Hc) as (d1 & d2 & d3 & d4 & E & Hh & Hv).
  rewrite E. now apply Esc_unicode.
Qed.

Lemma scanStep_copy m c :
  (m = Inside -> 32 <= c) -> fst (scanStep m c) = [c].
Proof.
  intros H. destruct m; cbn; auto. specialize (H eq_refl).
  apply N.ltb_ge in H. rewrite H.
  destruct (c =? backslash); auto. now destruct (c =? dquote).
Qed.

(** What the strict lexer reads in the sanitized text, the lenient lexer
    reads in the raw text. *)
Lemma lex_scan_back s :
  forall st ts,
    wfState st ->
    lexFrom false st (scanFrom (modeOf st) s) = Some ts ->
    lexFrom true st s = Some ts.
Proof.
  induction s as [|c r IH]; intros st ts Hwf H; [exact H|].
  cbn [scanFrom] in H.
  destruct (N.ltb_spec c 32) as [Hlt|Hge].
  - destruct st as [|acc|acc|acc n v|ph a|rest t];
      try (rewrite scanStep_copy in H by discriminate;
           cbn [app lexFrom] in *;
           destruct (lexStep false _ c) as [[tk st']|] eqn:Es; [|discriminate];
           pose proof (lexStep_strict_lenient _ _ Es) as El;
           destruct (@lexStep_copy _ _ _ _ Hwf ltac:(discriminate) El)
             as (_ & Hm & Hwf');
           rewrite El; rewrite <- Hm in H;
           destruct (lexFrom false st' _) as [ts'|] eqn:Er; [|discriminate];
           now rewrite (IH _ _ Hwf' Er)).
    + assert (Hq : (c =? dquote) = false)
        by (apply N.eqb_neq; unfold dquote; lia).
      assert (Hb : (c =? backslash) = false)
        by (apply N.eqb_neq; unfold backslash; lia).
      assert (Hl : (c <? 32) = true) by now apply N.ltb_lt.
      cbn [modeOf scanStep fst snd] in H. rewrite Hb, Hq, Hl in H.
      cbn [fst snd] in H.
      rewrite (lex_escape (escapeControl_EscapeOf Hlt)) in H.
      cbn [lexFrom lexStep negb]. rewrite Hq, Hb, andb_false_r.
      rewrite (IH (LString (c :: acc)) ts I H). reflexivity.
    + exfalso.
      assert (Hq : (c =? dquote) = false)
        by (apply N.eqb_neq; unfold dquote; lia).
      assert (Hb : (c =? backslash) = false)
        by (apply N.eqb_neq; unfold backslash; lia).
      assert (Hl : (c <? 32) = true) by now apply N.ltb_lt.
      cbn [modeOf scanStep fst snd] in H. rewrite Hb, Hq, Hl in H.
      cbn [fst snd] in H.
      destruct (escapeControl_shape Hlt) as (x & l & E & _).
      rewrite E in H. cbn in H. discriminate.
  - rewrite scanStep_copy in H by (intros _; exact Hge).
    cbn [app lexFrom] in *.
    destruct (lexStep false st c) as [[tk st']|] eqn:Es; [|discriminate].
    pose proof (lexStep_strict_lenient _ _ Es) as El.
    destruct (@lexStep_copy _ _ _ _ Hwf (fun _ => Hge) El) as (_ & Hm & Hwf').
    rewrite El. rewrite <- Hm in H.
    destruct (lexFrom false st' _) as [ts'|] eqn:Er; [|discriminate].
    now rewrite (IH _ _ Hwf' Er).
Qed.

(** Sanitizing and then parsing strictly is the lenient reading of the raw
    text: the repair admits raw control characters inside strings, and
    nothing else. *)
Theorem sanitize_then_parse_is_lenient_parse :
  forall raw, JSON.parse (sanitizeJson raw) = parseLenient raw.
Proof.
  intros raw.
  destruct (parseLenient raw) as [v|] eqn:El.
  - now apply parse_sanitized.
  - destruct (JSON.parse (sanitizeJson raw)) as [v|] eqn:Ep; [|reflexivity].
    exfalso. unfold JSON.parse, parseLenient, parseWith in *.
    rewrite sanitizeJson_scan in Ep.
    destruct (lexFrom false LStart (scanFrom Outside raw)) as [ts|] eqn:Ex;
      [|discriminate].
    rewrite (@lex_scan_back raw LStart ts I Ex) in El. congruence.
Qed.

(** A text the strict lexer accepts has no raw control character inside a
    string. *)
Lemma lex_strict_controlFree s :
  forall st ts,
    wfState st -> lexFrom false st s = Some ts ->
    controlFree (modeOf st) s = true.
Proof.
  induction s as [|c r IH]; intros st ts Hwf H; [reflexivity|].
  cbn [lexFrom] in H.
  destruct (lexStep false st c) as [[tk st']|] eqn:Es; [|discriminate].
  pose proof (lexStep_strict_plain _ _ Es) as Hp.
  pose proof (lexStep_strict_lenient _ _ Es) as El.
  destruct (@lexStep_copy _ _ _ _ Hwf Hp El) as (_ & Hm & Hwf').
  destruct (lexFrom false st' r) as [ts'|] eqn:Er; [|discriminate].
  cbn [controlFree]. rewrite <- Hm.
  destruct (modeOf st) eqn:Em; try (eapply IH; eauto).
  specialize (Hp eq_refl). apply N.ltb_ge in Hp. rewrite Hp.
  eapply IH; eauto.
Qed.

(** Valid JSON passes through the sanitizer untouched. *)
Theorem sanitizeJson_keeps_valid_json :
  forall text v,
    JSON.parse text = Some v ->
    sanitizeJson text = text /\ JSON.parse (sanitizeJson text) = Some v.
Proof.
  intros text v H.
  assert (E : sanitizeJson text = text).
  { rewrite sanitizeJson_scan. apply controlFree_scan.
    unfold JSON.parse, parseWith in H.
    destruct (lexFrom false LStart text) as [ts|] eqn:El; [|discriminate].
    apply (@lex_strict_controlFree text LStart ts I El). }
  split; [exact E | now rewrite E].
Qed.

Lemma sanitizeJson_keeps_valid_json_witness :
  sanitizeJson stdoutOne = stdoutOne
  /\ JSON.parse (sanitizeJson stdoutOne) = Some (JArray [itemFile "c.md"]).
Proof.
  apply sanitizeJson_keeps_valid_json. reflexivity.
Defined.

Lemma scanFrom_length s : forall m, (length s <= length (scanFrom m s))%nat.
Proof.
  induction s as [|c r IH]; intros m; cbn [scanFrom]; [apply le_n|].
  rewrite length_app. specialize (IH (snd (scanStep m c))).
  assert (1 <= length (fst (scanStep m c)))%nat; [|cbn [length]; lia].
  destruct m; cbn; try lia.
  destruct (c =? backslash); cbn; try lia.
  destruct (c =? dquote); cbn; try lia.
  destruct (c <? 32) eqn:E; cbn; try lia.
  apply N.ltb_lt in E. destruct (escapeControl_shape E) as (x & l & -> & _).
  cbn. lia.
Qed.

Lemma escapeControl_strict ch :
  ch < 32 ->
  exists x l, escapeControl ch = backslash :: x :: l
              /\ (x <? 32) = false
              /\ forallb plainChar l = true.
Proof.
  intros Hlt.
  assert (H : escapeStrictOk ch = true)
    by (apply below32; [vm_compute; reflexivity | exact Hlt]).
  unfold escapeStrictOk in H.
  destruct (escapeControl ch) as [|b [|x l]]; try discriminate.
  apply andb_true_iff in H. destruct H as [H Hl].
  apply andb_true_iff in H. destruct H as [Hb Hx].
  apply N.eqb_eq in Hb. apply negb_true_iff in Hx. subst. eauto.
Qed.

Lemma controlFreeStrict_plain l t :
  forallb plainChar l = true ->
  controlFreeStrict Inside (l ++ t) = controlFreeStrict Inside t.
Proof.
  induction l as [|c l IH]; intros H; cbn in *; [reflexivity|].
  apply andb_true_iff in H. destruct H as [Hc Hl].
  unfold plainChar in Hc. rewrite !andb_true_iff, !negb_true_iff in Hc.
  destruct Hc as [[H1 H2] H3]. rewrite H1, H3, H2. cbn. auto.
Qed.

Lemma controlFreeStrict_step m ch t :
  controlFreeStrict m (fst (scanStep m ch) ++ t)
  = match m with
    | Escaped =>
        if ch <? 32 then false else controlFreeStrict (snd (scanStep m ch)) t
    | _ => controlFreeStrict (snd (scanStep m ch)) t
    end.
Proof.
  destruct m; cbn; try reflexivity.
  destruct (ch =? backslash) eqn:Hb; cbn.
  { apply N.eqb_eq in Hb. subst. reflexivity. }
  destruct (ch =? dquote) eqn:Hq; cbn.
  { apply N.eqb_eq in Hq. subst. reflexivity. }
  destruct (ch <? 32) eqn:Hc; cbn.
  - apply N.ltb_lt in Hc.
    destruct (escapeControl_strict Hc) as (x & l & E & Hx & Hl). rewrite E.
    cbn. rewrite Hx. now apply controlFreeStrict_plain.
  - now rewrite Hc, Hb, Hq.
Qed.

Lemma controlFreeStrict_scanFrom s :
  forall m, controlFreeStrict m (scanFrom m s) = escapesControlFree m s.
Proof.
  induction s as [|ch s IH]; intros m; cbn [scanFrom escapesControlFree];
    [reflexivity|].
  rewrite controlFreeStrict_step.
  destruct m; try apply IH. destruct (ch <? 32); [reflexivity | apply IH].
Qed.

(** The output of the sanitizer has no raw control character at any
    place inside a string other than directly after a backslash, where the
    scan copies without looking.  So the output is free of raw control
    characters in its strings altogether exactly when the input has none
    directly after a backslash inside a string.  The output is never
    shorter than the input. *)
Theorem sanitizeJson_output_is_control_free :
  forall raw,
    controlFree Outside (sanitizeJson raw) = true
    /\ controlFreeStrict Outside (sanitizeJson raw)
       = escapesControlFree Outside raw
    /\ (length raw <= length (sanitizeJson raw))%nat.
Proof.
  intros raw. rewrite sanitizeJson_scan.
  split; [apply controlFree_scanFrom|].
  split; [apply controlFreeStrict_scanFrom | apply scanFrom_length].
Qed.

Lemma indexOfFrom_first c pre rest i :
  ~ In c pre ->
  indexOfFrom c (pre ++ c :: rest) i = (i + Z.of_nat (length pre))%Z.
Proof.
  revert i. induction pre as [|x pre IH]; intros i H; cbn.
  - rewrite N.eqb_refl. lia.
  - destruct (x =? c) eqn:E.
    + apply N.eqb_eq in E. subst. exfalso. apply H. now left.
    + rewrite IH by (intros X; apply H; now right). lia.
Qed.

Lemma lastIndexOfFrom_absent c s i found :
  ~ In c s -> lastIndexOfFrom c s i found = found.
Proof.
  revert i found. induction s as [|x s IH]; intros i found H; cbn; auto.
  destruct (x =? c) eqn:E.
  - apply N.eqb_eq in E. subst. exfalso. apply H. now left.
  - apply IH. intros X. apply H. now right.
Qed.

Lemma lastIndexOfFrom_last c pre post i found :
  ~ In c post ->
  lastIndexOfFrom c (pre ++ c :: post) i found
  = (i + Z.of_nat (length pre))%Z.
Proof.
  revert i found. induction pre as [|x pre IH]; intros i found H; cbn.
  - rewrite N.eqb_refl, lastIndexOfFrom_absent by exact H. lia.
  - rewrite IH by exact H. lia.
Qed.

Lemma locateArray_embedded pre body post :
  ~ In 91 pre -> ~ In 93 post ->
  locateArray (pre ++ 91 :: body ++ 93 :: post) = Some (91 :: body ++ [93]).
Proof.
  intros Hpre Hpost. unfold locateArray, indexOf, lastIndexOf.
  rewrite indexOfFrom_first by exact Hpre.
  replace (pre ++ 91 :: body ++ 93 :: post)
    with ((pre ++ 91 :: body) ++ 93 :: post)
    by (rewrite <- app_assoc; reflexivity).
  rewrite lastIndexOfFrom_last by exact Hpost.
  destruct (0 + Z.of_nat (length pre) =? -1)%Z eqn:E1;
    [apply Z.eqb_eq in E1; lia|].
  destruct (0 + Z.of_nat (length (pre ++ 91%N :: body)) =? -1)%Z eqn:E2;
    [apply Z.eqb_eq in E2; lia|].
  cbn [orb]. f_equal.
  rewrite slice_inside
    by (rewrite ?length_app; cbn [length]; rewrite ?length_app;
        cbn [length]; lia).
  rewrite <- app_assoc. cbn [app].
  replace (Z.to_nat (0 + Z.of_nat (length pre))) with (length pre) by lia.
  rewrite skipn_app, skipn_all, Nat.sub_diag. cbn [skipn app].
  replace (Z.to_nat
             (0 + Z.of_nat (length (pre ++ 91%N :: body)) + 1
              - (0 + Z.of_nat (length pre))))
    with (S (length (body ++ [93])))
    by (rewrite !length_app; cbn [length]; lia).
  cbn [firstn]. f_equal.
  replace (body ++ 93 :: post) with ((body ++ [93]) ++ post)
    by (now rewrite <- app_assoc).
  rewrite firstn_app, firstn_all, Nat.sub_diag. cbn. apply app_nil_r.
Qed.

(** Text before the array that has no [[], and text after it that has no
    []], are ignored: the handler does what it does on the array alone. *)
Theorem recover_ignores_surrounding_text :
  forall settings pre body post m,
    ~ In 91 pre -> ~ In 93 post ->
    locateArray (pre ++ 91 :: body ++ 93 :: post) = Some (91 :: body ++ [93])
    /\ recover settings (pre ++ 91 :: body ++ 93 :: post) m
       = recover settings (91 :: body ++ [93]) m.
Proof.
  intros settings pre body post m Hpre Hpost.
  pose proof (@locateArray_embedded pre body post Hpre Hpost) as E.
  pose proof (@locateArray_embedded [] body [] (fun x => x) (fun x => x)) as E0.
  cbn [app] in E0. split; [exact E|].
  unfold recover. now rewrite E, E0.
Qed.

Lemma recover_ignores_surrounding_text_witness :
  locateArray stdoutPlan
  = Some (jsq "[{`docid`:`1`,`score`:0.87,`file`:`obsidian/Projects/Q3 Plan.md`,`title`:`Q3 Plan`}]")
  /\ recover DEFAULT_SETTINGS stdoutPlan opened
     = recover DEFAULT_SETTINGS
         (jsq "[{`docid`:`1`,`score`:0.87,`file`:`obsidian/Projects/Q3 Plan.md`,`title`:`Q3 Plan`}]")
         opened.
Proof.
  apply (@recover_ignores_surrounding_text DEFAULT_SETTINGS
           (js "Searching..." ++ [LF])
           (jsq "{`docid`:`1`,`score`:0.87,`file`:`obsidian/Projects/Q3 Plan.md`,`title`:`Q3 Plan`}")
           [LF] opened).
  - cbn. intuition discriminate.
  - cbn. intuition discriminate.
Defined.

Lemma renderLoop_shaped_rows collection items :
  forallb isQmdResult items = true ->
  forall i rows,
    renderLoop collection i items rows = (rows ++ rowsFrom i items, false).
Proof.
  induction items as [|item items IH]; intros H i rows; cbn [renderLoop rowsFrom].
  - now rewrite app_nil_r.
  - cbn in H. apply andb_true_iff in H. destruct H as [Hi Hr].
    rewrite (@RecoveryFacts.renderRow_shaped collection i item Hi).
    rewrite IH by exact Hr. now rewrite <- app_assoc.
Qed.

(** Results of the declared shape are shown in the order the tool gave
    them: [results] is the parsed array, and row [i] carries item [i]. *)
Theorem results_keep_tool_order :
  forall settings stdout sub items m,
    locateArray stdout = Some sub ->
    JSON.parse (sanitizeJson sub) = Some (JArray items) ->
    forallb isQmdResult items = true ->
    results (recover settings stdout m) = items
    /\ resultsEl (recover settings stdout m)
       = (if (length items =? 0)%nat then resultsEl m else rowsFrom 0 items)
    /\ selectedIndex (recover settings stdout m) = selectedIndex m.
Proof.
  intros settings stdout sub items m Hl Hp Hs.
  unfold recover. rewrite Hl, Hp. unfold showParsed. cbn [itemsOf].
  destruct (length items =? 0)%nat; [repeat split|].
  unfold renderResults.
  rewrite (@renderLoop_shaped_rows (collection settings) items Hs 0%nat []).
  repeat split.
Qed.

Lemma results_keep_tool_order_witness :
  results (recover DEFAULT_SETTINGS stdoutPlan opened) = [planItem]
  /\ resultsEl (recover DEFAULT_SETTINGS stdoutPlan opened)
     = [RowComplete 0 planItem]
  /\ selectedIndex (recover DEFAULT_SETTINGS stdoutPlan opened) = (-1)%Z.
Proof.
  apply (@results_keep_tool_order DEFAULT_SETTINGS stdoutPlan
           (jsq "[{`docid`:`1`,`score`:0.87,`file`:`obsidian/Projects/Q3 Plan.md`,`title`:`Q3 Plan`}]")
           [planItem] opened); reflexivity.
Defined.

End RecoveryMore.

Module SessionMore.
Import JSString JSON Session Display InvariantFacts.

Lemma trimStart_spaces s : forallb isWhiteSpace s = true -> trimStart s = [].
Proof.
  induction s as [|c r IH]; cbn; [reflexivity|].
  intros H. apply andb_true_iff in H. destruct H as [Hc Hr].
  rewrite Hc. now apply IH.
Qed.

Lemma trim_spaces s : forallb isWhiteSpace s = true -> trim s = [].
Proof.
  intros H. unfold trim. now rewrite trimStart_spaces.
Qed.

(** After a keystroke in the input field, or after it gains the focus,
    Enter pressed outside an input-method composition runs a search on
    the trimmed text; when that text is not empty the modal shows the busy
    indicator with nothing listed and nothing selected, and the new child
    is the current one.  An Enter sent during a composition does nothing,
    in any state. *)
Theorem enter_after_typing_searches :
  forall settings value m,
    handle settings (KeyDownComposing Enter value) m = m
    /\ handle settings (KeyDown Enter value) (handle settings InputChanged m)
    = runSearch (trim value) (inputFocused m)
    /\ handle settings (KeyDown Enter value) (handle settings InputFocus m)
       = runSearch (trim value) (inputFocused m)
    /\ (trim value <> [] ->
        visible (runSearch (trim value) (inputFocused m))
        = ([], (-1)%Z, StatusSearching, [])
        /\ abortController (runSearch (trim value) (inputFocused m))
           = Some (length (invocations m))
        /\ nth_error (invocations (runSearch (trim value) (inputFocused m)))
                     (length (invocations m))
           = Some {| invQuery := trim value; signalAborted := false;
                     childKilled := false; childClosed := false |}).
Proof.
  intros settings value m. split; [reflexivity|].
  split; [reflexivity|]. split; [reflexivity|].
  intros Hne. unfold runSearch. apply jsstring_eqb_neq in Hne. rewrite Hne.
  assert (L : length (invocations (abortCurrent (inputFocused m)))
              = length (invocations m)).
  { unfold abortCurrent. cbn.
    destruct (abortController m); cbn; [apply updateAt_length | reflexivity]. }
  cbn. split; [reflexivity|]. split; [now rewrite L|].
  rewrite <- L, nth_error_app2, Nat.sub_diag by apply le_n. reflexivity.
Qed.

Lemma enter_after_typing_searches_witness :
  visible (runSearch (trim (js " plan ")) (inputFocused opened))
  = ([], (-1)%Z, StatusSearching, [])
  /\ abortController (runSearch (trim (js " plan ")) (inputFocused opened))
     = Some 0%nat
  /\ nth_error (invocations (runSearch (trim (js " plan "))
                                       (inputFocused opened))) 0
     = Some {| invQuery := js "plan"; signalAborted := false;
               childKilled := false; childClosed := false |}.
Proof.
  apply (enter_after_typing_searches DEFAULT_SETTINGS (js " plan ") opened).
  vm_compute. discriminate.
Defined.

(** Enter on an empty or blank input does nothing when no result is
    selected: no child is spawned and nothing shown changes. *)
Theorem enter_on_blank_input_is_ignored :
  forall settings value m,
    forallb isWhiteSpace value = true ->
    (selectedIndex m < 0)%Z \/ results m = [] ->
    handle settings (KeyDown Enter value) m = m.
Proof.
  intros settings value m Hv Hs. cbn [handle keydown].
  assert (E : (selectedIndex m >=? 0)%Z && (0 <? length (results m))%nat
              = false).
  { destruct Hs as [Hs | Hs].
    - replace (selectedIndex m >=? 0)%Z with false; [reflexivity|].
      symmetry. rewrite Z.geb_leb. apply Z.leb_gt. exact Hs.
    - rewrite Hs. apply andb_false_r. }
  rewrite E, trim_spaces by exact Hv. reflexivity.
Qed.

Lemma enter_on_blank_input_is_ignored_witness :
  handle DEFAULT_SETTINGS (KeyDown Enter (js "   ")) opened = opened.
Proof.
  apply enter_on_blank_input_is_ignored; [reflexivity | left; reflexivity].
Defined.

(** ** Cancellation *)

Lemma updateAt_abort_nth k l j inv' :
  nth_error (updateAt k abortInvocation l) j = Some inv' ->
  exists inv, nth_error l j = Some inv
              /\ (j = k -> signalAborted inv' = true /\ childKilled inv' = true)
              /\ (signalAborted inv = true -> signalAborted inv' = true)
              /\ (childKilled inv = true -> childKilled inv' = true).
Proof.
  rewrite updateAt_nth. destruct (j =? k)%nat eqn:E.
  - destruct (nth_error l j) as [inv|]; [|discriminate].
    cbn. intros H. inversion H; subst. exists inv. cbn. auto.
  - intros H. exists inv'. apply Nat.eqb_neq in E.
    repeat split; auto; contradiction.
Qed.

Lemma abortCurrent_all m :
  othersCancelled m -> allCancelled (abortCurrent m).
Proof.
  intros Ho j inv' H. unfold abortCurrent in H.
  destruct (abortController m) as [k|] eqn:Ec; cbn in H.
  - destruct (updateAt_abort_nth _ _ _ H) as (inv & Hn & Hk & Hs & Hc).
    destruct (Nat.eq_dec j k) as [->|Hne]; [now apply Hk|].
    destruct (Ho j inv Hn) as [A B]; [rewrite Ec; congruence|]. auto.
  - apply (Ho j inv' H). rewrite Ec. discriminate.
Qed.

Lemma abortCurrent_length m :
  length (invocations (abortCurrent m)) = length (invocations m).
Proof.
  unfold abortCurrent. destruct (abortController m); cbn;
    [apply updateAt_length | reflexivity].
Qed.

Lemma abortCurrent_controller m :
  abortController (abortCurrent m) = abortController m.
Proof.
  unfold abortCurrent. destruct (abortController m) eqn:E; cbn; auto.
Qed.

Lemma abortCurrent_isOpen m : isOpen (abortCurrent m) = isOpen m.
Proof.
  unfold abortCurrent. destruct (abortController m) eqn:E; cbn; auto.
Qed.

Lemma Cancellation_onClose m : Cancellation m -> Cancellation (onClose m).
Proof.
  intros (Ho & Ha & Hh & Hc).
  pose proof (abortCurrent_all Ho) as Hall.
  unfold onClose. split; [|split; [|split]].
  - intros j inv H _. cbn in H. exact (Hall j inv H).
  - intros k H. cbn in *. rewrite abortCurrent_length. apply Ha.
    now rewrite <- abortCurrent_controller.
  - intros H. cbn in *. rewrite abortCurrent_controller in H.
    specialize (Hh H). unfold abortCurrent. now rewrite H.
  - intros _ j inv H. cbn in H. exact (Hall j inv H).
Qed.

Lemma Cancellation_runSearch query m :
  isOpen m = true -> Cancellation m -> Cancellation (runSearch query m).
Proof.
  intros Hopen HC. unfold runSearch.
  destruct (jsstring_eqb query []); [exact HC|].
  destruct HC as (Ho & Ha & Hh & Hc).
  pose proof (abortCurrent_all Ho) as Hall.
  split; [|split; [|split]].
  - intros j inv H Hne. cbn in *.
    destruct (Nat.lt_ge_cases j (length (invocations (abortCurrent m))))
      as [Hlt|Hge].
    + rewrite nth_error_app1 in H by exact Hlt. exact (Hall j inv H).
    + rewrite nth_error_app2 in H by exact Hge.
      destruct (j - length (invocations (abortCurrent m)))%nat
        as [|q] eqn:Eq; [|destruct q; discriminate].
      exfalso. apply Hne. f_equal. lia.
  - intros k H. cbn in *. inversion H; subst. rewrite length_app. cbn. lia.
  - intros H. cbn in H. discriminate.
  - intros H. cbn in H. rewrite abortCurrent_isOpen in H. congruence.
Qed.

Lemma recover_heap settings stdout m :
  abortController (recover settings stdout m) = abortController m
  /\ invocations (recover settings stdout m) = invocations m
  /\ isOpen (recover settings stdout m) = isOpen m.
Proof.
  unfold recover. destruct (locateArray stdout); [|repeat split].
  destruct (JSON.parse _); [|repeat split].
  unfold showParsed. destruct (length _ =? 0)%nat; [repeat split|].
  unfold renderResults. destruct (renderLoop _ _ _ _) as [rows threw].
  destruct threw; repeat split.
Qed.

Lemma childClose_heap settings code stdout stderr m :
  abortController (childClose settings code stdout stderr m)
  = abortController m
  /\ invocations (childClose settings code stdout stderr m) = invocations m
  /\ isOpen (childClose settings code stdout stderr m) = isOpen m.
Proof.
  unfold childClose. destruct (currentSignalAborted m); [repeat split|].
  destruct code as [c|]; [destruct (negb (c =? 0)%Z); [repeat split|]|];
    apply recover_heap.
Qed.

Lemma updateAt_markClosed_nth k l j inv' :
  nth_error (updateAt k markClosed l) j = Some inv' ->
  exists inv, nth_error l j = Some inv
              /\ signalAborted inv' = signalAborted inv
              /\ childKilled inv' = childKilled inv.
Proof.
  rewrite updateAt_nth. destruct (j =? k)%nat.
  - destruct (nth_error l j) as [inv|]; [|discriminate].
    cbn. intros H. inversion H; subst. eauto.
  - eauto.
Qed.

Lemma Cancellation_heap m m' :
  abortController m' = abortController m ->
  invocations m' = invocations m ->
  isOpen m' = isOpen m ->
  Cancellation m -> Cancellation m'.
Proof.
  intros Ec Ei Eo (Ho & Ha & Hh & Hc).
  unfold Cancellation, othersCancelled, controllerAllocated, heapStarted,
    allCancelled. rewrite Ec, Ei, Eo. auto.
Qed.

Lemma Cancellation_markClosed k m :
  Cancellation m ->
  Cancellation (setInvocations (updateAt k markClosed (invocations m)) m).
Proof.
  intros (Ho & Ha & Hh & Hc). split; [|split; [|split]].
  - intros j inv' H Hne. cbn in *.
    destruct (updateAt_markClosed_nth _ _ _ H) as (inv & Hn & -> & ->).
    now apply (Ho j inv).
  - intros j H. cbn in *. rewrite updateAt_length. now apply Ha.
  - intros H. cbn in *. rewrite (Hh H). now destruct k.
  - intros H j inv' Hj. cbn in *.
    destruct (updateAt_markClosed_nth _ _ _ Hj) as (inv & Hn & -> & ->).
    now apply (Hc H j inv).
Qed.

Lemma Cancellation_keydown settings key isComposing value m :
  isOpen m = true -> Cancellation m ->
  Cancellation (keydown settings key isComposing value m).
Proof.
  intros En HC. destruct key; cbn [keydown].
  - destruct isComposing; cbn [negb]; [exact HC|].
    destruct ((selectedIndex m >=? 0)%Z && (0 <? length (results m))%nat).
    + unfold openResult. destruct (resultAt m) as [[]|]; auto;
        destruct (callCleanFilePath _ _); auto;
        now apply Cancellation_onClose.
    + now apply Cancellation_runSearch.
  - apply (Cancellation_heap (m := m)); auto; unfold moveSelection;
      destruct (_ =? 0)%Z; auto; destruct (_ <? 0)%Z; auto.
  - apply (Cancellation_heap (m := m)); auto; unfold moveSelection;
      destruct (_ =? 0)%Z; auto; destruct (_ <? 0)%Z; auto.
  - destruct (selectedIndex m >=? 0)%Z; auto.
Qed.

Lemma Cancellation_step settings e m :
  Cancellation m -> enabled e m = true -> Cancellation (handle settings e m).
Proof.
  intros HC En. destruct e; cbn [handle].
  - now apply Cancellation_keydown.
  - now apply Cancellation_keydown.
  - exact HC.
  - exact HC.
  - destruct (nth_error (resultsEl m) position) as [[]|]; exact HC.
  - unfold childError. destruct (currentSignalAborted m); exact HC.
  - apply Cancellation_markClosed.
    destruct (childClose_heap settings code stdout stderr m) as (A & B & C).
    now apply (Cancellation_heap (m := m)).
  - now apply Cancellation_onClose.
Qed.

Lemma Cancellation_opened : Cancellation opened.
Proof.
  split; [|split; [|split]].
  - intros j inv H. now destruct j.
  - intros k H. discriminate.
  - intros _. reflexivity.
  - discriminate.
Qed.

Lemma Reachable_Cancellation settings m :
  Reachable settings m -> Cancellation m.
Proof.
  induction 1; [apply Cancellation_opened | now apply Cancellation_step].
Qed.

(** In every state of the modal, every child but the one of the current
    controller has been sent [kill] and has its signal aborted; once the
    modal is closed this holds of every child. *)
Theorem superseded_children_are_killed :
  forall settings m,
    Reachable settings m ->
    othersCancelled m /\ (isOpen m = false -> allCancelled m).
Proof.
  intros settings m H.
  destruct (Reachable_Cancellation H) as (Ho & _ & _ & Hc). auto.
Qed.

Lemma superseded_children_are_killed_witness :
  exists m,
    run DEFAULT_SETTINGS staleThenFresh opened = Some m
    /\ othersCancelled m /\ (isOpen m = false -> allCancelled m).
Proof.
  destruct (run DEFAULT_SETTINGS staleThenFresh opened) as [m|] eqn:E;
    [|vm_compute in E; discriminate].
  exists m. split; [reflexivity|].
  apply (superseded_children_are_killed (settings := DEFAULT_SETTINGS)).
  eapply InvocationFacts.run_Reachable; [apply ReachOpened | exact E].
Defined.

(** Once the modal is closed, no event changes what it holds: results,
    selection, status and rows stay as they were, and it stays closed. *)
Theorem closed_modal_is_inert :
  forall settings m e,
    Reachable settings m -> isOpen m = false -> enabled e m = true ->
    visible (handle settings e m) = visible m
    /\ isOpen (handle settings e m) = false.
Proof.
  intros settings m e Hr Hclosed En.
  destruct (Reachable_Cancellation Hr) as (Ho & Ha & Hh & Hc).
  specialize (Hc Hclosed).
  assert (Hab : forall k inv, nth_error (invocations m) k = Some inv ->
                              currentSignalAborted m = true).
  { intros k inv Hk. unfold currentSignalAborted.
    destruct (abortController m) as [c|] eqn:Ec.
    - specialize (Ha c Ec). apply nth_error_Some in Ha.
      destruct (nth_error (invocations m) c) as [i|] eqn:Ei; [|congruence].
      now destruct (Hc c i Ei).
    - rewrite (Hh Ec) in Hk. now destruct k. }
  destruct e; cbn [enabled] in En; try congruence.
  - apply andb_true_iff in En. destruct En. congruence.
  - destruct (nth_error (invocations m) k) as [inv|] eqn:Ek; [|discriminate].
    cbn [handle]. unfold childError. rewrite (Hab k inv Ek). auto.
  - destruct (nth_error (invocations m) k) as [inv|] eqn:Ek; [|discriminate].
    cbn [handle]. unfold childClose. rewrite (Hab k inv Ek). auto.
Qed.

Lemma closed_modal_is_inert_witness :
  let m := onClose (runSearch (js "plan") opened) in
  visible (handle DEFAULT_SETTINGS (ChildClose 0 (Some 0%Z) stdoutTwo []) m)
  = visible m
  /\ isOpen (handle DEFAULT_SETTINGS (ChildClose 0 (Some 0%Z) stdoutTwo []) m)
     = false.
Proof.
  intros m.
  apply (@closed_modal_is_inert DEFAULT_SETTINGS m
           (ChildClose 0 (Some 0%Z) stdoutTwo [])).
  - change m with (handle DEFAULT_SETTINGS ModalClosed
                     (handle DEFAULT_SETTINGS (KeyDown Enter (js "plan"))
                        opened)).
    apply ReachStep; [apply ReachStep; [apply ReachOpened | reflexivity]
                     | reflexivity].
  - reflexivity.
  - reflexivity.
Defined.

(** ** Navigation *)

(** With results to choose from, [moveSelection] always lands on a valid
    index, whatever the selection was before and whatever the step; from
    no selection a forward step selects the first result and any other
    step the last; nothing but the selection changes. *)
Theorem moveSelection_lands_in_range :
  forall delta m,
    results m <> [] ->
    (0 <= selectedIndex (moveSelection delta m)
     < Z.of_nat (length (results m)))%Z
    /\ ((selectedIndex m < 0)%Z -> (0 < delta)%Z ->
        selectedIndex (moveSelection delta m) = 0%Z)
    /\ ((selectedIndex m < 0)%Z -> (delta <= 0)%Z ->
        selectedIndex (moveSelection delta m)
        = (Z.of_nat (length (results m)) - 1)%Z)
    /\ moveSelection delta m
       = setSelectedIndex (selectedIndex (moveSelection delta m)) m.
Proof.
  intros delta m Hne.
  assert (Hn : (0 < Z.of_nat (length (results m)))%Z).
  { destruct (results m); [congruence | cbn [length]; lia]. }
  unfold moveSelection.
  destruct (Z.of_nat (length (results m)) =? 0)%Z eqn:E0;
    [apply Z.eqb_eq in E0; lia|].
  destruct (selectedIndex m <? 0)%Z eqn:E1.
  - apply Z.ltb_lt in E1. cbn. repeat split; try lia.
    + destruct (delta >? 0)%Z; lia.
    + destruct (delta >? 0)%Z; lia.
    + intros _ Hd. destruct (delta >? 0)%Z eqn:E; [reflexivity|].
      rewrite Z.gtb_ltb in E. apply Z.ltb_ge in E. lia.
    + intros _ Hd. destruct (delta >? 0)%Z eqn:E; [|reflexivity].
      rewrite Z.gtb_ltb in E. apply Z.ltb_lt in E. lia.
  - apply Z.ltb_ge in E1. cbn.
    assert (R : (0 <= (if ((if selectedIndex m + delta <? 0
                            then Z.of_nat (length (results m)) - 1
                            else selectedIndex m + delta)
                           >=? Z.of_nat (length (results m)))
                       then 0
                       else if selectedIndex m + delta <? 0
                            then Z.of_nat (length (results m)) - 1
                            else selectedIndex m + delta)
                 < Z.of_nat (length (results m)))%Z).
    { destruct (selectedIndex m + delta <? 0)%Z eqn:E2.
      - destruct (_ >=? _)%Z; lia.
      - apply Z.ltb_ge in E2.
        destruct (_ >=? _)%Z eqn:E3; [lia|].
        rewrite Z.geb_leb in E3. apply Z.leb_gt in E3. lia. }
    repeat split; try lia; apply R.
Qed.

Lemma moveSelection_lands_in_range_witness :
  let m := setSelectedIndex 7 (setResults [JNull; JNull] opened) in
  (0 <= selectedIndex (moveSelection 1 m) < 2)%Z.
Proof.
  intros m.
  apply (moveSelection_lands_in_range 1 m). discriminate.
Defined.

Lemma setSelectedIndex_same m : setSelectedIndex (selectedIndex m) m = m.
Proof. now destruct m. Qed.

Lemma moveSelection_forward m :
  results m <> [] ->
  (0 <= selectedIndex m < Z.of_nat (length (results m)))%Z ->
  moveSelection 1 m
  = setSelectedIndex
      ((selectedIndex m + 1) mod Z.of_nat (length (results m)))%Z m.
Proof.
  intros Hne Hs. unfold moveSelection.
  destruct (Z.of_nat (length (results m)) =? 0)%Z eqn:E0;
    [apply Z.eqb_eq in E0; lia|].
  destruct (selectedIndex m <? 0)%Z eqn:E1; [apply Z.ltb_lt in E1; lia|].
  destruct (selectedIndex m + 1 <? 0)%Z eqn:E2; [apply Z.ltb_lt in E2; lia|].
  f_equal.
  destruct (selectedIndex m + 1 >=? Z.of_nat (length (results m)))%Z eqn:E3.
  - rewrite Z.geb_leb in E3. apply Z.leb_le in E3.
    replace (selectedIndex m + 1)%Z with (Z.of_nat (length (results m))) by lia.
    now rewrite Z.mod_same by lia.
  - rewrite Z.geb_leb in E3. apply Z.leb_gt in E3.
    now rewrite Z.mod_small by lia.
Qed.

Lemma moveSelection_backward m :
  results m <> [] ->
  (0 <= selectedIndex m < Z.of_nat (length (results m)))%Z ->
  moveSelection (-1) m
  = setSelectedIndex
      ((selectedIndex m - 1) mod Z.of_nat (length (results m)))%Z m.
Proof.
  intros Hne Hs. unfold moveSelection.
  destruct (Z.of_nat (length (results m)) =? 0)%Z eqn:E0;
    [apply Z.eqb_eq in E0; lia|].
  destruct (selectedIndex m <? 0)%Z eqn:E1; [apply Z.ltb_lt in E1; lia|].
  f_equal.
  destruct (selectedIndex m + -1 <? 0)%Z eqn:E2.
  - apply Z.ltb_lt in E2.
    destruct (_ >=? _)%Z eqn:E3;
      [rewrite Z.geb_leb in E3; apply Z.leb_le in E3; lia|].
    replace (selectedIndex m - 1)%Z
      with (Z.of_nat (length (results m)) - 1
            + (-1) * Z.of_nat (length (results m)))%Z by lia.
    rewrite Z.mod_add by lia. now rewrite Z.mod_small by lia.
  - apply Z.ltb_ge in E2.
    destruct (_ >=? _)%Z eqn:E3;
      [rewrite Z.geb_leb in E3; apply Z.leb_le in E3; lia|].
    replace (selectedIndex m + -1)%Z with (selectedIndex m - 1)%Z by lia.
    now rewrite Z.mod_small by lia.
Qed.

Lemma press_forward n :
  forall m,
    results m <> [] ->
    (0 <= selectedIndex m < Z.of_nat (length (results m)))%Z ->
    press n 1 m
    = setSelectedIndex
        ((selectedIndex m + Z.of_nat n) mod Z.of_nat (length (results m)))%Z m.
Proof.
  induction n as [|n IH]; intros m Hne Hs.
  - cbn [press]. rewrite Z.add_0_r, Z.mod_small by lia.
    symmetry. apply setSelectedIndex_same.
  - cbn [press]. rewrite moveSelection_forward by assumption.
    rewrite IH; cbn; auto.
    + unfold setSelectedIndex. cbn. f_equal.
      rewrite Z.add_mod_idemp_l by lia. f_equal. lia.
    + apply Z.mod_pos_bound. lia.
Qed.

(** With a valid selection, ArrowDown and ArrowUp undo each other, and as
    many ArrowDown presses as there are results come back to the start. *)
Theorem arrows_undo_each_other_and_cycle :
  forall m,
    results m <> [] ->
    (0 <= selectedIndex m < Z.of_nat (length (results m)))%Z ->
    moveSelection (-1) (moveSelection 1 m) = m
    /\ moveSelection 1 (moveSelection (-1) m) = m
    /\ press (length (results m)) 1 m = m.
Proof.
  intros m Hne Hs.
  assert (Hn : (0 < Z.of_nat (length (results m)))%Z) by lia.
  split; [|split].
  - rewrite moveSelection_forward by assumption.
    rewrite moveSelection_backward; cbn; auto;
      [|apply Z.mod_pos_bound; lia].
    transitivity (setSelectedIndex (selectedIndex m) m);
      [|apply setSelectedIndex_same].
    unfold setSelectedIndex. cbn. f_equal.
    rewrite Zminus_mod_idemp_l.
    replace (selectedIndex m + 1 - 1)%Z with (selectedIndex m) by lia.
    apply Z.mod_small. lia.
  - rewrite moveSelection_backward by assumption.
    rewrite moveSelection_forward; cbn; auto;
      [|apply Z.mod_pos_bound; lia].
    transitivity (setSelectedIndex (selectedIndex m) m);
      [|apply setSelectedIndex_same].
    unfold setSelectedIndex. cbn. f_equal.
    rewrite Z.add_mod_idemp_l by lia.
    replace (selectedIndex m - 1 + 1)%Z with (selectedIndex m) by lia.
    apply Z.mod_small. lia.
  - rewrite press_forward by assumption.
    transitivity (setSelectedIndex (selectedIndex m) m);
      [|apply setSelectedIndex_same].
    f_equal.
    rewrite <- (Z.mul_1_l (Z.of_nat (length (results m)))) at 1.
    rewrite Z.mod_add by lia. apply Z.mod_small. lia.
Qed.

Lemma arrows_undo_each_other_and_cycle_witness :
  let m := setSelectedIndex 1 (setResults [JNull; JNull; JNull] opened) in
  moveSelection (-1) (moveSelection 1 m) = m
  /\ moveSelection 1 (moveSelection (-1) m) = m
  /\ press 3 1 m = m.
Proof.
  intros m.
  apply (arrows_undo_each_other_and_cycle m); [discriminate | cbn; lia].
Defined.

End SessionMore.

Module PathsMore.
Import JSString JSON Paths Session Display StringFacts ReconcilerFacts.

Lemma firstFile_found test files f :
  In f files -> test f = true -> exists p, firstFile test files = Some p.
Proof.
  induction files as [|g files IH]; intros Hin Ht; [contradiction|].
  cbn. destruct (test g) eqn:E; [eauto|].
  destruct Hin as [->|Hin]; [congruence | auto].
Qed.


Section Reconciler.
Variable toLowerCase : jsstring -> jsstring.
Variable collection : jsstring.
Variable files : list TFile.


(** The answer depends on the reference only through its cleaned path: the
    scheme prefix, the bare collection prefix and no prefix at all lead to the
    same entry. *)
Theorem resolveVaultFile_ignores_the_prefix :
  forall rest,
    startsWith (collection ++ js "/" ++ rest)
               (js "qmd://" ++ collection ++ js "/") = false ->
    resolveVaultFile toLowerCase collection files
      (js "qmd://" ++ collection ++ js "/" ++ rest)
    = resolveVaultFile toLowerCase collection files
        (collection ++ js "/" ++ rest)
    /\ (startsWith rest (js "qmd://" ++ collection ++ js "/") = false ->
        startsWith rest (collection ++ js "/") = false ->
        resolveVaultFile toLowerCase collection files rest
        = resolveVaultFile toLowerCase collection files
            (collection ++ js "/" ++ rest)).
Proof.
  intros rest H. unfold resolveVaultFile.
  rewrite cleanFilePath_scheme, (cleanFilePath_collection _ _ H).
  split; [reflexivity|]. intros H1 H2.
  now rewrite (cleanFilePath_plain _ _ H1 H2).
Qed.

(** When an entry matches by base name, the folders named in the
    reference do not matter: two references with the same normalized bare
    name get the same answer. *)
Theorem resolveVaultFile_ignores_folders_on_a_name_match :
  forall raw1 raw2 f,
    qmdFilenameOf toLowerCase collection raw1
    = qmdFilenameOf toLowerCase collection raw2 ->
    In f files -> BaseNameEq toLowerCase collection raw1 f ->
    resolveVaultFile toLowerCase collection files raw1
    = resolveVaultFile toLowerCase collection files raw2.
Proof.
  intros raw1 raw2 f Hq Hin Hf. unfold resolveVaultFile.
  unfold qmdFilenameOf in Hq. rewrite <- Hq.
  destruct (jsstring_eqb _ []); [reflexivity|].
  assert (Ht : baseNameMatches toLowerCase
                 (normalizeForMatch toLowerCase
                    (bareName (cleanFilePath collection raw1))) f = true)
    by now apply jsstring_eqb_eq.
  destruct (firstFile_found _ _ _ Hin Ht) as [p ->]. reflexivity.
Qed.

End Reconciler.


Lemma resolveVaultFile_ignores_the_prefix_witness :
  Samples.resolveAscii Samples.twoDocs (js "qmd://obsidian/B/Doc.md")
  = Samples.resolveAscii Samples.twoDocs (js "obsidian/B/Doc.md")
  /\ Samples.resolveAscii Samples.twoDocs (js "B/Doc.md")
     = Samples.resolveAscii Samples.twoDocs (js "obsidian/B/Doc.md").
Proof.
  destruct (@resolveVaultFile_ignores_the_prefix asciiToLowerCase
              (js "obsidian") Samples.twoDocs (js "B/Doc.md") eq_refl)
    as (H1 & H2).
  split; [exact H1 | now apply H2].
Defined.

Lemma resolveVaultFile_ignores_folders_on_a_name_match_witness :
  Samples.resolveAscii Samples.twoDocs (js "obsidian/Old Folder/doc.md")
  = Samples.resolveAscii Samples.twoDocs (js "DOC").
Proof.
  apply (@resolveVaultFile_ignores_folders_on_a_name_match asciiToLowerCase
           (js "obsidian") Samples.twoDocs
           (js "obsidian/Old Folder/doc.md") (js "DOC")
           (Samples.mdFile "A/" "Doc")).
  - reflexivity.
  - now left.
  - reflexivity.
Defined.

Lemma replaceSpaceRuns_no_space s :
  forall b,
    forallb (fun c => negb (isWhiteSpace c)) (replaceSpaceRuns b s) = true.
Proof.
  induction s as [|c r IH]; intros b; cbn; [reflexivity|].
  destruct (isWhiteSpace c) eqn:E.
  - destruct b; cbn; auto.
  - cbn. rewrite E. cbn. auto.
Qed.

Lemma replaceSpaceRuns_clean s :
  forall b,
    forallb (fun c => negb (isWhiteSpace c)) s = true ->
    replaceSpaceRuns b s = s.
Proof.
  induction s as [|c r IH]; intros b H; cbn in *; [reflexivity|].
  apply andb_true_iff in H. destruct H as [Hc Hr].
  apply negb_true_iff in Hc. rewrite Hc. f_equal. auto.
Qed.

Lemma replaceSpaceRuns_run_length x sp1 sp2 r :
  forallb isWhiteSpace sp1 = true -> sp1 <> [] ->
  forallb isWhiteSpace sp2 = true -> sp2 <> [] ->
  forall b,
    replaceSpaceRuns b (x ++ sp1 ++ r) = replaceSpaceRuns b (x ++ sp2 ++ r).
Proof.
  intros H1 N1 H2 N2.
  assert (Hrun : forall sp b, forallb isWhiteSpace sp = true -> sp <> [] ->
            replaceSpaceRuns b (sp ++ r)
            = (if b then [] else [45]) ++ replaceSpaceRuns true r).
  { intros sp b Hs Hn. destruct sp as [|c sp]; [congruence|].
    cbn in Hs. apply andb_true_iff in Hs. destruct Hs as [Hc Hs].
    cbn [app replaceSpaceRuns]. rewrite Hc.
    rewrite (replaceSpaceRuns_inside _ _ Hs). now destruct b. }
  induction x as [|c x IH]; intros b; cbn [app].
  - now rewrite !Hrun.
  - cbn [replaceSpaceRuns]. destruct (isWhiteSpace c); [destruct b|];
      now rewrite IH.
Qed.

(** A normalized name never holds white space, whatever the case table;
    a name without white space is only lower-cased; and the length of a
    run of white space makes no difference to the result. *)
Theorem normalizeForMatch_leaves_no_white_space :
  forall (toLowerCase : jsstring -> jsstring) s,
    forallb (fun c => negb (isWhiteSpace c))
            (normalizeForMatch toLowerCase s) = true
    /\ (forallb (fun c => negb (isWhiteSpace c)) (toLowerCase s) = true ->
        normalizeForMatch toLowerCase s = toLowerCase s)
    /\ (forall x sp1 sp2 r,
          forallb isWhiteSpace sp1 = true -> sp1 <> [] ->
          forallb isWhiteSpace sp2 = true -> sp2 <> [] ->
          replaceSpaceRuns false (x ++ sp1 ++ r)
          = replaceSpaceRuns false (x ++ sp2 ++ r)).
Proof.
  intros toLowerCase s. unfold normalizeForMatch.
  split; [apply replaceSpaceRuns_no_space|].
  split; [apply replaceSpaceRuns_clean|].
  intros x sp1 sp2 r H1 N1 H2 N2.
  now apply replaceSpaceRuns_run_length.
Qed.

Lemma normalizeForMatch_leaves_no_white_space_witness :
  normalizeForMatch asciiToLowerCase (js "Q3-Plan") = js "q3-plan"
  /\ replaceSpaceRuns false (js "my" ++ js "   " ++ js "doc")
     = replaceSpaceRuns false (js "my" ++ js " " ++ js "doc").
Proof.
  destruct (normalizeForMatch_leaves_no_white_space asciiToLowerCase
              (js "Q3-Plan")) as (_ & H2 & H3).
  split.
  - apply H2. reflexivity.
  - apply H3; (reflexivity || discriminate).
Defined.

(** [cleanFilePath] only ever removes one of the two prefixes from the
    front: what is left is the reference itself, or the reference without
    the scheme prefix, or without the collection prefix; a second prefix
    behind the first is kept. *)
Theorem cleanFilePath_removes_one_prefix :
  forall collection raw,
    (cleanFilePath collection raw = raw
     \/ raw = (js "qmd://" ++ collection ++ js "/")
              ++ cleanFilePath collection raw
     \/ raw = (collection ++ js "/") ++ cleanFilePath collection raw)
    /\ (length (cleanFilePath collection raw) <= length raw)%nat
    /\ cleanFilePath collection
         (js "qmd://" ++ collection ++ js "/" ++ collection ++ js "/" ++ raw)
       = collection ++ js "/" ++ raw.
Proof.
  intros collection raw.
  assert (H : cleanFilePath collection raw = raw
     \/ raw = (js "qmd://" ++ collection ++ js "/")
              ++ cleanFilePath collection raw
     \/ raw = (collection ++ js "/") ++ cleanFilePath collection raw).
  { unfold cleanFilePath.
    destruct (startsWith raw (js "qmd://" ++ collection ++ js "/")) eqn:E1.
    - right. left. destruct (startsWith_prefix _ _ E1) as [rest ->].
      now rewrite sliceFrom_app.
    - destruct (startsWith raw (collection ++ js "/")) eqn:E2.
      + right. right. destruct (startsWith_prefix _ _ E2) as [rest ->].
        now rewrite sliceFrom_app.
      + now left. }
  split; [exact H|]. split.
  - destruct H as [-> | [H | H]]; [apply le_n| |];
      rewrite H at 2; rewrite length_app; lia.
  - apply (cleanFilePath_scheme collection (collection ++ js "/" ++ raw)).
Qed.

Lemma stripMd_prefix s : exists t, s = stripMd s ++ t.
Proof.
  unfold stripMd.
  destruct ((3 <=? length s)%nat && jsstring_eqb _ _).
  - exists (skipn (length s - 3) s). symmetry. apply firstn_skipn.
  - exists []. now rewrite app_nil_r.
Qed.

(** The display name of a reference whose cleaned path does not end in a
    slash is its last segment minus a final [.md], and holds no slash; when
    the cleaned path does end in a slash, or is empty, the display name is
    the whole cleaned path minus a final [.md].  This is the title of a
    row whose item has no title of its own. *)
Theorem fileDisplayName_is_the_last_segment :
  forall collection rawPath,
    (forall dir seg,
        cleanFilePath collection rawPath = dir ++ js "/" ++ seg ->
        seg <> [] -> ~ In 47 seg ->
        fileDisplayName collection rawPath = stripMd seg
        /\ ~ In 47 (fileDisplayName collection rawPath))
    /\ (~ In 47 (cleanFilePath collection rawPath) ->
        fileDisplayName collection rawPath
        = stripMd (cleanFilePath collection rawPath))
    /\ (forall dir,
          cleanFilePath collection rawPath = dir ++ js "/" ->
          fileDisplayName collection rawPath = stripMd (dir ++ js "/"))
    /\ callFileDisplayName collection (Some (JString rawPath))
       = Some (fileDisplayName collection rawPath).
Proof.
  intros collection rawPath. unfold fileDisplayName.
  split; [|split; [|split]].
  - intros dir seg E Hne Hs. rewrite E. cbn [js app].
    rewrite pop_split_last by exact Hs.
    assert (X : match seg with [] => dir ++ 47 :: seg | _ :: _ => seg end
                = seg) by (destruct seg; congruence).
    destruct seg as [|c seg]; [congruence|].
    split; [reflexivity|].
    destruct (stripMd_prefix (c :: seg)) as [t Ht].
    intros Hin. apply Hs. rewrite Ht. apply in_or_app. now left.
  - intros Hs. rewrite pop_split_no_sep by exact Hs.
    now destruct (cleanFilePath collection rawPath).
  - intros dir E. rewrite E. cbn [js app].
    rewrite pop_split_last by (intros []). reflexivity.
  - reflexivity.
Qed.

Lemma fileDisplayName_is_the_last_segment_witness :
  fileDisplayName (js "obsidian") (js "obsidian/Projects/Q3 Plan.md")
  = js "Q3 Plan"
  /\ fileDisplayName (js "obsidian") (js "Inbox.md") = js "Inbox"
  /\ fileDisplayName (js "obsidian") (js "obsidian/Projects/")
     = js "Projects/".
Proof.
  destruct (fileDisplayName_is_the_last_segment (js "obsidian")
              (js "obsidian/Projects/Q3 Plan.md")) as (H1 & _).
  destruct (fileDisplayName_is_the_last_segment (js "obsidian")
              (js "Inbox.md")) as (_ & H2 & _).
  destruct (fileDisplayName_is_the_last_segment (js "obsidian")
              (js "obsidian/Projects/")) as (_ & _ & H3 & _).
  split; [|split].
  - apply (H1 (js "Projects") (js "Q3 Plan.md")).
    + reflexivity.
    + discriminate.
    + cbn. intuition discriminate.
  - apply H2. cbn. intuition discriminate.
  - apply (H3 (js "Projects")). reflexivity.
Defined.

End PathsMore.

Module SnippetFacts.
Import JSString JSON Session Display StringFacts SessionMore.

#[local] Arguments isWhiteSpace : simpl never.

Lemma trimStart_head s : headIsSpace (trimStart s) = false.
Proof.
  induction s as [|c r IH]; cbn; [reflexivity|].
  destruct (isWhiteSpace c) eqn:E; [exact IH | cbn; exact E].
Qed.

Lemma trimStart_snoc x c :
  isWhiteSpace c = false -> trimStart (x ++ [c]) = trimStart x ++ [c].
Proof.
  intros Hc. induction x as [|a x IH]; cbn; [now rewrite Hc|].
  destruct (isWhiteSpace a); [exact IH | reflexivity].
Qed.

Lemma trimEnd_head s : headIsSpace s = false -> headIsSpace (trimEnd s) = false.
Proof.
  destruct s as [|c r]; intros H; [reflexivity|].
  cbn in H. unfold trimEnd. cbn [rev].
  rewrite (@trimStart_snoc _ _ H), rev_app_distr. cbn. exact H.
Qed.

Lemma trim_isTrimmed s : isTrimmed (trim s) = true.
Proof.
  unfold isTrimmed, trim.
  rewrite (@trimEnd_head _ (trimStart_head s)).
  unfold trimEnd. rewrite rev_involutive, trimStart_head. reflexivity.
Qed.

Lemma trimStart_In x s : In x (trimStart s) -> In x s.
Proof.
  induction s as [|c r IH]; cbn; [auto|].
  destruct (isWhiteSpace c); [auto | intros H; exact H].
Qed.

Lemma trim_In x s : In x (trim s) -> In x s.
Proof.
  unfold trim, trimEnd. intros H.
  apply trimStart_In. apply in_rev. apply in_rev in H.
  now apply trimStart_In in H.
Qed.

Lemma trimStart_length s : (length (trimStart s) <= length s)%nat.
Proof.
  induction s as [|c r IH]; cbn; [lia|].
  destruct (isWhiteSpace c); cbn; lia.
Qed.

Lemma trim_length s : (length (trim s) <= length s)%nat.
Proof.
  unfold trim, trimEnd. rewrite length_rev.
  pose proof (trimStart_length (rev (trimStart s))) as H.
  rewrite length_rev in H. pose proof (trimStart_length s). lia.
Qed.

Lemma trim_fixed s : isTrimmed s = true -> trim s = s.
Proof.
  unfold isTrimmed. intros H. apply andb_true_iff in H.
  destruct H as [H1 H2]. apply negb_true_iff in H1, H2.
  assert (F : forall t, headIsSpace t = false -> trimStart t = t).
  { intros [|c r]; cbn; [reflexivity|]. now intros ->. }
  unfold trim, trimEnd. rewrite (F s H1), (F _ H2). apply rev_involutive.
Qed.

Lemma replaceNewlineRuns_no_LF s :
  forall b, ~ In LF (replaceNewlineRuns b s).
Proof.
  induction s as [|c r IH]; intros b; cbn; [auto|].
  destruct (c =? LF) eqn:E.
  - destruct b; [apply IH|]. cbn. intros [H|H]; [discriminate | now apply IH in H].
  - cbn. intros [H|H]; [|now apply IH in H].
    subst c. now rewrite N.eqb_refl in E.
Qed.

Lemma replaceNewlineRuns_length s :
  forall b, (length (replaceNewlineRuns b s) <= length s)%nat.
Proof.
  induction s as [|c r IH]; intros b; cbn; [lia|].
  destruct (c =? LF); [destruct b|]; cbn;
    try (pose proof (IH true)); try (pose proof (IH false)); lia.
Qed.

Lemma replaceNewlineRuns_spaces s :
  forall b,
    forallb isWhiteSpace s = true ->
    forallb isWhiteSpace (replaceNewlineRuns b s) = true.
Proof.
  induction s as [|c r IH]; intros b H; cbn in *; [reflexivity|].
  apply andb_true_iff in H. destruct H as [Hc Hr].
  destruct (c =? LF); [destruct b|]; cbn; rewrite ?Hc;
    change (isWhiteSpace 32) with true; cbn; auto.
Qed.

Lemma replaceNewlineRuns_no_newline s :
  ~ In LF s -> forall b, replaceNewlineRuns b s = s.
Proof.
  induction s as [|c r IH]; intros H b; cbn; [reflexivity|].
  destruct (c =? LF) eqn:E.
  - apply N.eqb_eq in E. subst c. exfalso. apply H. now left.
  - f_equal. apply IH. intros Hin. apply H. now right.
Qed.

Lemma removeMarkers_length s :
  forall k, (length (removeMarkers k s) <= length s)%nat.
Proof.
  induction s as [|c r IH]; intros k; cbn [removeMarkers length]; [lia|].
  destruct k as [|k]; [|specialize (IH k); lia].
  destruct (matchMarker (c :: r)) as [rest|].
  - specialize (IH (length r - length rest)%nat). lia.
  - cbn [length]. specialize (IH 0%nat). lia.
Qed.

Lemma matchMarker_not_at c r : c <> 64 -> matchMarker (c :: r) = None.
Proof.
  intros H. unfold matchMarker. cbn.
  apply N.eqb_neq in H. now rewrite H.
Qed.

Lemma removeMarkers_no_at pre r :
  ~ In 64 pre -> removeMarkers 0 (pre ++ r) = pre ++ removeMarkers 0 r.
Proof.
  induction pre as [|c pre IH]; intros H; [reflexivity|].
  cbn [app removeMarkers].
  rewrite matchMarker_not_at by (intros ->; apply H; now left).
  f_equal. apply IH. intros Hin. apply H. now right.
Qed.

Lemma removeMarkers_match c r rest :
  matchMarker (c :: r) = Some rest ->
  removeMarkers 0 (c :: r) = removeMarkers (length r - length rest) r.
Proof. intros H. cbn [removeMarkers]. now rewrite H. Qed.

Lemma removeMarkers_skip x r :
  removeMarkers (length x) (x ++ r) = removeMarkers 0 r.
Proof.
  induction x as [|c x IH]; [reflexivity|]. exact IH.
Qed.

Lemma dropWhile_stop p x c r :
  forallb p x = true -> p c = false -> dropWhile p (x ++ c :: r) = c :: r.
Proof.
  intros Hx Hc. induction x as [|a x IH]; cbn in *; [now rewrite Hc|].
  apply andb_true_iff in Hx. destruct Hx as [Ha Hx]. rewrite Ha. auto.
Qed.

Lemma dropWhile_spaces ws post :
  forallb isWhiteSpace ws = true -> headIsSpace post = false ->
  dropWhile isWhiteSpace (ws ++ post) = post.
Proof.
  intros Hw Hp. induction ws as [|a ws IH]; cbn in *.
  - destruct post as [|c post]; [reflexivity|]. cbn in Hp |- *.
    now rewrite Hp.
  - apply andb_true_iff in Hw. destruct Hw as [Ha Hw]. rewrite Ha. auto.
Qed.

Lemma notIn_forallb (c : cu) s :
  ~ In c s -> forallb (fun x => negb (x =? c)) s = true.
Proof.
  induction s as [|a s IH]; intros H; cbn; [reflexivity|].
  apply andb_true_iff. split.
  - apply negb_true_iff, N.eqb_neq. intros ->. apply H. now left.
  - apply IH. intros Hin. apply H. now right.
Qed.

Lemma expect_head c r : expect c (c :: r) = Some r.
Proof. cbn. now rewrite N.eqb_refl. Qed.

Ltac marker_literals :=
  change (js "@@") with [64; 64] in *;
  change (js "(") with [40] in *;
  change (js ")") with [41] in *;
  cbn [app] in *.

(** The text of a marker: two at signs, a label, two at signs, white
    space, a parenthesised note and white space. *)
Lemma matchMarker_marker label ws1 note ws2 post :
  ~ In 64 label -> forallb isWhiteSpace ws1 = true -> ~ In 41 note ->
  forallb isWhiteSpace ws2 = true -> headIsSpace post = false ->
  matchMarker (js "@@" ++ label ++ js "@@" ++ ws1 ++ js "(" ++ note
               ++ js ")" ++ ws2 ++ post)
  = Some post.
Proof.
  intros Hl H1 Hn H2 Hp. unfold matchMarker. marker_literals.
  repeat (rewrite expect_head; cbn [andThen]).
  rewrite (@dropWhile_stop notAt label 64 _ (@notIn_forallb _ _ Hl) eq_refl).
  repeat (rewrite expect_head; cbn [andThen]).
  rewrite (@dropWhile_stop isWhiteSpace ws1 40 _ H1 eq_refl).
  repeat (rewrite expect_head; cbn [andThen]).
  rewrite (@dropWhile_stop notClose note 41 _ (@notIn_forallb _ _ Hn) eq_refl).
  repeat (rewrite expect_head; cbn [andThen]).
  now rewrite (@dropWhile_spaces _ _ H2 Hp).
Qed.

(** A cleaned snippet is one trimmed line no longer than the raw text: it
    holds no line feed, neither starts nor ends with white space, and
    cleaning it again changes nothing when it holds no at sign. *)
Theorem cleanSnippet_is_one_trimmed_line :
  forall raw,
    ~ In LF (cleanSnippet raw)
    /\ isTrimmed (cleanSnippet raw) = true
    /\ (length (cleanSnippet raw) <= length raw)%nat
    /\ (~ In 64 (cleanSnippet raw) ->
        cleanSnippet (cleanSnippet raw) = cleanSnippet raw).
Proof.
  intros raw. unfold cleanSnippet.
  set (t := trim (replaceNewlineRuns false (removeMarkers 0 raw))).
  assert (HLF : ~ In LF t).
  { intros H. apply trim_In in H. now apply replaceNewlineRuns_no_LF in H. }
  split; [exact HLF|]. split; [apply trim_isTrimmed|]. split.
  - pose proof (trim_length (replaceNewlineRuns false (removeMarkers 0 raw))).
    pose proof (replaceNewlineRuns_length (removeMarkers 0 raw) false).
    pose proof (removeMarkers_length raw 0). unfold t. lia.
  - intros Hat.
    pose proof (@removeMarkers_no_at t [] Hat) as E.
    rewrite app_nil_r in E. cbn in E. rewrite app_nil_r in E. rewrite E.
    rewrite (@replaceNewlineRuns_no_newline _ HLF).
    apply trim_fixed. apply trim_isTrimmed.
Qed.

Lemma cleanSnippet_is_one_trimmed_line_witness :
  cleanSnippet (cleanSnippet (js "  first line" ++ [LF; LF] ++ js "second  "))
  = js "first line second".
Proof.
  destruct (cleanSnippet_is_one_trimmed_line
              (js "  first line" ++ [LF; LF] ++ js "second  "))
    as (_ & _ & _ & H).
  rewrite H; [reflexivity|].
  vm_compute. intuition discriminate.
Defined.

(** A marker at the head of a line (two at signs, a label without at
    sign, two at signs, a parenthesised note, each followed by any white
    space) is removed together with the white space after it, and the text
    before it, when it holds no at sign, is kept as it is.  A text without
    at sign is left alone. *)
Theorem removeMarkers_drops_a_marker :
  forall pre label ws1 note ws2 post,
    ~ In 64 pre -> ~ In 64 label -> forallb isWhiteSpace ws1 = true ->
    ~ In 41 note -> forallb isWhiteSpace ws2 = true ->
    headIsSpace post = false ->
    removeMarkers 0 (pre ++ js "@@" ++ label ++ js "@@" ++ ws1 ++ js "("
                     ++ note ++ js ")" ++ ws2 ++ post)
    = pre ++ removeMarkers 0 post
    /\ (~ In 64 post ->
        removeMarkers 0 (pre ++ js "@@" ++ label ++ js "@@" ++ ws1 ++ js "("
                         ++ note ++ js ")" ++ ws2 ++ post)
        = pre ++ post).
Proof.
  intros pre label ws1 note ws2 post Hpre Hl H1 Hn H2 Hp.
  assert (E : removeMarkers 0 (pre ++ js "@@" ++ label ++ js "@@" ++ ws1
                ++ js "(" ++ note ++ js ")" ++ ws2 ++ post)
              = pre ++ removeMarkers 0 post).
  { rewrite (@removeMarkers_no_at _ _ Hpre). f_equal.
    pose proof (@matchMarker_marker label ws1 note ws2 post Hl H1 Hn H2 Hp)
      as M.
    marker_literals. rewrite (@removeMarkers_match _ _ _ M).
    set (m := 64 :: label ++ 64 :: 64 :: ws1 ++ 40 :: note ++ 41 :: ws2).
    replace (64 :: label ++ 64 :: 64 :: ws1 ++ 40 :: note ++ 41 :: ws2 ++ post)
      with (m ++ post)
      by (unfold m; cbn [app]; apply (f_equal (cons 64));
          repeat (rewrite <- app_assoc; cbn [app]); reflexivity).
    rewrite length_app, Nat.add_sub. exact (removeMarkers_skip m post). }
  split; [exact E|].
  intros Hpost. rewrite E. f_equal.
  pose proof (@removeMarkers_no_at post [] Hpost) as F.
  now rewrite !app_nil_r in F.
Qed.

Lemma removeMarkers_drops_a_marker_witness :
  removeMarkers 0 (js "@@ -3,4 @@ (2 before, 10 after)" ++ [LF]
                   ++ js "Quarterly goals")
  = js "Quarterly goals".
Proof.
  refine (proj2 (@removeMarkers_drops_a_marker [] (js " -3,4 ") (js " ")
                   (js "2 before, 10 after") [LF] (js "Quarterly goals")
                   _ _ _ _ _ _) _);
    try reflexivity; vm_compute; intuition discriminate.
Defined.

Lemma removeMarkers_spaces s :
  forallb isWhiteSpace s = true -> removeMarkers 0 s = s.
Proof.
  intros H.
  assert (Hat : ~ In 64 s).
  { intros Hin. rewrite forallb_forall in H. now apply H in Hin. }
  pose proof (@removeMarkers_no_at s [] Hat) as F.
  now rewrite !app_nil_r in F.
Qed.

(** The snippet element of a row exists exactly when the cleaned snippet
    is not empty, so never for a blank snippet; its text is the cleaned
    snippet when that has at most 200 characters and otherwise its first
    200 characters followed by three dots, hence never more than 203
    characters. *)
Theorem snippetElement_is_bounded :
  forall raw,
    (snippetElement raw = None <-> cleanSnippet raw = [])
    /\ (forallb isWhiteSpace raw = true -> snippetElement raw = None)
    /\ (forall t,
          snippetElement raw = Some t ->
          (length t <= 203)%nat
          /\ ((length (cleanSnippet raw) <= 200)%nat -> t = cleanSnippet raw)
          /\ ((200 < length (cleanSnippet raw))%nat ->
              t = firstn 200 (cleanSnippet raw) ++ js "..."
              /\ length t = 203%nat)).
Proof.
  intros raw. unfold snippetElement.
  assert (S200 : forall s, (200 < length s)%nat ->
                   slice s 0 200 = firstn 200 s).
  { intros s H. unfold slice, clampIndex. cbn [Z.ltb Z.compare].
    rewrite Z.min_l by lia. rewrite Z.min_l by lia. reflexivity. }
  split; [|split].
  - destruct (jsstring_eqb (cleanSnippet raw) []) eqn:E.
    + apply jsstring_eqb_eq in E. tauto.
    + apply jsstring_eqb_neq in E.
      destruct (200 <? length (cleanSnippet raw))%nat;
        split; (discriminate || contradiction).
  - intros H. unfold cleanSnippet.
    rewrite (@removeMarkers_spaces _ H).
    rewrite (@trim_spaces _ (@replaceNewlineRuns_spaces _ false H)).
    reflexivity.
  - intros t. destruct (jsstring_eqb (cleanSnippet raw) []); [discriminate|].
    destruct (200 <? length (cleanSnippet raw))%nat eqn:L.
    + apply Nat.ltb_lt in L. intros H.
      assert (Et : t = slice (cleanSnippet raw) 0 200 ++ js "...")
        by congruence.
      subst t. clear H. rewrite (S200 _ L).
      assert (length (firstn 200 (cleanSnippet raw) ++ js "...") = 203%nat)
        by (rewrite length_app, length_firstn;
            change (length (js "...")) with 3%nat; lia).
      split; [lia|]. split; [lia | auto].
    + apply Nat.ltb_ge in L. intros H. inversion H; subst t.
      split; [lia|]. split; [auto | lia].
Qed.

Lemma snippetElement_is_bounded_witness :
  snippetElement (js "   " ++ [LF; TAB]) = None
  /\ snippetElement (js " short note ") = Some (js "short note").
Proof.
  destruct (snippetElement_is_bounded (js "   " ++ [LF; TAB]))
    as (_ & H & _).
  destruct (snippetElement_is_bounded (js " short note ")) as (_ & _ & K).
  split; [apply H; reflexivity|].
  destruct (snippetElement (js " short note ")) as [t|] eqn:E;
    [|vm_compute in E; discriminate].
  f_equal. destruct (K t eq_refl) as (_ & K2 & _).
  rewrite K2; [reflexivity | vm_compute; lia].
Defined.

End SnippetFacts.

Module SettingsFacts.
Import JSString JSON Session Display SettingsTab StringFacts SnippetFacts.

#[local] Arguments isWhiteSpace : simpl never.


Lemma digit_not_space c : isDigit c = true -> isWhiteSpace c = false.
Proof.
  unfold isDigit, isWhiteSpace. intros H.
  apply andb_true_iff in H. destruct H as [H1 H2].
  apply N.leb_le in H1, H2.
  repeat match goal with
         | |- context [?a <=? ?b] =>
             let E := fresh in
             destruct (a <=? b) eqn:E;
             [apply N.leb_le in E | apply N.leb_gt in E]
         | |- context [?a =? ?b] =>
             let E := fresh in
             destruct (a =? b) eqn:E;
             [apply N.eqb_eq in E | apply N.eqb_neq in E]
         end; try reflexivity; lia.
Qed.

Lemma digit_not_sign c :
  isDigit c = true -> (c =? 45) = false /\ (c =? 43) = false.
Proof.
  unfold isDigit. intros H. apply andb_true_iff in H. destruct H as [H1 H2].
  apply N.leb_le in H1, H2. split; apply N.eqb_neq; lia.
Qed.

Lemma trimStart_skip ws x :
  forallb isWhiteSpace ws = true -> trimStart (ws ++ x) = trimStart x.
Proof.
  induction ws as [|c ws IH]; intros H; cbn in *; [reflexivity|].
  apply andb_true_iff in H. destruct H as [Hc Hw]. rewrite Hc. auto.
Qed.

Lemma takeWhile_app p x r :
  forallb p x = true -> takeWhile p (x ++ r) = x ++ takeWhile p r.
Proof.
  induction x as [|c x IH]; intros H; cbn in *; [reflexivity|].
  apply andb_true_iff in H. destruct H as [Hc Hx]. rewrite Hc. f_equal. auto.
Qed.

Lemma digitsValue_from acc digits :
  (0 <= acc)%Z ->
  (0 <= fold_left (fun a c => (a * 10 + Z.of_N (digitVal c))%Z) digits acc)%Z.
Proof.
  revert acc. induction digits as [|c r IH]; intros acc H; cbn; [exact H|].
  apply IH. lia.
Qed.

Lemma digitsValue_nonneg digits : (0 <= digitsValue digits)%Z.
Proof. apply digitsValue_from. lia. Qed.

(** What the number field reads from a text that starts, after white
    space, with a run of digits. *)
Lemma signAndDigits_digits ws digits rest :
  forallb isWhiteSpace ws = true -> forallb isDigit digits = true ->
  digits <> [] -> takeWhile isDigit rest = [] ->
  signAndDigits (ws ++ digits ++ rest) = (false, digits)
  /\ signAndDigits (ws ++ [45] ++ digits ++ rest) = (true, digits)
  /\ signAndDigits (ws ++ [43] ++ digits ++ rest) = (false, digits).
Proof.
  intros Hw Hd Hne Hr.
  destruct digits as [|d ds]; [congruence|].
  assert (Hd' := Hd). cbn in Hd'. apply andb_true_iff in Hd'.
  destruct Hd' as [Hc Hds].
  assert (T : takeWhile isDigit ((d :: ds) ++ rest) = d :: ds)
    by (rewrite (@takeWhile_app _ _ _ Hd), Hr; apply app_nil_r).
  unfold signAndDigits. rewrite !(@trimStart_skip _ _ Hw).
  split; [|split].
  - cbn [app trimStart]. rewrite (@digit_not_space _ Hc).
    destruct (@digit_not_sign _ Hc) as [-> ->]. exact (f_equal _ T).
  - cbn [app trimStart]. change (isWhiteSpace 45) with false. cbn iota.
    change (45 =? 45) with true. cbn iota. exact (f_equal _ T).
  - cbn [app trimStart]. change (isWhiteSpace 43) with false. cbn iota.
    change (43 =? 45) with false. change (43 =? 43) with true. cbn iota.
    exact (f_equal _ T).
Qed.

Lemma digits_of_uint d :
  forallb isDigit (js (DecimalString.NilEmpty.string_of_uint d)) = true.
Proof. induction d; cbn; auto. Qed.

Lemma value_of_uint_acc d :
  forall acc,
    fold_left (fun a c => (a * 10 + Z.of_N (digitVal c))%Z)
      (js (DecimalString.NilEmpty.string_of_uint d)) (Z.pos acc)
    = Z.pos (Pos.of_uint_acc d acc).
Proof.
  induction d; intros acc; cbn [DecimalString.NilEmpty.string_of_uint js
    fold_left Pos.of_uint_acc]; [reflexivity|..];
    rewrite <- IHd; f_equal;
    match goal with
    | |- context [Z.of_N ?x] =>
        let v := eval vm_compute in (Z.of_N x) in change (Z.of_N x) with v
    end; lia.
Qed.

Lemma value_of_uint d :
  digitsValue (js (DecimalString.NilEmpty.string_of_uint d))
  = Z.of_N (Pos.of_uint d).
Proof.
  unfold digitsValue.
  induction d; cbn [DecimalString.NilEmpty.string_of_uint js fold_left
    Pos.of_uint]; [reflexivity | exact IHd |..];
    (etransitivity; [|apply value_of_uint_acc]); reflexivity.
Qed.

Lemma numberToString_pos p :
  numberToString (Z.pos p)
  = js (DecimalString.NilEmpty.string_of_uint (Pos.to_uint p))
  /\ numberToString (Z.pos p) <> [].
Proof.
  unfold numberToString. cbn [Z.to_int DecimalString.NilZero.string_of_int].
  pose proof (DecimalPos.Unsigned.to_uint_nonnil p) as N.
  unfold DecimalString.NilZero.string_of_uint.
  destruct (Pos.to_uint p); try congruence; split; (reflexivity || discriminate).
Qed.

Lemma mathInt_numberToString p :
  mathInt (numberToString (Z.pos p)) = Some (Z.pos p).
Proof.
  destruct (numberToString_pos p) as [E Hne].
  pose proof (digits_of_uint (Pos.to_uint p)) as Hd. rewrite <- E in Hd.
  pose proof (value_of_uint (Pos.to_uint p)) as Hv. rewrite <- E in Hv.
  rewrite DecimalPos.Unsigned.of_to in Hv. cbn [Z.of_N] in Hv.
  destruct (@signAndDigits_digits [] (numberToString (Z.pos p)) []
              eq_refl Hd Hne eq_refl) as (S & _ & _).
  cbn [app] in S. rewrite app_nil_r in S.
  unfold mathInt. rewrite S.
  destruct (numberToString (Z.pos p)); [congruence|]. now rewrite Hv.
Qed.

Lemma isSafeInteger_spec z :
  Spawn.isSafeInteger z = true <-> (Z.abs z <= 9007199254740991)%Z.
Proof. unfold Spawn.isSafeInteger. apply Z.leb_le. Qed.

Lemma parseInt10_numberToString z :
  (1 <= z)%Z -> Spawn.isSafeInteger z = true ->
  parseInt10 (numberToString z) = Integer z.
Proof.
  intros H1 H2. destruct z as [|p|p]; try lia.
  unfold parseInt10. now rewrite mathInt_numberToString, H2.
Qed.

Lemma valid_DEFAULT_SETTINGS : valid DEFAULT_SETTINGS.
Proof.
  unfold valid, DEFAULT_SETTINGS. cbn.
  split; [discriminate|]. split; [reflexivity|]. split; [discriminate|].
  split; [reflexivity|]. split; [lia | reflexivity].
Qed.




(** The number field reads the digits that follow leading white space
    and an optional plus sign, and ignores what comes after them: for
    digits whose value is a safe integer the count becomes that value, or
    16 when the value is 0.  With a minus sign before such digits, and
    for a blank text, the count becomes 16.  No other setting changes. *)
Theorem changeResultCount_reads_leading_digits :
  forall ws digits rest s,
    forallb isWhiteSpace ws = true -> forallb isDigit digits = true ->
    digits <> [] -> (digitsValue digits <= 9007199254740991)%Z ->
    takeWhile isDigit rest = [] ->
    changeResultCount (ws ++ digits ++ rest) s
    = Some (setResultCount
              (if (digitsValue digits =? 0)%Z then 16
               else digitsValue digits)%Z s)
    /\ changeResultCount (ws ++ [43] ++ digits ++ rest) s
       = Some (setResultCount
                 (if (digitsValue digits =? 0)%Z then 16
                  else digitsValue digits)%Z s)
    /\ changeResultCount (ws ++ [45] ++ digits ++ rest) s
       = Some (setResultCount 16 s)
    /\ changeResultCount ws s = Some (setResultCount 16 s).
Proof.
  intros ws digits rest s Hw Hd Hne Hmax Hr.
  destruct (signAndDigits_digits ws rest Hw Hd Hne Hr) as (S1 & S2 & S3).
  pose proof (digitsValue_nonneg digits) as Hv.
  assert (P : (if (digitsValue digits <? 1)%Z then 16 else digitsValue digits)%Z
              = (if (digitsValue digits =? 0)%Z then 16
                 else digitsValue digits)%Z).
  { destruct (digitsValue digits <? 1)%Z eqn:E1;
      destruct (digitsValue digits =? 0)%Z eqn:E2;
      try reflexivity;
      [apply Z.ltb_lt in E1; apply Z.eqb_neq in E2
      |apply Z.ltb_ge in E1; apply Z.eqb_eq in E2]; lia. }
  assert (Sp : Spawn.isSafeInteger (digitsValue digits) = true)
    by (apply isSafeInteger_spec; lia).
  assert (Sn : Spawn.isSafeInteger (- digitsValue digits) = true)
    by (apply isSafeInteger_spec; lia).
  unfold changeResultCount, parseInt10, mathInt.
  split; [|split; [|split]].
  - rewrite S1. destruct digits as [|d ds]; [congruence|].
    now rewrite Sp, P.
  - rewrite S3. destruct digits as [|d ds]; [congruence|].
    now rewrite Sp, P.
  - rewrite S2. destruct digits as [|d ds]; [congruence|]. rewrite Sn.
    destruct (- digitsValue (d :: ds) <? 1)%Z eqn:E1; [reflexivity|].
    apply Z.ltb_ge in E1. lia.
  - unfold signAndDigits. pose proof (@trimStart_skip ws [] Hw) as T.
    rewrite app_nil_r in T. rewrite T. reflexivity.
Qed.

Lemma changeResultCount_reads_leading_digits_witness :
  changeResultCount (js " 20 results") DEFAULT_SETTINGS
  = Some (setResultCount 20 DEFAULT_SETTINGS)
  /\ changeResultCount (js "-5") DEFAULT_SETTINGS = Some DEFAULT_SETTINGS.
Proof.
  split.
  - refine (proj1 (@changeResultCount_reads_leading_digits (js " ")
                     (js "20") (js " results") DEFAULT_SETTINGS
                     _ _ _ _ _)); try reflexivity;
      [discriminate | vm_compute; discriminate].
  - refine (proj1 (proj2 (proj2
              (@changeResultCount_reads_leading_digits [] (js "5") []
                 DEFAULT_SETTINGS _ _ _ _ _)))); try reflexivity;
      [discriminate | vm_compute; discriminate].
Defined.

(** The number field is filled with the decimal text of the count, and
    reading that text back changes nothing: for a count from 1 up to
    fifteen digits, the handler applied to the shown text leaves the
    settings as they are. *)
Theorem resultCount_field_reads_back_what_it_shows :
  forall s,
    (1 <= resultCount s < 10 ^ 15)%Z ->
    changeResultCount (numberToString (resultCount s)) s = Some s.
Proof.
  intros s [H1 H2]. unfold changeResultCount.
  rewrite parseInt10_numberToString;
    [|exact H1 | apply isSafeInteger_spec; lia].
  destruct (resultCount s <? 1)%Z eqn:L; [apply Z.ltb_lt in L; lia|].
  destruct s. reflexivity.
Qed.

Lemma resultCount_field_reads_back_what_it_shows_witness :
  changeResultCount (js "16") DEFAULT_SETTINGS = Some DEFAULT_SETTINGS.
Proof.
  apply (@resultCount_field_reads_back_what_it_shows DEFAULT_SETTINGS).
  vm_compute. split; [discriminate | reflexivity].
Defined.

End SettingsFacts.

Module SpawnFacts.
Import JSString Session Spawn StringFacts.

Lemma split_no_sep sep s : ~ In sep s -> split sep s = [s].
Proof.
  induction s as [|c s IH]; intros H; cbn; [reflexivity|].
  destruct (c =? sep) eqn:E.
  - apply N.eqb_eq in E. subst c. exfalso. apply H. now left.
  - rewrite IH; [reflexivity|]. intros Hin. apply H. now right.
Qed.

Lemma split_app_sep sep x y :
  split sep (x ++ sep :: y) = split sep x ++ split sep y.
Proof.
  induction x as [|c x IH]; cbn.
  - now rewrite N.eqb_refl.
  - destruct (c =? sep); [now rewrite IH|].
    rewrite IH. pose proof (split_nonempty sep x) as N.
    destruct (split sep x) as [|seg segs]; [congruence | reflexivity].
Qed.

Lemma split_join sep p parts rest :
  split sep (join [sep] (p :: parts) ++ sep :: rest)
  = concat (map (split sep) (p :: parts)) ++ split sep rest.
Proof.
  revert p. induction parts as [|q parts IH]; intros p.
  - cbn [join map concat]. rewrite split_app_sep. now rewrite app_nil_r.
  - change (join [sep] (p :: q :: parts))
      with (p ++ [sep] ++ join [sep] (q :: parts)).
    rewrite <- !app_assoc. cbn [app]. rewrite split_app_sep, IH.
    cbn [map concat]. now rewrite <- !app_assoc.
Qed.

Lemma split_wellKnown home :
  ~ In 58 home -> concat (map (split 58) (wellKnown home)) = wellKnown home.
Proof.
  intros H. unfold wellKnown. cbn [map concat].
  assert (F : forall t, ~ In 58 t -> split 58 (home ++ t) = [home ++ t]).
  { intros t Ht. apply split_no_sep. intros Hin.
    apply in_app_or in Hin. tauto. }
  rewrite !F by (vm_compute; intuition discriminate).
  reflexivity.
Qed.

(** The directories the child searches, in order: the extra directory of
    the settings when it is not blank, trimmed (and itself split at its
    colons), then the four well-known directories, then the entries of the
    inherited PATH.  When the inherited PATH is unset or empty the list
    ends with one empty entry. *)
Theorem childPath_search_order :
  forall home extraPath envPath,
    ~ In 58 home ->
    split 58 (childPath home extraPath envPath)
    = (if jsstring_eqb (trim extraPath) [] then []
       else split 58 (trim extraPath))
      ++ wellKnown home ++ split 58 (inherited envPath)
    /\ (inherited envPath = [] ->
        split 58 (childPath home extraPath envPath)
        = (if jsstring_eqb (trim extraPath) [] then []
           else split 58 (trim extraPath))
          ++ wellKnown home ++ [[]]).
Proof.
  intros home extraPath envPath H.
  assert (E : split 58 (childPath home extraPath envPath)
    = (if jsstring_eqb (trim extraPath) [] then []
       else split 58 (trim extraPath))
      ++ wellKnown home ++ split 58 (inherited envPath)).
  { unfold childPath, pathParts. change (js ":") with [58]. cbn [app].
    destruct (jsstring_eqb (trim extraPath) []).
    - cbn [app]. unfold wellKnown at 1. rewrite split_join.
      fold (wellKnown home). now rewrite (@split_wellKnown _ H).
    - cbn [app]. rewrite split_join. cbn [map concat].
      rewrite (@split_wellKnown _ H). now rewrite <- app_assoc. }
  split; [exact E|]. intros I. rewrite E, I. reflexivity.
Qed.

Lemma childPath_search_order_witness :
  split 58 (childPath (js "/Users/you") (js " /opt/qmd/bin ")
              (Some (js "/usr/bin:/bin")))
  = [js "/opt/qmd/bin"; js "/Users/you/.bun/bin";
     js "/Users/you/.local/bin"; js "/usr/local/bin";
     js "/opt/homebrew/bin"; js "/usr/bin"; js "/bin"]
  /\ split 58 (childPath (js "/Users/you") (js "  ") None)
     = [js "/Users/you/.bun/bin"; js "/Users/you/.local/bin";
        js "/usr/local/bin"; js "/opt/homebrew/bin"; []].
Proof.
  assert (H : ~ In 58 (js "/Users/you"))
    by (vm_compute; intuition discriminate).
  split.
  - exact (proj1 (@childPath_search_order (js "/Users/you")
                    (js " /opt/qmd/bin ") (Some (js "/usr/bin:/bin")) H)).
  - exact (proj2 (@childPath_search_order (js "/Users/you") (js "  ")
                    None H) eq_refl).
Defined.

End SpawnFacts.

Module ShellFacts.
Import JSString Shell.

Lemma readWord_escapeQuotes s :
  forall rest,
    readWord true (escapeQuotes s ++ rest)
    = option_map (app s) (readWord true rest).
Proof.
  induction s as [|c s IH]; intros rest; cbn [escapeQuotes app].
  - now destruct (readWord true rest).
  - destruct (c =? quote) eqn:E.
    + apply N.eqb_eq in E. subst c.
      cbn [app readWord].
      change (quote =? quote) with true.
      change (backslash =? quote) with false.
      change (backslash =? backslash) with true.
      cbn iota. rewrite IH.
      now destruct (readWord true rest).
    + cbn [app readWord]. rewrite E, IH.
      now destruct (readWord true rest).
Qed.

(** A POSIX shell reads the quoted text back as one word that is the
    original text, whatever characters it holds; so the quoting loses
    nothing and two different texts are never quoted alike. *)
Theorem shellQuote_reads_back_as_the_text :
  forall s,
    readWord false (shellQuote s) = Some s
    /\ forall t, shellQuote s = shellQuote t -> s = t.
Proof.
  assert (R : forall s, readWord false (shellQuote s) = Some s).
  { intros s. unfold shellQuote. cbn [readWord].
    change (quote =? quote) with true. cbn iota.
    rewrite readWord_escapeQuotes. cbn [readWord].
    change (quote =? quote) with true. cbn [option_map].
    now rewrite app_nil_r. }
  intros s. split; [apply R|].
  intros t H. pose proof (R s) as Hs. rewrite H, R in Hs. congruence.
Qed.

Lemma shellQuote_reads_back_as_the_text_witness :
  readWord false (js "'it'\''s'") = Some (js "it's")
  /\ js "it's" = js "it's".
Proof.
  destruct (shellQuote_reads_back_as_the_text (js "it's")) as [H1 H2].
  split; [exact H1 | exact (H2 (js "it's") eq_refl)].
Defined.

End ShellFacts.

Module ArgsFacts.
Import JSString JSON Session Spawn SettingsTab SettingsFacts.

(** With valid settings, whose count is a safe integer of at least 1, the
    child gets seven arguments: the mode, the query as one argument
    exactly as typed, and behind the fixed flags a non-empty collection
    name and a count that is written in decimal digits only and reads
    back as the count of the settings. *)
Theorem childArgs_of_valid_settings :
  forall mode query s,
    valid s ->
    exists count,
      childArgs mode query s
      = Some [mode; query; js "--json"; js "-c"; collection s; js "-n";
              count]
      /\ collection s <> []
      /\ count <> []
      /\ forallb isDigit count = true
      /\ parseInt10 count = Integer (resultCount s).
Proof.
  intros mode query s (_ & _ & Hc & _ & Hn & Hs).
  exists (numberToString (resultCount s)). unfold childArgs. rewrite Hs.
  split; [reflexivity|]. split; [exact Hc|].
  pose proof (@parseInt10_numberToString _ Hn Hs) as P.
  destruct (resultCount s) as [|p|p]; try lia.
  destruct (numberToString_pos p) as [E Hne].
  split; [exact Hne|]. split; [|exact P].
  rewrite E. apply digits_of_uint.
Qed.

Lemma childArgs_of_valid_settings_witness :
  exists count,
    childArgs (js "vsearch") (js "--help") DEFAULT_SETTINGS
    = Some [js "vsearch"; js "--help"; js "--json"; js "-c"; js "obsidian";
            js "-n"; count]
    /\ parseInt10 count = Integer 16%Z.
Proof.
  destruct (@childArgs_of_valid_settings (js "vsearch") (js "--help")
              DEFAULT_SETTINGS valid_DEFAULT_SETTINGS)
    as (count & H1 & _ & _ & _ & H5).
  exists count. split; [exact H1 | exact H5].
Defined.

End ArgsFacts.
